(** * Secure file gateway of the remote workspace server

    A shallow embedding of the request-mediating core of the server
    (path resolver, visibility filter, upload-filename validator,
    conditional cache responder, authentication gateway) together with
    the properties its specification states about it.

    Conventions.
    - A JavaScript string is the list of its UTF-16 code units ([list N]).
    - [undefined]/[null] are [None]; a thrown [Error] is [Err msg] carrying
      the message of the source.
    - Node's [path] module is modelled for POSIX hosts ([path.sep = "/"]),
      at the level of path components, following its documented behaviour.
    - Runtime services the server calls but does not implement (URL
      parsing, base64/UTF-8 transcoding, date parsing, the file system,
      the [git] subprocess) are fields of records passed explicitly. *)

From Stdlib Require Import ZArith NArith List Ascii String Lia.
From Stdlib Require Import Numbers.DecimalString.
From Stdlib Require QArith Qround DecimalZ DecimalPos.
From stdpp Require Import gmap list.

Local Open Scope Z_scope.

(** ** JavaScript strings *)

Abbreviation jsstring := (list N).

Module JS.

(** A literal: the code units of an ASCII/Latin-1 Rocq string. *)
Definition str (s : string) : jsstring :=
  map N_of_ascii (list_ascii_of_string s).

(** Truthiness of a string value: the empty string is falsy. *)
Definition truthy (s : jsstring) : bool :=
  match s with [] => false | _ :: _ => true end.

(** Truthiness of [string | undefined]. *)
Definition truthy_opt (o : option jsstring) : bool :=
  match o with None => false | Some s => truthy s end.

(** ECMAScript WhiteSpace and LineTerminator code units: the set
    removed by [String.prototype.trim] and matched by the regular
    expression class [\s]. *)
Definition is_space (c : N) : bool :=
  ((9 <=? c) && (c <=? 13) || (c =? 32) || (c =? 160) || (c =? 5760)
   || (8192 <=? c) && (c <=? 8202) || (c =? 8232) || (c =? 8233)
   || (c =? 8239) || (c =? 8287) || (c =? 12288) || (c =? 65279))%N.

Fixpoint trimStart (s : jsstring) : jsstring :=
  match s with
  | [] => []
  | c :: s' => if is_space c then trimStart s' else s
  end.

Definition trimEnd (s : jsstring) : jsstring := rev (trimStart (rev s)).

Definition trim (s : jsstring) : jsstring := trimEnd (trimStart s).

Fixpoint startsWith (s p : jsstring) {struct p} : bool :=
  match p, s with
  | [], _ => true
  | _ :: _, [] => false
  | a :: p', b :: s' => (a =? b)%N && startsWith s' p'
  end.

(** [s.includes(c)] for a one-unit needle. *)
Definition includes_unit (s : jsstring) (c : N) : bool :=
  existsb (N.eqb c) s.

(** [arr.includes(x)] on an array of strings. *)
Definition includes (l : list jsstring) (x : jsstring) : bool :=
  bool_decide (x ∈ l).

(** [s.split(sep)] for a one-unit separator; never returns [[]]. *)
Fixpoint split (sep : N) (s : jsstring) : list jsstring :=
  match s with
  | [] => [[]]
  | c :: s' =>
      if (c =? sep)%N then [] :: split sep s'
      else match split sep s' with
           | [] => [[c]]
           | seg :: segs => (c :: seg) :: segs
           end
  end.

(** [arr.join(sep)]. *)
Fixpoint join (sep : jsstring) (l : list jsstring) : jsstring :=
  match l with
  | [] => []
  | [x] => x
  | x :: xs => x ++ sep ++ join sep xs
  end.

(** [s.split(/\r?\n/)]: a line feed, or a carriage return directly
    followed by one, separates. *)
Fixpoint split_lines (s : jsstring) : list jsstring :=
  match s with
  | [] => [[]]
  | 10%N :: s' => [] :: split_lines s'
  | 13%N :: ((10%N :: s'') as s') =>
      [] :: match split_lines s' with
            | _ :: segs => segs
            | [] => []
            end
  | c :: s' =>
      match split_lines s' with
      | [] => [[c]]
      | seg :: segs => (c :: seg) :: segs
      end
  end.

(** [String.prototype.toLowerCase] on the Basic Latin and Latin-1
    letters; other code units are returned unchanged.  Every string the
    server lower-cases is a header value (Latin-1), a URL host name
    (ASCII) or an already validated ASCII file name. *)
Definition lower_unit (c : N) : N :=
  (if (65 <=? c) && (c <=? 90) then c + 32
   else if (192 <=? c) && (c <=? 222) && negb (c =? 215) then c + 32
   else c)%N.

Definition toLowerCase (s : jsstring) : jsstring := map lower_unit s.

(** [String(n)] for an integral number below 10^21 in magnitude. *)
Definition of_Z (z : Z) : jsstring :=
  str (NilEmpty.string_of_int (Z.to_int z)).

End JS.

Notation "'js' s" := (JS.str s%string) (at level 1, s at level 0, only parsing).

Definition SLASH : N := 47.
Definition DOT : N := 46.
Definition COLON : N := 58.
Definition COMMA : N := 44.
Definition QUOTE : N := 34.

(** ** Node's [path] module (POSIX flavour) *)

Module Path.

Definition isAbsolute (p : jsstring) : bool :=
  match p with
  | c :: _ => (c =? SLASH)%N
  | [] => false
  end.

Definition dotdot : jsstring := [DOT; DOT].

(** One step of [normalizeString]: [stack] holds the segments kept so
    far, innermost first. *)
Definition normalize_step (allowAboveRoot : bool)
    (stack : list jsstring) (c : jsstring) : list jsstring :=
  if decide (c = [] ∨ c = [DOT]) then stack
  else if decide (c = dotdot) then
    match stack with
    | top :: below =>
        if decide (top = dotdot) then
          (if allowAboveRoot then dotdot :: stack else stack)
        else below
    | [] => if allowAboveRoot then [dotdot] else []
    end
  else c :: stack.

Definition normalize_comps (allowAboveRoot : bool)
    (cs : list jsstring) : list jsstring :=
  rev (fold_left (normalize_step allowAboveRoot) cs []).

Definition normalizeString (p : jsstring) (allowAboveRoot : bool)
    : jsstring :=
  JS.join [SLASH] (normalize_comps allowAboveRoot (JS.split SLASH p)).

(** The right-to-left loop of [path.resolve]: later arguments are
    prepended by earlier ones until an absolute one is met; empty
    arguments are skipped. *)
Fixpoint resolve_join (args : list jsstring) : jsstring * bool :=
  match args with
  | [] => ([], false)
  | p :: rest =>
      let '(tail, abs) := resolve_join rest in
      if abs then (tail, true)
      else match p with
           | [] => (tail, false)
           | _ :: _ => (p ++ SLASH :: tail, isAbsolute p)
           end
  end.

(** [path.resolve(...args)] in a process whose working directory is
    [cwd]. *)
Definition resolve (cwd : jsstring) (args : list jsstring) : jsstring :=
  let '(joined, abs) := resolve_join (cwd :: args) in
  let n := normalizeString joined (negb abs) in
  if abs then SLASH :: n
  else match n with [] => [DOT] | _ => n end.

(** The components of a path string. *)
Definition comps (p : jsstring) : list jsstring :=
  filter (λ c, c ≠ []) (JS.split SLASH p).

(** Drops the longest common prefix of two component lists. *)
Fixpoint strip_common (F T : list jsstring)
    : list jsstring * list jsstring :=
  match F, T with
  | f :: F', t :: T' =>
      if decide (f = t) then strip_common F' T' else (F, T)
  | _, _ => (F, T)
  end.

(** [path.relative(from, to)]. *)
Definition relative (cwd : jsstring) (from to : jsstring) : jsstring :=
  if decide (from = to) then []
  else
    let from' := resolve cwd [from] in
    let to' := resolve cwd [to] in
    if decide (from' = to') then []
    else
      let '(up, down) := strip_common (comps from') (comps to') in
      JS.join [SLASH] (map (λ _, dotdot) up ++ down).

(** The part of [p] after its last slash, trailing slashes ignored. *)
Definition basename (p : jsstring) : jsstring :=
  default [] (last (comps p)).

(** Index-free rendering of [extname]: the suffix of the base name
    from its last dot, unless that dot is the first character or the
    base name is [".."]. *)
Fixpoint last_dot_suffix (b : jsstring) : option jsstring :=
  match b with
  | [] => None
  | c :: b' =>
      match last_dot_suffix b' with
      | Some e => Some e
      | None => if (c =? DOT)%N then Some b else None
      end
  end.

Definition extname (p : jsstring) : jsstring :=
  let b := basename p in
  match b with
  | [] => []
  | c :: b' =>
      if decide (b = dotdot) then []
      else match last_dot_suffix b' with
           | Some e => e
           | None => []
           end
  end.

(** [path.normalize(p)]. *)
Definition normalize (p : jsstring) : jsstring :=
  match p with
  | [] => [DOT]
  | _ =>
      let abs := isAbsolute p in
      let trailing := bool_decide (last p = Some SLASH) in
      let n := normalizeString p (negb abs) in
      let n1 :=
        match n with
        | [] => if abs then [] else if trailing then [DOT; SLASH] else [DOT]
        | _ => if trailing then n ++ [SLASH] else n
        end in
      if abs then SLASH :: n1 else n1
  end.

(** [path.join(...args)]. *)
Definition join (args : list jsstring) : jsstring :=
  normalize (JS.join [SLASH] (filter (λ a, a ≠ []) args)).

End Path.


(** ** Errors, results and the process configuration *)

Inductive result (A : Type) : Type :=
| Ok (a : A)
| Err (msg : string).
Arguments Ok {A} a.
Arguments Err {A} msg.

#[global] Instance result_ret : MRet result := λ A a, Ok a.
#[global] Instance result_bind : MBind result := λ A B k r,
  match r with
  | Ok a => k a
  | Err msg => Err msg
  end.

(** What the launcher hands to the process. *)
Record Process := {
  cwd : jsstring;                          (* process.cwd() *)
  env_REPO_ROOT : option jsstring;         (* process.env.REPO_ROOT *)
  env_REMOTE_WS_PASSWORD : option jsstring (* process.env.REMOTE_WS_PASSWORD *)
}.

Definition REPO_ROOT (p : Process) : jsstring :=
  Path.resolve (cwd p) [default (cwd p) (env_REPO_ROOT p)].

Definition CLIPBOARD_DIRECTORY_NAME : jsstring := js ".clipboard".
Definition CLIPBOARD_DIRECTORY_PATH (p : Process) : jsstring :=
  Path.resolve (cwd p) [REPO_ROOT p; CLIPBOARD_DIRECTORY_NAME].
Definition SCREENSHOTS_DIRECTORY_NAME : jsstring := js ".playwright-mcp".
Definition SCREENSHOTS_DIRECTORY_PATH (p : Process) : jsstring :=
  Path.resolve (cwd p) [REPO_ROOT p; SCREENSHOTS_DIRECTORY_NAME].

Definition ALLOWED_IMAGE_EXTENSIONS : list jsstring :=
  [js ".png"; js ".jpg"; js ".jpeg"; js ".gif"; js ".webp"; js ".svg";
   js ".bmp"; js ".heic"; js ".heif"; js ".avif"].

Definition BASIC_AUTH_PASSWORD (p : Process) : jsstring :=
  default [] (env_REMOTE_WS_PASSWORD p).
Definition AUTH_WINDOW_MS : Z := 10 * 60 * 1000.
Definition AUTH_MAX_ATTEMPTS : Z := 20.
Definition AUTH_BLOCK_MS : Z := 15 * 60 * 1000.

(** ** The host: file system and the [git] subprocess *)

Record Stats := {
  isFile : bool;
  isDirectory : bool;
  size : Z;
  mtimeMs : QArith_base.Q  (* fractional milliseconds, taken exactly *)
}.

(** How [execFileAsync] settles: resolved with its standard output, or
    rejected with an error that may carry the output produced so far. *)
Inductive ExecOutcome :=
| ExecResolved (stdout : jsstring)
| ExecRejected (stdout : option jsstring).

(** The answers of the host during one request.  No relation between
    the answers is assumed. *)
Record Host := {
  fs_stat : jsstring → result Stats;
  fs_realpath : jsstring → result jsstring;
  fs_mkdir : jsstring → result unit;
  fs_existsSync : jsstring → bool;
  execFile_git : list jsstring → ExecOutcome
}.

(** ** Path resolver and visibility filter *)

Section Resolver.
Context (P : Process) (H : Host).

Definition toRepoRelativePath (absPath : jsstring) : jsstring :=
  let relative := Path.relative (cwd P) (REPO_ROOT P) absPath in
  if negb (JS.truthy relative) then []
  else JS.join [SLASH] (JS.split SLASH relative).

Definition isHiddenRepoRelativePath (repoRelativePath : jsstring) : bool :=
  if negb (JS.truthy repoRelativePath) then false
  else existsb (λ segment, JS.startsWith segment [DOT])
               (JS.split SLASH repoRelativePath).

Definition isBlockedHiddenRepoRelativePath (repoRelativePath : jsstring)
    : bool :=
  isHiddenRepoRelativePath repoRelativePath.

Definition parseGitIgnoredStdout (stdout : option jsstring)
    : gset jsstring :=
  match stdout with
  | None => ∅
  | Some [] => ∅
  | Some s =>
      list_to_set
        (List.filter JS.truthy (map JS.trim (JS.split_lines s)))
  end.

(** [Array.from(new Set(xs))]: first occurrences, in order. *)
Fixpoint uniq (seen xs : list jsstring) : list jsstring :=
  match xs with
  | [] => []
  | x :: xs' =>
      if decide (x ∈ seen) then uniq seen xs'
      else x :: uniq (x :: seen) xs'
  end.

Definition getGitIgnoredPathSet (repoRelativePaths : list jsstring)
    : gset jsstring :=
  let normalizedPaths := uniq [] (List.filter JS.truthy repoRelativePaths) in
  match normalizedPaths with
  | [] => ∅
  | _ =>
      match execFile_git H
              ([js "-C"; REPO_ROOT P; js "check-ignore"; js "--"]
               ++ normalizedPaths) with
      | ExecResolved stdout => parseGitIgnoredStdout (Some stdout)
      | ExecRejected stdout => parseGitIgnoredStdout stdout
      end
  end.

Record AccessOptions := {
  allowHidden : bool;
  allowGitIgnored : bool
}.

Definition defaultOptions : AccessOptions :=
  {| allowHidden := false; allowGitIgnored := false |}.

Definition assertPathAccessible (absPath : jsstring)
    (options : AccessOptions) : result unit :=
  let repoRelativePath := toRepoRelativePath absPath in
  if negb (allowHidden options)
     && isBlockedHiddenRepoRelativePath repoRelativePath
  then Err "Hidden paths are not accessible"
  else if negb (allowGitIgnored options) && JS.truthy repoRelativePath
  then
    let ignoredPathSet := getGitIgnoredPathSet [repoRelativePath] in
    if bool_decide (repoRelativePath ∈ ignoredPathSet)
    then Err "Gitignored paths are not accessible"
    else Ok tt
  else Ok tt.

Definition isWithinRepo (absPath : jsstring) : bool :=
  let relative := Path.relative (cwd P) (REPO_ROOT P) absPath in
  bool_decide (relative = [])
  || negb (JS.startsWith relative Path.dotdot)
     && negb (Path.isAbsolute relative).

Definition resolveRepoPath (relativePath : option jsstring)
    : result jsstring :=
  let input := JS.trim (default [] relativePath) in
  if JS.includes_unit input 0%N then Err "Path contains null byte"
  else
    let resolved := Path.resolve (cwd P) [REPO_ROOT P; input] in
    if negb (isWithinRepo resolved) then Err "Path escapes repository root"
    else Ok resolved.

Definition ensureDirectory (absPath : jsstring) (options : AccessOptions)
    : result unit :=
  stats ← fs_stat H absPath;
  if negb (isDirectory stats) then Err "Target path is not a directory"
  else
    realPath ← fs_realpath H absPath;
    if negb (isWithinRepo realPath)
    then Err "Resolved path escapes repository root"
    else assertPathAccessible realPath options.

Definition ensureFile (absPath : jsstring) (options : AccessOptions)
    : result unit :=
  stats ← fs_stat H absPath;
  if negb (isFile stats) then Err "Target path is not a file"
  else
    realPath ← fs_realpath H absPath;
    if negb (isWithinRepo realPath)
    then Err "Resolved path escapes repository root"
    else assertPathAccessible realPath options.

(** The decision the [/api/file] and [/api/text] handlers take before
    any byte is read: the path they go on to open, or the message they
    report with status 400. *)
Definition api_file_target (requestedPath : option jsstring)
    : result jsstring :=
  if negb (JS.truthy_opt requestedPath) then Err "Missing ?path=..."
  else
    absPath ← resolveRepoPath requestedPath;
    ensureFile absPath defaultOptions;;
    Ok absPath.

End Resolver.

(** ** Upload-filename validator and the named-image resolver *)

Section Upload.
Context (P : Process) (H : Host).

(** [now] is the value [Date.now()] would return; it is only read for
    the fallback name. *)
Definition sanitizeUploadFilename (originalName : jsstring) (now : Z)
    : jsstring :=
  let stripped :=
    List.filter (λ c, negb (c <=? 31)%N) (Path.basename originalName) in
  let cleaned := JS.trim stripped in
  if negb (JS.truthy cleaned)
     || bool_decide (cleaned = [DOT])
     || bool_decide (cleaned = Path.dotdot)
  then js "upload-" ++ JS.of_Z now
  else cleaned.

(** The class [[A-Za-z0-9._-]]. *)
Definition is_filename_unit (c : N) : bool :=
  ((65 <=? c) && (c <=? 90) || (97 <=? c) && (c <=? 122)
   || (48 <=? c) && (c <=? 57) || (c =? 46) || (c =? 95) || (c =? 45))%N.

Definition validateUploadFilename (fileName : jsstring) : option string :=
  if negb (JS.truthy fileName) then Some "Filename is required"%string
  else if existsb JS.is_space fileName
  then Some "Filename cannot contain spaces"%string
  else if bool_decide (fileName = [DOT])
          || bool_decide (fileName = Path.dotdot)
          || JS.startsWith fileName [DOT]
  then Some "Filename is invalid"%string
  else if negb (JS.truthy fileName && forallb is_filename_unit fileName)
  then Some
    "Filename may only contain letters, numbers, dot, underscore, and dash"%string
  else
    let extension := JS.toLowerCase (Path.extname fileName) in
    if negb (JS.truthy extension)
       || negb (JS.includes ALLOWED_IMAGE_EXTENSIONS extension)
    then Some "Filename must use an allowed image extension"%string
    else None.

Record NamedImage := { image_path : jsstring; image_name : jsstring }.

Definition resolveNamedImagePath (baseDirectoryPath requestedName : jsstring)
    (now : Z) : result NamedImage :=
  let safeName := sanitizeUploadFilename requestedName now in
  match validateUploadFilename safeName with
  | Some validationError => Err validationError
  | None =>
      let absoluteDirectoryPath := Path.resolve (cwd P) [baseDirectoryPath] in
      let absolutePath :=
        Path.resolve (cwd P) [absoluteDirectoryPath; safeName] in
      let relativeToDirectory :=
        Path.relative (cwd P) absoluteDirectoryPath absolutePath in
      if JS.startsWith relativeToDirectory Path.dotdot
         || Path.isAbsolute relativeToDirectory
      then Err "Path escapes target directory"
      else Ok {| image_path := absolutePath; image_name := safeName |}
  end.

(** A value of [req.query]: a string, an array (whose string items are
    [Some]), or a nested object. *)
Inductive QueryValue :=
| QString (s : jsstring)
| QArray (items : list (option jsstring))
| QObject.

Definition getSingleQueryValue (value : option QueryValue)
    : option jsstring :=
  match value with
  | Some (QString s) => Some s
  | Some (QArray (Some s :: _)) => Some s
  | _ => None
  end.

(** File-system calls issued while an upload is stored. *)
Inductive FsEffect :=
| Mkdir (path : jsstring)
| CreateWriteStream (path : jsstring).

Definition ensureClipboardDirectoryReady : result unit :=
  fs_mkdir H (CLIPBOARD_DIRECTORY_PATH P);;
  ensureDirectory P H (CLIPBOARD_DIRECTORY_PATH P)
    {| allowHidden := true; allowGitIgnored := true |}.

(** [storage.destination]: on success the directory is also recorded
    as [req.uploadDirectoryPath]. *)
Definition storage_destination : result jsstring :=
  ensureClipboardDirectoryReady;;
  Ok (CLIPBOARD_DIRECTORY_PATH P).

(** [storage.filename]. *)
Definition storage_filename (uploadDirectoryPath : option jsstring)
    (query_name : option QueryValue) (now : Z) : result jsstring :=
  match uploadDirectoryPath with
  | None => Err "Upload directory unavailable"
  | Some [] => Err "Upload directory unavailable"
  | Some uploadDirectoryPath =>
      let requestedName := getSingleQueryValue query_name in
      if negb (JS.truthy_opt requestedName)
      then Err "Missing required query parameter: name"
      else
        let sanitizedRequestedName :=
          sanitizeUploadFilename (default [] requestedName) now in
        match validateUploadFilename sanitizedRequestedName with
        | Some validationError => Err validationError
        | None =>
            let targetPath :=
              Path.join [uploadDirectoryPath; sanitizedRequestedName] in
            if fs_existsSync H targetPath
            then Err "Filename already exists"
            else Ok sanitizedRequestedName
        end
  end.

(** The disk storage engine driving the two callbacks: the
    destination is asked first, then the file name; a write stream on
    the joined path is opened only when both succeed. *)
Definition diskStorage_handleFile (query_name : option QueryValue)
    (now : Z) : result jsstring * list FsEffect :=
  let mk := [Mkdir (CLIPBOARD_DIRECTORY_PATH P)] in
  match storage_destination with
  | Err e => (Err e, mk)
  | Ok destination =>
      match storage_filename (Some destination) query_name now with
      | Err e => (Err e, mk)
      | Ok filename =>
          let finalPath := Path.join [destination; filename] in
          (Ok filename, mk ++ [CreateWriteStream finalPath])
      end
  end.

End Upload.

(** ** Requests and the runtime services *)

Record URL := {
  URL_protocol : jsstring;
  URL_hostname : jsstring;
  URL_port : jsstring
}.

Record Runtime := {
  (* [new URL(s)]; [None] when the constructor throws *)
  URL_parse : jsstring → option URL;
  (* [Buffer.from(s, "base64").toString("utf8")]; [None] when it throws *)
  base64_to_utf8 : jsstring → option jsstring;
  (* the bytes of [Buffer.from(s, "utf8")] *)
  utf8_bytes : jsstring → list N;
  (* [Date.parse(s)]; [None] is NaN *)
  Date_parse : jsstring → option Z;
  (* [new Date(ms).toUTCString()] *)
  toUTCString : QArith_base.Q → jsstring;
  (* the empty string is not a date *)
  Date_parse_empty : Date_parse [] = None
}.

Record Request := {
  method : jsstring;
  headers : gmap jsstring jsstring;   (* keyed by lower-cased name *)
  ip : option jsstring;               (* req.ip *)
  remoteAddress : option jsstring;    (* req.socket.remoteAddress *)
  protocol : option jsstring          (* req.protocol *)
}.

(** Express's [req.header(name)]. *)
Definition header (req : Request) (name : jsstring) : option jsstring :=
  let lc := JS.toLowerCase name in
  if decide (lc = js "referer" ∨ lc = js "referrer") then
    if JS.truthy_opt (headers req !! js "referrer")
    then headers req !! js "referrer"
    else headers req !! js "referer"
  else headers req !! lc.

(** ** Conditional cache responder *)

Section Cache.
Context (RT : Runtime).

Definition buildWeakETag (stats : Stats) : jsstring :=
  js "W/" ++ [QUOTE] ++ JS.of_Z (size stats) ++ js "-"
    ++ JS.of_Z (Qround.Qfloor (mtimeMs stats)) ++ [QUOTE].

Definition shouldRespondNotModified (req : Request) (etag : jsstring)
    (lastModifiedMillis : QArith_base.Q) : bool :=
  let ifNoneMatch := header req (js "if-none-match") in
  let byTag :=
    match ifNoneMatch with
    | Some ((_ :: _) as v) =>
        let candidates := map JS.trim (JS.split COMMA v) in
        JS.includes candidates (js "*") || JS.includes candidates etag
    | _ => false
    end in
  if byTag then true
  else
    match header req (js "if-modified-since") with
    | Some ((_ :: _) as ifModifiedSince) =>
        let since := Date_parse RT ifModifiedSince in
        let lastModifiedSeconds :=
          Qround.Qfloor
            (QArith_base.Qdiv lastModifiedMillis
               (QArith_base.inject_Z 1000)) * 1000 in
        match since with
        | Some since => bool_decide (lastModifiedSeconds ≤ since)
        | None => false
        end
    | _ => false
    end.

(** [setImageCacheHeaders]: the headers it sets, and whether it ended
    the response with status 304. *)
Definition setImageCacheHeaders (req : Request) (stats : Stats)
    : bool * list (jsstring * jsstring) :=
  let etag := buildWeakETag stats in
  let hs :=
    [(js "Cache-Control",
      js "private, max-age=60, stale-while-revalidate=300");
     (js "ETag", etag);
     (js "Last-Modified", toUTCString RT (mtimeMs stats))] in
  (shouldRespondNotModified req etag (mtimeMs stats), hs).

End Cache.

(** ** Authentication and abuse gateway *)

Record AuthFailure := {
  windowStartAt : Z;
  failures : Z;
  blockedUntil : Z
}.

(** What the middleware does with a request: hand it to the route
    handlers ([next()]) or answer it itself. *)
Inductive Outcome :=
| Next
| Send (status : Z) (responseHeaders : list (jsstring * jsstring))
       (body : jsstring).

(** The three readings of [Date.now()] one pass of the middleware may
    take: on entry, inside [recordAuthFailure], and when the
    [Retry-After] of a fresh block is computed. *)
Record Ticks := {
  t_entry : Z;
  t_failure : Z;
  t_reply : Z
}.

Section Gateway.
Context (RT : Runtime).

(** [s.slice(s.indexOf(c) + 1)] when [c] occurs in [s]. *)
Fixpoint slice_after (c : N) (s : jsstring) : option jsstring :=
  match s with
  | [] => None
  | x :: s' => if (x =? c)%N then Some s' else slice_after c s'
  end.

Definition parseBasicAuthPassword (req : Request) : option jsstring :=
  match header req (js "authorization") with
  | None => None
  | Some authHeader =>
      if negb (JS.truthy authHeader) then None
      else if negb (JS.startsWith authHeader (js "Basic ")) then None
      else
        let encoded := JS.trim (drop 6 authHeader) in
        if negb (JS.truthy encoded) then None
        else
          match base64_to_utf8 RT encoded with
          | None => None
          | Some decoded => slice_after COLON decoded
          end
  end.

Definition constantTimePasswordMatch (actualPassword expectedPassword
    : jsstring) : bool :=
  let actual := utf8_bytes RT actualPassword in
  let expected := utf8_bytes RT expectedPassword in
  if negb (length actual =? length expected)%nat then false
  else bool_decide (actual = expected).

Definition clientIPAddress (req : Request) : jsstring :=
  let fallback :=
    if JS.truthy_opt (ip req) then default [] (ip req)
    else if JS.truthy_opt (remoteAddress req)
    then default [] (remoteAddress req)
    else js "unknown" in
  match header req (js "x-forwarded-for") with
  | Some ((_ :: _) as forwardedFor) =>
      let first := JS.trim (default [] (head (JS.split COMMA forwardedFor))) in
      if JS.truthy first then first else fallback
  | _ => fallback
  end.

Definition normalizeAuthority (authorityUrl : URL) : jsstring :=
  let protocolPort :=
    if decide (URL_protocol authorityUrl = js "https:")
    then js "443" else js "80" in
  let port :=
    if JS.truthy (URL_port authorityUrl) then URL_port authorityUrl
    else protocolPort in
  JS.toLowerCase (URL_hostname authorityUrl) ++ [COLON] ++ port.

Definition normalizeRequestAuthority (req : Request) : option jsstring :=
  let hostHeader :=
    match header req (js "x-forwarded-host") with
    | Some h => Some h
    | None => header req (js "host")
    end in
  match hostHeader with
  | None | Some [] => None
  | Some hostHeader =>
      let protocolHeader :=
        match header req (js "x-forwarded-proto") with
        | Some p => p
        | None => default (js "http") (protocol req)
        end in
      let protocol :=
        if JS.startsWith (JS.toLowerCase protocolHeader) (js "https")
        then js "https" else js "http" in
      normalizeAuthority <$> URL_parse RT (protocol ++ js "://" ++ hostHeader)
  end.

Definition isSameOriginMutation (req : Request) : bool :=
  match normalizeRequestAuthority req with
  | None | Some [] => false
  | Some requestAuthority =>
      match header req (js "origin") with
      | Some ((_ :: _) as originHeader) =>
          match URL_parse RT originHeader with
          | Some u => bool_decide (normalizeAuthority u = requestAuthority)
          | None => false
          end
      | _ =>
          match header req (js "referer") with
          | Some ((_ :: _) as refererHeader) =>
              match URL_parse RT refererHeader with
              | Some u =>
                  bool_decide (normalizeAuthority u = requestAuthority)
              | None => false
              end
          | _ => false
          end
      end
  end.

(** [recordAuthFailure]: the new content of [authFailureByIP] and the
    [blockedUntil] field of the returned object, if any. *)
Definition recordAuthFailure (now : Z) (req : Request)
    (authFailureByIP : gmap jsstring AuthFailure)
    : option Z * gmap jsstring AuthFailure :=
  let ip := clientIPAddress req in
  let fresh :=
    {| windowStartAt := now; failures := 1; blockedUntil := 0 |} in
  match authFailureByIP !! ip with
  | None => (None, <[ip := fresh]> authFailureByIP)
  | Some existing =>
      if bool_decide (AUTH_WINDOW_MS ≤ now - windowStartAt existing)
      then (None, <[ip := fresh]> authFailureByIP)
      else
        let failures' := failures existing + 1 in
        if bool_decide (AUTH_MAX_ATTEMPTS ≤ failures')
        then
          (Some (now + AUTH_BLOCK_MS),
           <[ip := {| windowStartAt := now; failures := 0;
                      blockedUntil := now + AUTH_BLOCK_MS |}]>
             authFailureByIP)
        else
          (None,
           <[ip := {| windowStartAt := windowStartAt existing;
                      failures := failures';
                      blockedUntil := blockedUntil existing |}]>
             authFailureByIP)
  end.

(** [Math.ceil(ms / 1000)] on an integral number of milliseconds. *)
Definition ceil_seconds (ms : Z) : Z := - ((- ms) / 1000).

Definition tooManyFailures (retryAfterSeconds : Z) : Outcome :=
  Send 429 [(js "Retry-After", JS.of_Z retryAfterSeconds)]
       (js "Too many authentication failures").

Definition is_mutating (m : jsstring) : bool :=
  bool_decide (m = js "POST") || bool_decide (m = js "PUT")
  || bool_decide (m = js "PATCH") || bool_decide (m = js "DELETE").

Definition authenticationRequired : Outcome :=
  Send 401
    [(js "WWW-Authenticate",
      js "Basic realm=" ++ [34%N] ++ js "remote-workspace" ++ [34%N]
        ++ js ", charset=" ++ [34%N] ++ js "UTF-8" ++ [34%N])]
    (js "Authentication required").

(** The entry check: [Some until] when the client is found blocked,
    that is [existing?.blockedUntil && existing.blockedUntil > now]. *)
Definition blocked_at (now : Z) (existing : option AuthFailure)
    : option Z :=
  match existing with
  | Some e =>
      if negb (blockedUntil e =? 0) && (now <? blockedUntil e)
      then Some (blockedUntil e) else None
  | None => None
  end.

(** The credential test of the middleware. *)
Definition credentials_ok (password : jsstring) (req : Request) : bool :=
  match parseBasicAuthPassword req with
  | Some suppliedPassword =>
      constantTimePasswordMatch suppliedPassword password
  | None => false
  end.

(** The middleware installed when a password is configured. *)
Definition auth_middleware (password : jsstring) (clock : Ticks)
    (req : Request) (authFailureByIP : gmap jsstring AuthFailure)
    : Outcome * gmap jsstring AuthFailure :=
  let now := t_entry clock in
  let ip := clientIPAddress req in
  let existing := authFailureByIP !! ip in
  match blocked_at now existing with
  | Some until =>
      let retryAfterSeconds := ceil_seconds (until - now) in
      (tooManyFailures retryAfterSeconds, authFailureByIP)
  | None =>
      if credentials_ok password req then
        let authFailureByIP := delete ip authFailureByIP in
        if is_mutating (method req) && negb (isSameOriginMutation req)
        then (Send 403 [] (js "Origin validation failed"), authFailureByIP)
        else (Next, authFailureByIP)
      else
        let '(failure, authFailureByIP) :=
          recordAuthFailure (t_failure clock) req authFailureByIP in
        match failure with
        | Some blockedUntil =>
            if negb (blockedUntil =? 0) then
              (tooManyFailures (ceil_seconds (blockedUntil - t_reply clock)),
               authFailureByIP)
            else (authenticationRequired, authFailureByIP)
        | None => (authenticationRequired, authFailureByIP)
        end
  end.

(** The gateway of a process: the middleware is installed only when
    [BASIC_AUTH_PASSWORD] is non-empty. *)
Definition gateway (P : Process) (clock : Ticks) (req : Request)
    (authFailureByIP : gmap jsstring AuthFailure)
    : Outcome * gmap jsstring AuthFailure :=
  if (0 <? length (BASIC_AUTH_PASSWORD P))%nat
  then auth_middleware (BASIC_AUTH_PASSWORD P) clock req authFailureByIP
  else (Next, authFailureByIP).

(** A run of the gateway over a sequence of requests, collecting the
    outcomes. *)
Fixpoint serve (P : Process) (reqs : list (Ticks * Request))
    (authFailureByIP : gmap jsstring AuthFailure)
    : list Outcome * gmap jsstring AuthFailure :=
  match reqs with
  | [] => ([], authFailureByIP)
  | (clock, req) :: rest =>
      let '(o, st) := gateway P clock req authFailureByIP in
      let '(os, st') := serve P rest st in
      (o :: os, st')
  end.

End Gateway.

(** * Specification vocabulary *)

(** A component of a normalized path: non-empty, neither [.] nor [..],
    and free of separators. *)
Definition comp_ok (c : jsstring) : Prop :=
  c ≠ [] ∧ c ≠ [DOT] ∧ c ≠ Path.dotdot ∧ SLASH ∉ c.

(** The absolute path with the given components. *)
Definition abs_path (cs : list jsstring) : jsstring :=
  SLASH :: JS.join [SLASH] cs.

(** [p] lies within [root]: the components of [root] lead those of [p]. *)
Definition within (root p : jsstring) : Prop :=
  Path.comps root `prefix_of` Path.comps p.

(** The same for a path that need not be normalized yet: both sides are
    normalized lexically first. *)
Definition inside (P : Process) (p : jsstring) : Prop :=
  within (Path.resolve (cwd P) [REPO_ROOT P]) (Path.resolve (cwd P) [p]).

(** A C0 control character. *)
Definition is_control (c : N) : bool := (c <? 32)%N.

Definition contains_control (s : jsstring) : Prop :=
  ∃ c, c ∈ s ∧ is_control c = true.

(** The character class [[A-Za-z0-9._-]], by code unit. *)
Definition allowed_filename_char (c : N) : Prop :=
  (65 ≤ c ≤ 90 ∨ 97 ≤ c ≤ 122 ∨ 48 ≤ c ≤ 57 ∨ c = 46 ∨ c = 95 ∨ c = 45)%N.

(** The candidates the specification wants refused: one that contains
    white space, starts with a dot, contains a character outside the
    class, or whose extension (compared without regard to case) is not
    an allowed image extension. *)
Definition bad_candidate (candidate : jsstring) : Prop :=
  (∃ c, c ∈ candidate ∧ JS.is_space c = true)
  ∨ (∃ rest, candidate = DOT :: rest)
  ∨ (∃ c, c ∈ candidate ∧ ¬ allowed_filename_char c)
  ∨ JS.toLowerCase (Path.extname candidate) ∉ ALLOWED_IMAGE_EXTENSIONS.

(** Some segment of the repo-relative path starts with a dot. *)
Definition has_dot_segment (p : jsstring) : Prop :=
  ∃ seg rest, seg ∈ JS.split SLASH p ∧ seg = DOT :: rest.

(** The oracle invocation failed and left no output. *)
Definition no_output (o : ExecOutcome) : Prop :=
  o = ExecRejected None ∨ o = ExecRejected (Some []).

(** Whole seconds of a modification time, in milliseconds. *)
Definition truncated_to_seconds (modifiedAtMillis : QArith_base.Q) : Z :=
  Qround.Qfloor
    (QArith_base.Qdiv modifiedAtMillis (QArith_base.inject_Z 1000)) * 1000.

(** The effective origin of a request: the authority of its [Origin]
    header or, when that header is absent (or empty), of its [Referer];
    missing when the header used does not parse as a URL. *)
Definition effective_origin (RT : Runtime) (req : Request)
    : option jsstring :=
  match header req (js "origin") with
  | Some ((_ :: _) as origin) => normalizeAuthority <$> URL_parse RT origin
  | _ =>
      match header req (js "referer") with
      | Some ((_ :: _) as referer) =>
          normalizeAuthority <$> URL_parse RT referer
      | _ => None
      end
  end.

Definition mutating_methods : list jsstring :=
  [js "POST"; js "PUT"; js "PATCH"; js "DELETE"].

(** The client a request is attributed to, and the number of requests of
    a trace attributed to [client]. *)
Definition sent_by (client : jsstring) (cr : Ticks * Request) : Prop :=
  clientIPAddress cr.2 = client.

#[global] Instance sent_by_dec client cr : Decision (sent_by client cr) :=
  decide (clientIPAddress cr.2 = client).

Definition count_from (client : jsstring) (trace : list (Ticks * Request))
    : nat :=
  length (filter (sent_by client) trace).

(** * A concrete deployment

    A process rooted at [/repo], used to exercise the statements below
    on explicit inputs. *)

Definition demo_process : Process :=
  {| cwd := js "/repo";
     env_REPO_ROOT := None;
     env_REMOTE_WS_PASSWORD := Some (js "hunter2") |}.

(** A host on which [/repo/link] is a symbolic link to the regular file
    [/etc/passwd], [/repo/docs] is a directory linked to [/srv/docs], and
    the [git] subprocess fails without output. *)
Definition demo_host : Host :=
  {| fs_stat := λ p,
       if decide (p = js "/repo/link") then
         Ok {| isFile := true; isDirectory := false; size := 1024;
               mtimeMs := QArith_base.Qmake 1700000000123 1 |}
       else if decide (p = js "/repo/docs") then
         Ok {| isFile := false; isDirectory := true; size := 4096;
               mtimeMs := QArith_base.Qmake 1700000000123 1 |}
       else Err "ENOENT: no such file or directory";
     fs_realpath := λ p,
       if decide (p = js "/repo/link") then Ok (js "/etc/passwd")
       else if decide (p = js "/repo/docs") then Ok (js "/srv/docs")
       else Err "ENOENT: no such file or directory";
     fs_mkdir := λ _, Ok tt;
     fs_existsSync := λ _, false;
     execFile_git := λ _, ExecRejected None |}.

(** Runtime services for the demonstrations: a URL parser and a date
    parser that know the few inputs used below, and identity
    transcoders. *)
Definition demo_URL_parse (s : jsstring) : option URL :=
  if decide (s = js "https://files.example.com") then
    Some {| URL_protocol := js "https:"; URL_hostname := js "files.example.com";
            URL_port := [] |}
  else if decide (s = js "https://Files.Example.com:443/app") then
    Some {| URL_protocol := js "https:"; URL_hostname := js "files.example.com";
            URL_port := [] |}
  else if decide (s = js "https://evil.example.net") then
    Some {| URL_protocol := js "https:"; URL_hostname := js "evil.example.net";
            URL_port := [] |}
  else if decide (s = js "http://127.0.0.1:18080") then
    Some {| URL_protocol := js "http:"; URL_hostname := js "127.0.0.1";
            URL_port := js "18080" |}
  else None.

Definition demo_Date_parse (s : jsstring) : option Z :=
  if decide (s = js "Tue, 14 Nov 2023 22:13:20 GMT") then Some 1700000000000
  else if decide (s = js "Tue, 14 Nov 2023 22:13:19 GMT") then
    Some 1699999999000
  else None.

Definition demo_runtime : Runtime :=
  {| URL_parse := demo_URL_parse;
     base64_to_utf8 := λ s, Some s;
     utf8_bytes := λ s, s;
     Date_parse := demo_Date_parse;
     toUTCString := λ _, js "Tue, 14 Nov 2023 22:13:20 GMT";
     Date_parse_empty := eq_refl |}.

(** A regular file of 1024 bytes last modified at 1700000000123.5 ms. *)
Definition demo_stats : Stats :=
  {| isFile := true; isDirectory := false; size := 1024;
     mtimeMs := QArith_base.Qmake 3400000000247 2 |}.

Definition demo_request (m : jsstring) (hs : list (jsstring * jsstring))
    : Request :=
  {| method := m; headers := list_to_map hs;
     ip := Some (js "203.0.113.7"); remoteAddress := Some (js "10.0.0.1");
     protocol := Some (js "http") |}.

(** One reading of the clock for a whole pass of the middleware. *)
Definition tick (t : Z) : Ticks :=
  {| t_entry := t; t_failure := t; t_reply := t |}.

(** Requests of the client 203.0.113.7 with a wrong and with the right
    password (the demonstration transcoders are the identity, so the
    credentials travel in clear), and a request of another client. *)
Definition wrong_password_request : Request :=
  demo_request (js "GET") [(js "authorization", js "Basic user:wrong")].

Definition right_password_request : Request :=
  demo_request (js "GET") [(js "authorization", js "Basic user:hunter2")].

Definition other_client_request : Request :=
  demo_request (js "GET")
    [(js "authorization", js "Basic user:nope");
     (js "x-forwarded-for", js "198.51.100.9, 203.0.113.7")].

(** A credentialed [DELETE] served as [https://files.example.com] and
    sent from a page of [https://evil.example.net]. *)
Definition cross_site_delete : Request :=
  demo_request (js "DELETE")
    [(js "authorization", js "Basic user:hunter2");
     (js "host", js "files.example.com");
     (js "x-forwarded-proto", js "https");
     (js "origin", js "https://evil.example.net")].

(** The same request sent from the application's own page. *)
Definition same_site_delete : Request :=
  demo_request (js "DELETE")
    [(js "authorization", js "Basic user:hunter2");
     (js "host", js "files.example.com");
     (js "x-forwarded-proto", js "https");
     (js "referer", js "https://Files.Example.com:443/app")].

(** * Vocabulary of the further properties *)

(** What an invocation of the oracle left on its standard output. *)
Definition stdout_of (o : ExecOutcome) : option jsstring :=
  match o with
  | ExecResolved stdout => Some stdout
  | ExecRejected stdout => stdout
  end.

(** The oracle, asked about the single path [rel], printed a line that
    is [rel] up to surrounding white space. *)
Definition listed_by_oracle (P : Process) (H : Host) (rel : jsstring)
    : Prop :=
  ∃ stdout line,
    stdout_of (execFile_git H
                 [js "-C"; REPO_ROOT P; js "check-ignore"; js "--"; rel])
    = Some stdout
    ∧ line ∈ JS.split_lines stdout
    ∧ JS.trim line = rel.

(** A second host: [/repo/shortcut] is a symbolic link to the hidden
    file [/repo/.env], [/repo/src/index.ts] a regular file,
    [/repo/node_modules] a directory, and the oracle reports
    [node_modules], [dist] and [build/out.js] as ignored, exiting with
    an error when none of the paths it is asked about is. *)
Definition demo_ignored : list jsstring :=
  [js "node_modules"; js "dist"; js "build/out.js"].

Definition demo_check_ignore (args : list jsstring) : ExecOutcome :=
  match List.filter (λ p, bool_decide (p ∈ demo_ignored)) (drop 4 args) with
  | [] => ExecRejected (Some [])
  | hits => ExecResolved (concat (map (λ p, p ++ [10%N]) hits))
  end.

Definition demo_file_stats : Stats :=
  {| isFile := true; isDirectory := false; size := 1024;
     mtimeMs := QArith_base.Qmake 1700000000123 1 |}.

Definition demo_dir_stats : Stats :=
  {| isFile := false; isDirectory := true; size := 4096;
     mtimeMs := QArith_base.Qmake 1700000000123 1 |}.

Definition working_host : Host :=
  {| fs_stat := λ p,
       if bool_decide (p ∈ [js "/repo/shortcut"; js "/repo/src/index.ts";
                            js "/repo/.env"; js "/repo/.clipboard/shot.png"])
       then Ok demo_file_stats
       else if bool_decide (p ∈ [js "/repo"; js "/repo/node_modules";
                                 js "/repo/src"; js "/repo/.clipboard"])
       then Ok demo_dir_stats
       else Err "ENOENT: no such file or directory";
     fs_realpath := λ p,
       if decide (p = js "/repo/shortcut") then Ok (js "/repo/.env")
       else Ok p;
     fs_mkdir := λ _, Ok tt;
     fs_existsSync := λ p,
       bool_decide (p ∈ [js "/repo/.clipboard/shot.png"]);
     execFile_git := demo_check_ignore |}.

(** A clean file name: one path component, free of control characters
    and of white space at its ends. *)
Definition clean_name (n : jsstring) : Prop :=
  comp_ok n ∧ (∀ c, c ∈ n → is_control c = false) ∧ JS.trim n = n.

(** The status code of an answer of the middleware, if it answers. *)
Definition status_of (o : Outcome) : option Z :=
  match o with
  | Next => None
  | Send status _ _ => Some status
  end.

(** A record that carries no block and at most [k] counted failures. *)
Definition at_most_failures (k : Z) (record : option AuthFailure) : Prop :=
  match record with
  | None => True
  | Some e => blockedUntil e = 0 ∧ failures e ≤ k
  end.

(** The shape of the records the middleware writes: a count below the
    threshold, and a block, when there is one, that ends
    [AUTH_BLOCK_MS] after the start of the window. *)
Definition record_ok (e : AuthFailure) : Prop :=
  0 ≤ failures e < AUTH_MAX_ATTEMPTS
  ∧ (blockedUntil e = 0
     ∨ blockedUntil e = windowStartAt e + AUTH_BLOCK_MS).

(** * The file tree of [/api/tree] *)

Inductive NodeType := file_type | directory_type.

(** A [TreeNode]; [children] is [None] where the object has no such
    property. *)
#[local] Unset Elimination Schemes.
Inductive TreeNode := {
  node_name : jsstring;
  node_path : jsstring;
  node_type : NodeType;
  children : option (list TreeNode)
}.
#[local] Set Elimination Schemes.

(** The passes of the inner loop of [buildTreeFromPaths] over the
    segments that remain, [walked] being [segments.slice(0, i)] and
    [current] the node the loop stands on.  The loop updates the nodes
    in place; here the updated node is returned. *)
Fixpoint insert_segments (walked segments : list jsstring)
    (current : TreeNode) : TreeNode :=
  match segments with
  | [] => current
  | segment :: rest =>
      let isFile := bool_decide (rest = []) in
      let currentPath := JS.join [SLASH] (walked ++ [segment]) in
      let siblings := default [] (children current) in
      let descend existing :=
        if isFile then existing
        else insert_segments (walked ++ [segment]) rest existing in
      let siblings' :=
        match list_find (λ c, node_name c = segment) siblings with
        | None =>
            siblings ++
            [descend {| node_name := segment; node_path := currentPath;
                        node_type :=
                          if isFile then file_type else directory_type;
                        children := if isFile then None else Some [] |}]
        | Some (i, existing) =>
            let existing' :=
              if negb isFile && negb (bool_decide (is_Some (children existing)))
              then {| node_name := node_name existing;
                      node_path := node_path existing;
                      node_type := directory_type;
                      children := Some [] |}
              else existing in
            <[i := descend existing']> siblings
        end in
      {| node_name := node_name current; node_path := node_path current;
         node_type := node_type current; children := Some siblings' |}
  end.

Definition buildTreeFromPaths (filePaths : list jsstring) : TreeNode :=
  fold_left
    (λ root filePath, insert_segments [] (JS.split SLASH filePath) root)
    filePaths
    {| node_name := []; node_path := []; node_type := directory_type;
       children := Some [] |}.

(** The [paths] the handler of [/api/tree] builds the tree from, with
    [totalFiles] and [truncated], for the standard output of
    [git ls-files]. *)
Definition tree_paths (MAX_TREE_ENTRIES : nat) (stdout : jsstring)
    : list jsstring * nat * bool :=
  let allPaths :=
    List.filter JS.truthy (map JS.trim (JS.split_lines stdout)) in
  let visiblePaths :=
    List.filter (λ p, negb (isHiddenRepoRelativePath p)) allPaths in
  let truncated := (MAX_TREE_ENTRIES <? length visiblePaths)%nat in
  let paths :=
    if truncated then take MAX_TREE_ENTRIES visiblePaths else visiblePaths in
  (paths, length visiblePaths, truncated).

(** The [path] of every node of a tree, the root first. *)
Fixpoint paths_of (node : TreeNode) : list jsstring :=
  node_path node ::
  match children node with
  | None => []
  | Some nodes => flat_map paths_of nodes
  end.

(** A tree as [buildTreeFromPaths] leaves it below the segments
    [walked]: the [path] of a node spells the names from the root down
    to it, siblings bear different names, and the nodes of type
    directory are those that have [children]. *)
#[local] Unset Elimination Schemes.
Inductive placed : list jsstring → TreeNode → Prop :=
| placed_node walked node :
    node_path node = JS.join [SLASH] walked →
    (node_type node = directory_type ↔ is_Some (children node)) →
    NoDup (map node_name (default [] (children node))) →
    Forall (λ c, placed (walked ++ [node_name c]) c)
           (default [] (children node)) →
    placed walked node.
#[local] Set Elimination Schemes.

(** The paths [segments.slice(0, i + 1).join("/")] of the inner loop,
    for a loop that stands below the segments [walked] with [segments]
    left to go; and those of a whole file path. *)
Definition prefixes_from (walked segments : list jsstring)
    : list jsstring :=
  map (λ i, JS.join [SLASH] (walked ++ take (S i) segments))
      (seq 0 (length segments)).

Definition ancestors_of (filePath : jsstring) : list jsstring :=
  prefixes_from [] (JS.split SLASH filePath).

(** * The browser client ([static/app.js]) *)

Module Client.

Definition ALLOWED_UPLOAD_EXTENSIONS : list jsstring :=
  [js ".png"; js ".jpg"; js ".jpeg"; js ".gif"; js ".webp"; js ".svg";
   js ".bmp"; js ".heic"; js ".heif"; js ".avif"].

(** [s.lastIndexOf(c)] for a one-unit needle: [-1] when [c] does not
    occur. *)
Fixpoint lastIndexOf (c : N) (s : jsstring) : Z :=
  match s with
  | [] => -1
  | x :: s' =>
      let later := lastIndexOf c s' in
      if 0 <=? later then later + 1
      else if (x =? c)%N then 0 else -1
  end.

(** The index a relative position of [slice] stands for: a negative
    one counts from the end, and the result is clamped to the string. *)
Definition slice_index (s : jsstring) (position : Z) : nat :=
  let len := Z.of_nat (length s) in
  Z.to_nat (if position <? 0 then Z.max (len + position) 0
            else Z.min position len).

(** [s.slice(start)] and [s.slice(0, end)]. *)
Definition slice_from (s : jsstring) (start : Z) : jsstring :=
  drop (slice_index s start) s.

Definition slice_to (s : jsstring) (finish : Z) : jsstring :=
  take (slice_index s finish) s.

(** [s.replace(/[class]+/g, by)]: every maximal run of code units of
    the class is replaced by [by]; [in_run] tells that the unit before
    belonged to a run already replaced. *)
Fixpoint replace_runs_from (class : N → bool) (by_ : jsstring)
    (in_run : bool) (s : jsstring) : jsstring :=
  match s with
  | [] => []
  | c :: s' =>
      if class c
      then (if in_run then [] else by_) ++ replace_runs_from class by_ true s'
      else c :: replace_runs_from class by_ false s'
  end.

Definition replace_runs (class : N → bool) (by_ : jsstring) (s : jsstring)
    : jsstring :=
  replace_runs_from class by_ false s.

(** The class [[A-Za-z0-9_-]]. *)
Definition is_stem_unit (c : N) : bool :=
  ((65 <=? c) && (c <=? 90) || (97 <=? c) && (c <=? 122)
   || (48 <=? c) && (c <=? 57) || (c =? 95) || (c =? 45))%N.

Definition DASH : N := 45.

Fixpoint drop_dashes (s : jsstring) : jsstring :=
  match s with
  | [] => []
  | c :: s' => if (c =? DASH)%N then drop_dashes s' else s
  end.

(** [s.replace(/^-+|-+$/g, "")]: the dashes at either end go. *)
Definition strip_dashes (s : jsstring) : jsstring :=
  rev (drop_dashes (rev (drop_dashes s))).

(** [normalizeSuggestedFilename(originalName)] for a string argument.
    The extension is lower-cased with [JS.toLowerCase], which agrees
    with the browser's on whether the result is an allowed extension
    (no code unit outside Basic Latin lower-cases to a letter of one of
    them). *)
Definition normalizeSuggestedFilename (originalName : jsstring) : jsstring :=
  let trimmed := JS.trim originalName in
  let hasDot := 0 <? lastIndexOf DOT trimmed in
  let extension :=
    if hasDot
    then JS.toLowerCase (slice_from trimmed (lastIndexOf DOT trimmed))
    else [] in
  let safeExtension :=
    if JS.includes ALLOWED_UPLOAD_EXTENSIONS extension then extension
    else js ".png" in
  let rawStem :=
    if hasDot then slice_to trimmed (lastIndexOf DOT trimmed) else trimmed in
  let safeStem :=
    strip_dashes
      (replace_runs (λ c, (c =? DASH)%N) [DASH]
         (replace_runs (λ c, negb (is_stem_unit c)) [DASH]
            (replace_runs JS.is_space [DASH] rawStem))) in
  (if JS.truthy safeStem then safeStem else js "image") ++ safeExtension.

(** The client's [validateUploadFilename(fileName)]. *)
Definition validateUploadFilename (fileName : jsstring) : option string :=
  if negb (JS.truthy fileName) then Some "Filename is required."%string
  else if existsb JS.is_space fileName then Some "No spaces allowed."%string
  else if bool_decide (fileName = [DOT])
          || bool_decide (fileName = Path.dotdot)
          || JS.startsWith fileName [DOT]
  then Some "Invalid filename."%string
  else if negb (JS.truthy fileName && forallb is_filename_unit fileName)
  then Some "Use letters, numbers, dot, underscore, dash only."%string
  else
    let ext :=
      JS.toLowerCase (slice_from fileName (lastIndexOf DOT fileName)) in
    if negb (JS.includes ALLOWED_UPLOAD_EXTENSIONS ext)
    then Some "Unsupported image extension."%string
    else None.

(** [escapeHtml(value)]: five passes of [replaceAll], each of a
    one-unit pattern, in the order of the source. *)
Definition replaceAll (pattern : N) (replacement : jsstring) (s : jsstring)
    : jsstring :=
  flat_map (λ c, if (c =? pattern)%N then replacement else [c]) s.

Definition escapeHtml (value : jsstring) : jsstring :=
  replaceAll 39 (js "&#39;")
    (replaceAll 34 (js "&quot;")
       (replaceAll 62 (js "&gt;")
          (replaceAll 60 (js "&lt;")
             (replaceAll 38 (js "&amp;") value)))).

End Client.

(** The character reference [escapeHtml] is meant to write for one
    code unit. *)
Definition character_reference (c : N) : jsstring :=
  if (c =? 38)%N then js "&amp;"
  else if (c =? 60)%N then js "&lt;"
  else if (c =? 62)%N then js "&gt;"
  else if (c =? 34)%N then js "&quot;"
  else if (c =? 39)%N then js "&#39;"
  else [c].

(** * The launcher ([launcher.ts]) *)

Module Launcher.

(** A function of the launcher either returns or ends the process
    through [fail(message)], which prints the message and exits with
    status 1. *)
Inductive Exit (A : Type) :=
| Returned (value : A)
| Failed (message : jsstring).
Arguments Returned {A} value.
Arguments Failed {A} message.

Definition BACKSLASH : N := 92.

(** [/^\d+$/.test(s)]. *)
Definition all_digits (s : jsstring) : bool :=
  JS.truthy s && forallb (λ c, (48 <=? c) && (c <=? 57))%N s.

(** [Number.parseInt(s, 10)] on a string of decimal digits: its exact
    value.  (The double nearest to a value above 65535 is itself above
    65535, so the range test that follows reads the same on both.) *)
Definition parseInt_digits (s : jsstring) : Z :=
  fold_left (λ value c, 10 * value + (Z.of_N c - 48)) s 0.

Definition parsePort (rawPort : jsstring) : Exit Z :=
  if negb (all_digits rawPort)
  then Failed (js "Invalid --port value: " ++ rawPort
               ++ js " (must be numeric).")
  else
    let value := parseInt_digits rawPort in
    if (value <? 1) || (65535 <? value)
    then Failed (js "Invalid --port value: " ++ rawPort
                 ++ js " (must be 1-65535).")
    else Returned value.

(** The test of the loop of [parseAlwaysHiddenCsv]. *)
Definition has_separator (segment : jsstring) : bool :=
  JS.includes_unit segment SLASH || JS.includes_unit segment BACKSLASH
  || JS.includes_unit segment 0%N.

Definition parseAlwaysHiddenCsv (rawValue sourceLabel : jsstring)
    : Exit jsstring :=
  let segments :=
    List.filter JS.truthy (map JS.trim (JS.split COMMA rawValue)) in
  if bool_decide (segments = [])
  then Failed (js "Invalid " ++ sourceLabel
               ++ js " value: provide at least one segment.")
  else
    match List.find has_separator segments with
    | Some segment =>
        Failed (js "Invalid " ++ sourceLabel ++ js " segment " ++ [QUOTE]
                ++ segment ++ [QUOTE]
                ++ js ": segments must not contain path separators or null bytes.")
    | None => Returned (JS.join [COMMA] (uniq [] segments))
    end.

(** [s.replace(/^\.\//, "")]. *)
Definition drop_dot_slash (s : jsstring) : jsstring :=
  if JS.startsWith s [DOT; SLASH] then drop 2 s else s.

Definition normalizeRepoRelativePath (rawValue sourceLabel : jsstring)
    : Exit jsstring :=
  let trimmed := JS.trim rawValue in
  let complaint (reason : jsstring) : Exit jsstring :=
    Failed (js "Invalid " ++ sourceLabel ++ js " path " ++ [QUOTE]
            ++ rawValue ++ [QUOTE] ++ reason) in
  if negb (JS.truthy trimmed) then Returned []
  else if JS.includes_unit trimmed 0%N
  then complaint (js ": path must not contain null bytes.")
  else
    let normalized :=
      drop_dot_slash
        (Path.normalize
           (map (λ c, if (c =? BACKSLASH)%N then SLASH else c) trimmed)) in
    if negb (JS.truthy normalized) || bool_decide (normalized = [DOT])
    then Returned []
    else if bool_decide (normalized = Path.dotdot)
            || JS.startsWith normalized (Path.dotdot ++ [SLASH])
    then complaint (js ": path must stay inside repository.")
    else if Path.isAbsolute normalized
    then complaint (js ": path must be repo-relative.")
    else if JS.includes (JS.split SLASH normalized) (js ".git")
    then complaint (js ": .git cannot be exposed.")
    else Returned normalized.

(** The loop of [parseImageDirsCsv]: the normalized paths in the order
    the set receives them, or the failure of the first bad one. *)
Fixpoint normalize_each (rawPaths : list jsstring) (sourceLabel : jsstring)
    : Exit (list jsstring) :=
  match rawPaths with
  | [] => Returned []
  | rawPath :: rest =>
      match normalizeRepoRelativePath rawPath sourceLabel with
      | Failed message => Failed message
      | Returned normalizedPath =>
          match normalize_each rest sourceLabel with
          | Failed message => Failed message
          | Returned others =>
              Returned (if JS.truthy normalizedPath
                        then normalizedPath :: others else others)
          end
      end
  end.

Definition parseImageDirsCsv (rawValue sourceLabel : jsstring)
    : Exit jsstring :=
  match normalize_each (JS.split COMMA rawValue) sourceLabel with
  | Failed message => Failed message
  | Returned normalizedPaths =>
      if bool_decide (uniq [] normalizedPaths = [])
      then Failed (js "Invalid " ++ sourceLabel
                   ++ js " value: provide at least one repo-relative path.")
      else Returned (JS.join [COMMA] (uniq [] normalizedPaths))
  end.

End Launcher.

(** * The directory listing of [/api/list] *)

Module Dirent.
Record t := {
  name : jsstring;
  isSymbolicLink : bool;
  isDirectory : bool;
  isFile : bool
}.
End Dirent.

Record Candidate := {
  childPath : jsstring;
  childRepoRelativePath : jsstring;
  candidate_isDirectory : bool;
  candidate_name : jsstring
}.

(** An entry of the answer; [entry_modifiedAt] is the instant whose
    ISO rendering the answer carries. *)
Record Entry := {
  entry_name : jsstring;
  entry_path : jsstring;
  entry_type : NodeType;
  entry_size : Z;
  entry_modifiedAt : QArith_base.Q
}.

(** The answer of [/api/list], with [entries] in the order the second
    loop leaves them (the handler sorts them before it answers) and
    without [parentPath]. *)
Record Listing := {
  currentPath : jsstring;
  entries : list Entry;
  skippedSymlinks : nat;
  skippedHidden : nat;
  skippedIgnored : nat
}.

Section Listing.
Context (P : Process) (H : Host).
Context (fs_readdir : jsstring → result (list Dirent.t)).

(** One pass of the first loop over the directory entries. *)
Definition scan_entry (directoryPath : jsstring)
    (state : list Candidate * nat * nat) (dirEntry : Dirent.t)
    : list Candidate * nat * nat :=
  let '(candidates, symlinks, hidden) := state in
  if Dirent.isSymbolicLink dirEntry then (candidates, S symlinks, hidden)
  else
    let childPath := Path.join [directoryPath; Dirent.name dirEntry] in
    let childRepoRelativePath := toRepoRelativePath P childPath in
    if isBlockedHiddenRepoRelativePath childRepoRelativePath
    then (candidates, symlinks, S hidden)
    else if negb (Dirent.isDirectory dirEntry) && negb (Dirent.isFile dirEntry)
    then (candidates, symlinks, hidden)
    else
      (candidates ++
       [{| childPath := childPath;
           childRepoRelativePath := childRepoRelativePath;
           candidate_isDirectory := Dirent.isDirectory dirEntry;
           candidate_name := Dirent.name dirEntry |}],
       symlinks, hidden).

(** One pass of the second loop over the candidates. *)
Definition list_candidate (ignoredPathSet : gset jsstring)
    (state : list Entry * nat) (candidate : Candidate) : list Entry * nat :=
  let '(entries, ignored) := state in
  if bool_decide (childRepoRelativePath candidate ∈ ignoredPathSet)
  then (entries, S ignored)
  else
    match fs_stat H (childPath candidate) with
    | Err _ => (entries, ignored)
    | Ok childStats =>
        (entries ++
         [{| entry_name := candidate_name candidate;
             entry_path := childRepoRelativePath candidate;
             entry_type := if candidate_isDirectory candidate
                           then directory_type else file_type;
             entry_size := size childStats;
             entry_modifiedAt := mtimeMs childStats |}],
         ignored)
    end.

Definition api_list (query_path : option QueryValue) : result Listing :=
  let requestedPath := getSingleQueryValue query_path in
  directoryPath ← resolveRepoPath P requestedPath;
  ensureDirectory P H directoryPath defaultOptions;;
  dirEntries ← fs_readdir directoryPath;
  let '(candidates, symlinks, hidden) :=
    fold_left (scan_entry directoryPath) dirEntries ([], 0%nat, 0%nat) in
  let ignoredPathSet :=
    getGitIgnoredPathSet P H (map childRepoRelativePath candidates) in
  let '(entries, ignored) :=
    fold_left (list_candidate ignoredPathSet) candidates ([], 0%nat) in
  Ok {| currentPath := toRepoRelativePath P directoryPath;
        entries := entries;
        skippedSymlinks := symlinks;
        skippedHidden := hidden;
        skippedIgnored := ignored |}.

End Listing.

(** The directories of the second host as [fs.readdir] reports them.
    [README.md] is reported but cannot be read any more when the
    handler comes to it. *)
Definition demo_readdir (p : jsstring) : result (list Dirent.t) :=
  let entry name link dir file :=
    {| Dirent.name := name; Dirent.isSymbolicLink := link;
       Dirent.isDirectory := dir; Dirent.isFile := file |} in
  if decide (p = js "/repo") then
    Ok [entry (js ".env") false false true;
        entry (js ".clipboard") false true false;
        entry (js "shortcut") true false false;
        entry (js "node_modules") false true false;
        entry (js "src") false true false;
        entry (js "README.md") false false true]
  else if decide (p = js "/repo/src") then
    Ok [entry (js "index.ts") false false true]
  else Err "ENOENT: no such file or directory".

(** What [/api/list] promises of an entry of a listing. *)
Definition entry_visible (L : Listing) (e : Entry) : Prop :=
  comp_ok (entry_name e)
  ∧ JS.startsWith (entry_name e) [DOT] = false
  ∧ isHiddenRepoRelativePath (entry_path e) = false
  ∧ entry_path e
    = (if JS.truthy (currentPath L)
       then currentPath L ++ SLASH :: entry_name e
       else entry_name e).

(** A candidate and an entry of the listing of the directory of the
    repository whose segments below the root are [D]. *)
Definition candidate_placed (D : list jsstring) (c : Candidate) : Prop :=
  comp_ok (candidate_name c)
  ∧ childRepoRelativePath c = JS.join [SLASH] (D ++ [candidate_name c])
  ∧ isHiddenRepoRelativePath (childRepoRelativePath c) = false.

Definition entry_placed (D : list jsstring) (e : Entry) : Prop :=
  comp_ok (entry_name e)
  ∧ entry_path e = JS.join [SLASH] (D ++ [entry_name e])
  ∧ isHiddenRepoRelativePath (entry_path e) = false.

(** * Properties *)

(** Closes a decidable closed goal by evaluating its decision
    procedure. *)
Ltac by_evaluation := apply (bool_decide_unpack _); vm_compute; exact I.

(** Splits on the conditionals and matches of the goal, one after the
    other. *)
Ltac case_conditions :=
  repeat match goal with
         | |- context [if ?b then _ else _] => destruct b
         end.

(** ** Strings: splitting, joining, trimming *)

Section StringFacts.

Lemma N_eqb_decide (a b : N) : (a =? b)%N = bool_decide (a = b).
Proof.
  destruct (N.eqb_spec a b); symmetry;
    [by apply bool_decide_eq_true | by apply bool_decide_eq_false].
Qed.

Lemma split_not_nil sep s : JS.split sep s ≠ [].
Proof.
  destruct s as [|c s]; simpl; [done|].
  destruct (c =? sep)%N; [done|]. by destruct (JS.split sep s).
Qed.

Lemma join_cons sep x xs :
  xs ≠ [] → JS.join sep (x :: xs) = x ++ sep ++ JS.join sep xs.
Proof. by destruct xs. Qed.

Lemma join_split sep s : JS.join [sep] (JS.split sep s) = s.
Proof.
  induction s as [|c s IH]; simpl; [done|].
  destruct (N.eqb_spec c sep) as [->|Hne].
  - rewrite join_cons by apply split_not_nil. simpl. by rewrite IH.
  - pose proof (split_not_nil sep s) as Hnil.
    destruct (JS.split sep s) as [|seg segs]; [done|].
    destruct segs as [|seg' segs]; simpl in *; by rewrite <- IH.
Qed.

Lemma split_app sep a b :
  JS.split sep (a ++ sep :: b) = JS.split sep a ++ JS.split sep b.
Proof.
  induction a as [|c a IH]; simpl.
  - by rewrite N.eqb_refl.
  - destruct (c =? sep)%N; rewrite IH; [done|].
    pose proof (split_not_nil sep a) as Hnil.
    by destruct (JS.split sep a).
Qed.

Lemma split_free sep s : sep ∉ s → JS.split sep s = [s].
Proof.
  induction s as [|c s IH]; simpl; [done|].
  intros Hnot. apply not_elem_of_cons in Hnot as [Hne Hnot].
  destruct (N.eqb_spec c sep) as [->|_]; [done|]. by rewrite IH.
Qed.

Lemma split_join sep cs :
  cs ≠ [] → Forall (λ c, sep ∉ c) cs →
  JS.split sep (JS.join [sep] cs) = cs.
Proof.
  induction cs as [|c cs IH]; [done|].
  intros _ Hfree. apply Forall_cons in Hfree as [Hc Hcs].
  destruct cs as [|c' cs].
  - simpl. by apply split_free.
  - rewrite join_cons by done.
    change ([sep] ++ JS.join [sep] (c' :: cs))
      with (sep :: JS.join [sep] (c' :: cs)).
    rewrite split_app, IH by done. by rewrite split_free.
Qed.

Lemma split_segments_free sep s : Forall (λ c, sep ∉ c) (JS.split sep s).
Proof.
  induction s as [|c s IH]; simpl.
  - repeat constructor. apply not_elem_of_nil.
  - destruct (N.eqb_spec c sep) as [->|Hne].
    + constructor; [apply not_elem_of_nil | done].
    + destruct (JS.split sep s) as [|seg segs]; simpl.
      * repeat constructor. apply not_elem_of_cons. split; [congruence|].
        apply not_elem_of_nil.
      * apply Forall_cons in IH as [Hseg Hsegs].
        constructor; [|done]. apply not_elem_of_cons. split; congruence.
Qed.

Lemma startsWith_prefix s p : JS.startsWith s p = true ↔ p `prefix_of` s.
Proof.
  revert s. induction p as [|a p IH]; intros s; simpl.
  - split; [intros _; apply prefix_nil | done].
  - destruct s as [|b s].
    + split; [done | intros Hp; by apply prefix_nil_not in Hp].
    + rewrite andb_true_iff, N.eqb_eq, IH. split.
      * intros [-> Hp]. by apply prefix_cons.
      * intros Hp. split;
          [by apply prefix_cons_inv_1 in Hp | by apply prefix_cons_inv_2 in Hp].
Qed.

Lemma trimStart_keeps c s :
  JS.is_space c = false → c ∈ s → c ∈ JS.trimStart s.
Proof.
  intros Hc. induction s as [|x s IH]; simpl; [done|].
  intros Hin. destruct (JS.is_space x) eqn:Hx; [|done].
  apply elem_of_cons in Hin as [->|Hin]; [congruence | auto].
Qed.

Lemma trim_keeps c s : JS.is_space c = false → c ∈ s → c ∈ JS.trim s.
Proof.
  intros Hc Hin. unfold JS.trim, JS.trimEnd.
  rewrite list_elem_of_In, <- in_rev, <- list_elem_of_In.
  apply trimStart_keeps; [done|].
  rewrite list_elem_of_In, <- in_rev, <- list_elem_of_In.
  by apply trimStart_keeps.
Qed.

Lemma includes_unit_elem s c : JS.includes_unit s c = true ↔ c ∈ s.
Proof.
  unfold JS.includes_unit. rewrite existsb_exists. split.
  - intros (x & Hin & Heq). apply N.eqb_eq in Heq as ->.
    by apply list_elem_of_In.
  - intros Hin. exists c. split; [by apply list_elem_of_In | apply N.eqb_refl].
Qed.

End StringFacts.


(** ** Paths: normal forms, resolution, relative paths *)

Section PathFacts.

Lemma normalize_step_ok stack c :
  Forall comp_ok stack → SLASH ∉ c →
  Forall comp_ok (Path.normalize_step false stack c).
Proof.
  intros Hstack Hc. unfold Path.normalize_step.
  destruct (decide (c = [] ∨ c = [DOT])) as [|Hne]; [done|].
  destruct (decide (c = Path.dotdot)) as [->|Hdd].
  - destruct stack as [|top below]; [done|].
    destruct (decide (top = Path.dotdot)); [done|].
    by apply Forall_cons in Hstack as [_ ?].
  - constructor; [|done]. repeat split; try done; intros ->; naive_solver.
Qed.

Lemma fold_normalize_ok cs stack :
  Forall comp_ok stack → Forall (λ c, SLASH ∉ c) cs →
  Forall comp_ok (fold_left (Path.normalize_step false) cs stack).
Proof.
  revert stack. induction cs as [|c cs IH]; intros stack Hstack Hcs; [done|].
  apply Forall_cons in Hcs as [Hc Hcs]. simpl.
  apply IH; [|done]. by apply normalize_step_ok.
Qed.

Lemma normalize_comps_ok p :
  Forall comp_ok (Path.normalize_comps false (JS.split SLASH p)).
Proof.
  unfold Path.normalize_comps. apply Forall_forall. intros c Hin.
  rewrite list_elem_of_In, <- in_rev, <- list_elem_of_In in Hin.
  revert c Hin. apply Forall_forall, fold_normalize_ok; [done|].
  apply split_segments_free.
Qed.

Lemma normalize_step_keep b stack c :
  comp_ok c → Path.normalize_step b stack c = c :: stack.
Proof.
  intros (Hnil & Hdot & Hdd & _). unfold Path.normalize_step.
  destruct (decide (c = [] ∨ c = [DOT])) as [[?|?]|_]; [done..|].
  by destruct (decide (c = Path.dotdot)).
Qed.

Lemma fold_normalize_keep b l stack :
  Forall (λ c, c = [] ∨ comp_ok c) l →
  fold_left (Path.normalize_step b) l stack
  = rev (filter (λ c, c ≠ []) l) ++ stack.
Proof.
  revert stack. induction l as [|c l IH]; intros stack Hl; [done|].
  apply Forall_cons in Hl as [Hc Hl]. simpl. rewrite IH by done.
  destruct Hc as [->|Hc].
  - rewrite filter_cons_False by naive_solver.
    unfold Path.normalize_step. by rewrite decide_True by auto.
  - rewrite filter_cons_True by apply Hc.
    rewrite normalize_step_keep by done. simpl.
    by rewrite <- app_assoc.
Qed.

Lemma filter_comp_ok cs :
  Forall comp_ok cs → filter (λ c : jsstring, c ≠ []) cs = cs.
Proof.
  induction 1 as [|c cs Hc _ IH]; [done|].
  rewrite filter_cons_True by apply Hc. by rewrite IH.
Qed.

(** The segments of the text of a normal path. *)
Lemma split_join_ok cs :
  Forall comp_ok cs →
  Forall (λ c, c = [] ∨ comp_ok c) (JS.split SLASH (JS.join [SLASH] cs))
  ∧ filter (λ c : jsstring, c ≠ []) (JS.split SLASH (JS.join [SLASH] cs)) = cs.
Proof.
  intros Hcs. destruct cs as [|c cs].
  - simpl. split; [repeat constructor; by left | done].
  - rewrite split_join; [|done|].
    + split; [|by apply filter_comp_ok].
      eapply Forall_impl; [exact Hcs|]. by right.
    + eapply Forall_impl; [exact Hcs|]. by intros ? (_ & _ & _ & ?).
Qed.

Lemma comps_abs_path cs : Forall comp_ok cs → Path.comps (abs_path cs) = cs.
Proof.
  intros Hcs. unfold Path.comps, abs_path. cbn [JS.split].
  rewrite N.eqb_refl, filter_cons_False by naive_solver.
  by apply split_join_ok.
Qed.

Lemma resolve_join_abs args :
  Exists (λ p, Path.isAbsolute p = true) args →
  (Path.resolve_join args).2 = true.
Proof.
  induction args as [|p args IH]; intros Hex; [by apply Exists_nil in Hex|].
  simpl. destruct (Path.resolve_join args) as [tail [|]] eqn:Hrest; [done|].
  apply Exists_cons in Hex as [Hp|Hex]; [|by specialize (IH Hex)].
  by destruct p.
Qed.

Lemma resolve_abs_form cwd args :
  (Path.resolve_join (cwd :: args)).2 = true →
  ∃ cs, Forall comp_ok cs ∧ Path.resolve cwd args = abs_path cs.
Proof.
  intros Habs. unfold Path.resolve.
  destruct (Path.resolve_join (cwd :: args)) as [joined abs].
  simpl in Habs. subst abs.
  exists (Path.normalize_comps false (JS.split SLASH joined)).
  split; [apply normalize_comps_ok | done].
Qed.

Lemma abs_path_absolute cs : Path.isAbsolute (abs_path cs) = true.
Proof. done. Qed.

(** Normalizing the text of a normal path followed by further clean
    segments. *)
Lemma normalize_abs_path_app cs extra :
  Forall comp_ok cs → Forall (λ c, c = [] ∨ comp_ok c) extra →
  Path.normalizeString (abs_path cs ++ SLASH :: JS.join [SLASH] extra) false
  = JS.join [SLASH] (cs ++ filter (λ c : jsstring, c ≠ []) extra)
  ∨ extra = [].
Proof.
  intros Hcs Hextra. destruct extra as [|e extra]; [by right|left].
  destruct (split_join_ok cs Hcs) as [Hall Hfilter].
  unfold Path.normalizeString, Path.normalize_comps, abs_path.
  rewrite <- app_comm_cons. cbn [JS.split]. rewrite N.eqb_refl, split_app.
  assert (He : Forall (λ c, SLASH ∉ c) (e :: extra)).
  { eapply Forall_impl; [exact Hextra|].
    intros c [->|(_ & _ & _ & ?)]; [apply not_elem_of_nil | done]. }
  rewrite (split_join SLASH (e :: extra)) by done.
  rewrite fold_normalize_keep.
  - rewrite app_nil_r, rev_involutive, filter_cons_False by naive_solver.
    by rewrite filter_app, Hfilter.
  - constructor; [by left|]. by apply Forall_app.
Qed.

Lemma resolve_abs_path cwd cs :
  Forall comp_ok cs → Path.resolve cwd [abs_path cs] = abs_path cs.
Proof.
  intros Hcs. unfold Path.resolve.
  assert (Hjoin : Path.resolve_join [cwd; abs_path cs]
                  = (abs_path cs ++ SLASH :: JS.join [SLASH] [[]], true))
    by done.
  rewrite Hjoin. cbn [negb].
  assert (Hclean : Forall (λ c : jsstring, c = [] ∨ comp_ok c) [[]])
    by (repeat constructor; by left).
  destruct (normalize_abs_path_app cs [[]] Hcs Hclean) as [Hn|?]; [|done].
  rewrite Hn, filter_cons_False by naive_solver.
  by rewrite filter_nil, app_nil_r.
Qed.

Lemma comp_ok_relative name :
  comp_ok name → name ≠ [] ∧ Path.isAbsolute name = false.
Proof.
  intros (Hnil & _ & _ & Hslash). split; [done|].
  destruct name as [|c name]; [done|]. simpl.
  apply N.eqb_neq. intros ->. apply Hslash. by left.
Qed.

Lemma resolve_child cwd cs name :
  Forall comp_ok cs → comp_ok name →
  Path.resolve cwd [abs_path cs; name] = abs_path (cs ++ [name]).
Proof.
  intros Hcs Hname. unfold Path.resolve.
  destruct (comp_ok_relative name Hname) as [Hnil Hrel].
  assert (Hjoin : Path.resolve_join [cwd; abs_path cs; name]
                  = (abs_path cs ++ SLASH :: JS.join [SLASH] [name; []], true)).
  { cbn [Path.resolve_join]. destruct name as [|c name]; [done|].
    rewrite Hrel. by rewrite abs_path_absolute. }
  rewrite Hjoin. cbn [negb].
  assert (Hclean : Forall (λ c : jsstring, c = [] ∨ comp_ok c) [name; []])
    by (constructor; [by right | constructor; [by left | constructor]]).
  destruct (normalize_abs_path_app cs [name; []] Hcs Hclean) as [Hn|?];
    [|done].
  rewrite Hn, filter_cons_True by done.
  rewrite filter_cons_False by naive_solver. by rewrite filter_nil.
Qed.

Lemma strip_common_spec F T up down :
  Path.strip_common F T = (up, down) →
  ∃ common, F = common ++ up ∧ T = common ++ down.
Proof.
  revert T. induction F as [|f F IH]; intros T Heq.
  - exists []. simpl in Heq. by simplify_eq.
  - destruct T as [|t T].
    + exists []. simpl in Heq. by simplify_eq.
    + simpl in Heq. destruct (decide (f = t)) as [->|].
      * destruct (IH _ Heq) as (common & -> & ->). by exists (t :: common).
      * exists []. by simplify_eq.
Qed.

Lemma strip_common_extend D rest :
  Path.strip_common D (D ++ rest) = ([], rest).
Proof.
  induction D as [|d D IH]; simpl; [by destruct rest|].
  by rewrite decide_True.
Qed.

Lemma join_dotdot_head l :
  JS.startsWith (JS.join [SLASH] (Path.dotdot :: l)) Path.dotdot = true
  ∧ JS.join [SLASH] (Path.dotdot :: l) ≠ [].
Proof. by destruct l. Qed.

(** The test [isWithinRepo] applies to the text of a relative path is
    passed only by destinations under the origin. *)
Lemma relative_within cwd from to :
  Path.relative cwd from to = []
  ∨ JS.startsWith (Path.relative cwd from to) Path.dotdot = false →
  within (Path.resolve cwd [from]) (Path.resolve cwd [to]).
Proof.
  unfold Path.relative, within.
  destruct (decide (from = to)) as [->|_]; [done|].
  destruct (decide (Path.resolve cwd [from] = Path.resolve cwd [to]))
    as [->|_]; [done|].
  destruct (Path.strip_common _ _) as [up down] eqn:Hstrip.
  apply strip_common_spec in Hstrip as (common & -> & ->).
  destruct up as [|u up].
  - intros _. rewrite app_nil_r. by apply prefix_app_r.
  - simpl map. intros Hrel.
    destruct (join_dotdot_head (map (λ _, Path.dotdot) up ++ down))
      as [Hstart Hne].
    destruct Hrel as [Hrel|Hrel]; simpl app in Hrel; congruence.
Qed.

End PathFacts.

(** The model on the examples of the Node documentation. *)
Example path_documented_examples :
  let cwd := js "/home/myself/node" in
  Path.resolve cwd [js "/foo/bar"; js "./baz"] = js "/foo/bar/baz"
  ∧ Path.resolve cwd [js "/foo/bar"; js "/tmp/file/"] = js "/tmp/file"
  ∧ Path.resolve cwd [js "wwwroot"; js "static_files/png/"; js "../gif/image.gif"]
    = js "/home/myself/node/wwwroot/static_files/gif/image.gif"
  ∧ Path.relative cwd (js "/data/orandea/test/aaa") (js "/data/orandea/impl/bbb")
    = js "../../impl/bbb"
  ∧ Path.join [js "/foo"; js "bar"; js "baz/asdf"; js "quux"; js ".."]
    = js "/foo/bar/baz/asdf"
  ∧ Path.normalize (js "/foo/bar//baz/asdf/quux/..") = js "/foo/bar/baz/asdf"
  ∧ Path.basename (js "/foo/bar/baz/asdf/quux.html") = js "quux.html"
  ∧ map Path.extname
      [js "index.html"; js "index.coffee.md"; js "index."; js "index";
       js ".index"; js ".index.md"]
    = [js ".html"; js ".md"; js "."; js ""; js ""; js ".md"]
  ∧ map Path.isAbsolute [js "/foo/bar"; js "/baz/.."; js "qux/"; js "."]
    = [true; true; false; false].
Proof. repeat split; vm_compute; reflexivity. Qed.


(** ** Path resolver *)

Section ResolverFacts.
Context (P : Process).

Lemma REPO_ROOT_form :
  Path.isAbsolute (cwd P) = true →
  ∃ R, Forall comp_ok R ∧ REPO_ROOT P = abs_path R.
Proof.
  intros Hcwd. apply resolve_abs_form, resolve_join_abs. by left.
Qed.

Lemma resolve_under_root_form input :
  Path.isAbsolute (cwd P) = true →
  ∃ T, Forall comp_ok T
       ∧ Path.resolve (cwd P) [REPO_ROOT P; input] = abs_path T.
Proof.
  intros Hcwd. apply resolve_abs_form, resolve_join_abs. by left.
Qed.

(** Whatever [isWithinRepo] accepts lies, once normalized, under the
    root. *)
Lemma isWithinRepo_inside p : isWithinRepo P p = true → inside P p.
Proof.
  unfold isWithinRepo, inside. intros Hin. apply relative_within.
  apply orb_true_iff in Hin as [Hempty|Hrel].
  - left. by apply bool_decide_eq_true in Hempty.
  - right. apply andb_true_iff in Hrel as [Hrel _].
    by apply negb_true_iff in Hrel.
Qed.

(** For the paths [path.resolve] produces, normalizing again changes
    nothing: [inside] is plain containment. *)
Lemma inside_resolved input :
  Path.isAbsolute (cwd P) = true →
  inside P (Path.resolve (cwd P) [REPO_ROOT P; input])
  ↔ within (REPO_ROOT P) (Path.resolve (cwd P) [REPO_ROOT P; input]).
Proof.
  intros Hcwd. unfold inside.
  destruct (REPO_ROOT_form Hcwd) as (R & HR & HeqR).
  destruct (resolve_under_root_form input Hcwd) as (T & HT & HeqT).
  rewrite HeqT, HeqR. by rewrite !resolve_abs_path.
Qed.

Lemma trimStart_subset c s : c ∈ JS.trimStart s → c ∈ s.
Proof.
  induction s as [|x s IH]; simpl; [done|].
  destruct (JS.is_space x); [|done]. intros Hin. right. auto.
Qed.

Lemma trim_subset c s : c ∈ JS.trim s → c ∈ s.
Proof.
  unfold JS.trim, JS.trimEnd. intros Hin.
  apply trimStart_subset.
  rewrite list_elem_of_In, <- in_rev, <- list_elem_of_In in Hin.
  apply trimStart_subset in Hin.
  by rewrite list_elem_of_In, <- in_rev, <- list_elem_of_In in Hin.
Qed.

Lemma resolveRepoPath_some raw :
  resolveRepoPath P (Some raw)
  = if JS.includes_unit (JS.trim raw) 0 then Err "Path contains null byte"
    else if negb (isWithinRepo P
                    (Path.resolve (cwd P) [REPO_ROOT P; JS.trim raw]))
    then Err "Path escapes repository root"
    else Ok (Path.resolve (cwd P) [REPO_ROOT P; JS.trim raw]).
Proof. reflexivity. Qed.

End ResolverFacts.

(** C1 (as amended).  For every raw path string that contains no NUL
    character and whose lexical normalization against the root -- the
    root resolved with the trimmed string, as [resolveRepoPath] computes
    it -- falls outside the root (a bare [..], [../x], an absolute path
    elsewhere), [resolveRepoPath] fails with "Path escapes repository
    root"; and for every raw string whatsoever a path it returns lies
    within the root. *)
Theorem resolveRepoPath_escape_rejected (P : Process) (raw : jsstring) :
  Path.isAbsolute (cwd P) = true →
  (0%N ∉ raw →
   ¬ within (REPO_ROOT P) (Path.resolve (cwd P) [REPO_ROOT P; JS.trim raw]) →
   resolveRepoPath P (Some raw) = Err "Path escapes repository root")
  ∧ (∀ p, resolveRepoPath P (Some raw) = Ok p → within (REPO_ROOT P) p).
Proof.
  intros Hcwd. rewrite resolveRepoPath_some. split.
  - intros Hnul Hout.
    destruct (JS.includes_unit (JS.trim raw) 0) eqn:Hinc.
    { apply includes_unit_elem, trim_subset in Hinc. done. }
    destruct (isWithinRepo P _) eqn:Hin; [|reflexivity].
    apply isWithinRepo_inside in Hin.
    by apply (proj1 (inside_resolved P _ Hcwd)) in Hin.
  - intros p. destruct (JS.includes_unit (JS.trim raw) 0); [done|].
    destruct (isWithinRepo P _) eqn:Hin; [|done].
    simpl. intros [= <-].
    apply isWithinRepo_inside in Hin.
    by apply (proj1 (inside_resolved P _ Hcwd)) in Hin.
Qed.

Lemma resolveRepoPath_escape_rejected_witness :
  resolveRepoPath demo_process (Some (js "../x"))
  = Err "Path escapes repository root".
Proof.
  destruct (resolveRepoPath_escape_rejected demo_process (js "../x"))
    as [Hreject _]; [reflexivity|].
  apply Hreject.
  - by_evaluation.
  - unfold within. by_evaluation.
Defined.

(** C1, as stated, fails: the raw path [../x] followed by a NUL
    normalizes outside the root, yet the error raised is the null-byte
    one, which is checked first. *)
Lemma resolveRepoPath_null_precedes_escape :
  let raw := js "../x" ++ [0%N] in
  ¬ within (REPO_ROOT demo_process)
      (Path.resolve (cwd demo_process) [REPO_ROOT demo_process; JS.trim raw])
  ∧ resolveRepoPath demo_process (Some raw) = Err "Path contains null byte"
  ∧ resolveRepoPath demo_process (Some raw)
    ≠ Err "Path escapes repository root".
Proof.
  cbv zeta. split; [|split].
  - unfold within. by_evaluation.
  - vm_compute. reflexivity.
  - vm_compute. discriminate.
Qed.

(** The scenarios the specification names, on the root [/repo]. *)
Example resolveRepoPath_scenarios :
  resolveRepoPath demo_process (Some (js ".."))
  = Err "Path escapes repository root"
  ∧ resolveRepoPath demo_process (Some (js "/etc/passwd"))
    = Err "Path escapes repository root"
  ∧ resolveRepoPath demo_process (Some (js " src/../README.md "))
    = Ok (js "/repo/README.md")
  ∧ resolveRepoPath demo_process None = Ok (js "/repo").
Proof. repeat split; vm_compute; reflexivity. Qed.

(** C8 (as amended).  For every raw path string that contains a NUL
    character (U+0000), [resolveRepoPath] fails with "Path contains null
    byte".  The function takes no host: nothing of the file system is
    consulted before (or after) the check. *)
Theorem resolveRepoPath_null_byte (P : Process) (raw : jsstring) :
  0%N ∈ raw →
  resolveRepoPath P (Some raw) = Err "Path contains null byte".
Proof.
  intros Hnul. rewrite resolveRepoPath_some.
  assert (Hinc : JS.includes_unit (JS.trim raw) 0 = true)
    by (by apply includes_unit_elem, trim_keeps).
  by rewrite Hinc.
Qed.

Lemma resolveRepoPath_null_byte_witness :
  0%N ∈ js "a" ++ [0%N] ++ js "b"
  ∧ resolveRepoPath demo_process (Some (js "a" ++ [0%N] ++ js "b"))
    = Err "Path contains null byte".
Proof.
  assert (Hnul : 0%N ∈ js "a" ++ [0%N] ++ js "b")
    by by_evaluation.
  split; [exact Hnul|].
  exact (resolveRepoPath_null_byte demo_process _ Hnul).
Defined.

(** C8, as stated, fails: a control character other than NUL (here
    U+0001) is not rejected; the path resolves normally. *)
Lemma resolveRepoPath_accepts_control :
  let raw := js "a" ++ [1%N] ++ js "b" in
  contains_control raw
  ∧ resolveRepoPath demo_process (Some raw)
    = Ok (js "/repo/a" ++ [1%N] ++ js "b").
Proof.
  cbv zeta. split.
  - exists 1%N. split; [|reflexivity].
    by_evaluation.
  - vm_compute. reflexivity.
Qed.

(** C2.  For every existing target whose real (symlink-resolved) path
    lies outside the root, the access check of its kind -- [ensureFile]
    for a regular file, [ensureDirectory] for a directory -- fails with
    "Resolved path escapes repository root", whatever the lexical path
    and the options are; neither check ever lets such a target through,
    and a read request that resolves to it is answered with an error
    instead of the file. *)
Theorem ensure_rejects_escaping_realpath (P : Process) (H : Host)
    (absPath realPath : jsstring) (stats : Stats) (options : AccessOptions) :
  fs_stat H absPath = Ok stats →
  fs_realpath H absPath = Ok realPath →
  ¬ inside P realPath →
  (isFile stats = true →
   ensureFile P H absPath options
   = Err "Resolved path escapes repository root")
  ∧ (isDirectory stats = true →
     ensureDirectory P H absPath options
     = Err "Resolved path escapes repository root")
  ∧ ensureFile P H absPath options ≠ Ok tt
  ∧ ensureDirectory P H absPath options ≠ Ok tt
  ∧ ∀ raw, resolveRepoPath P (Some raw) = Ok absPath →
           ∃ msg, api_file_target P H (Some raw) = Err msg.
Proof.
  intros Hstat Hreal Hout.
  assert (Hrepo : isWithinRepo P realPath = false).
  { destruct (isWithinRepo P realPath) eqn:Hin; [|done].
    by apply isWithinRepo_inside in Hin. }
  assert (Hfile : ∀ o, ensureFile P H absPath o ≠ Ok tt).
  { intros o. unfold ensureFile. rewrite Hstat. cbn.
    rewrite Hreal. cbn. rewrite Hrepo. by destruct (isFile stats). }
  split; [|split; [|split; [|split]]].
  - intros Hkind. unfold ensureFile. rewrite Hstat. cbn.
    rewrite Hreal. cbn. by rewrite Hrepo, Hkind.
  - intros Hkind. unfold ensureDirectory. rewrite Hstat. cbn.
    rewrite Hreal. cbn. by rewrite Hrepo, Hkind.
  - apply Hfile.
  - unfold ensureDirectory. rewrite Hstat. cbn.
    rewrite Hreal. cbn. rewrite Hrepo. by destruct (isDirectory stats).
  - intros raw Hresolved. unfold api_file_target.
    destruct (negb _); [by eexists|]. rewrite Hresolved. cbn.
    specialize (Hfile defaultOptions).
    destruct (ensureFile P H absPath defaultOptions) as [[]|msg];
      [done | by exists msg].
Qed.

Lemma ensure_rejects_escaping_realpath_witness :
  within (REPO_ROOT demo_process) (js "/repo/link")
  ∧ api_file_target demo_process demo_host (Some (js "link"))
    = Err "Resolved path escapes repository root"
  ∧ ensureFile demo_process demo_host (js "/repo/link") defaultOptions
    = Err "Resolved path escapes repository root"
  ∧ ensureDirectory demo_process demo_host (js "/repo/docs")
      {| allowHidden := true; allowGitIgnored := true |}
    = Err "Resolved path escapes repository root".
Proof.
  split; [unfold within; by_evaluation|].
  split; [vm_compute; reflexivity|].
  split.
  - eapply (ensure_rejects_escaping_realpath demo_process demo_host
              (js "/repo/link") (js "/etc/passwd")); try reflexivity.
    unfold inside, within. by_evaluation.
  - eapply (ensure_rejects_escaping_realpath demo_process demo_host
              (js "/repo/docs") (js "/srv/docs")); try reflexivity.
    unfold inside, within. by_evaluation.
Defined.


(** ** Upload-filename validator *)

Section UploadFacts.

Lemma is_filename_unit_allowed c :
  is_filename_unit c = true ↔ allowed_filename_char c.
Proof.
  unfold is_filename_unit, allowed_filename_char.
  rewrite !orb_true_iff, !andb_true_iff, !N.leb_le, !N.eqb_eq. tauto.
Qed.

Lemma validate_none_inv n :
  validateUploadFilename n = None →
  n ≠ [] ∧ existsb JS.is_space n = false
  ∧ JS.startsWith n [DOT] = false
  ∧ forallb is_filename_unit n = true
  ∧ JS.includes ALLOWED_IMAGE_EXTENSIONS (JS.toLowerCase (Path.extname n))
    = true.
Proof.
  unfold validateUploadFilename.
  destruct n as [|c n]; [done|]. cbn [JS.truthy negb andb].
  destruct (existsb JS.is_space (c :: n)); [done|].
  destruct (bool_decide (c :: n = [DOT])); [done|].
  destruct (bool_decide (c :: n = Path.dotdot)); [done|].
  destruct (JS.startsWith (c :: n) [DOT]); [done|]. cbn [orb].
  destruct (forallb is_filename_unit (c :: n)); [|done]. cbn [negb].
  destruct (JS.truthy _); [|done].
  destruct (JS.includes _ _); done.
Qed.

Lemma validate_message n msg :
  validateUploadFilename n = Some msg →
  msg ≠ "Path escapes target directory"%string.
Proof.
  unfold validateUploadFilename.
  repeat (match goal with
          | |- context [if ?b then _ else _] => destruct b
          end; try (intros [= <-]; discriminate)).
Qed.

(** A validated name is a single clean path component that does not
    start with a dot. *)
Lemma validated_comp_ok n :
  validateUploadFilename n = None →
  comp_ok n ∧ JS.startsWith n Path.dotdot = false.
Proof.
  intros (Hnil & _ & Hdot & Hclass & _)%validate_none_inv.
  destruct n as [|c n]; [done|].
  assert (Hc : c ≠ DOT).
  { intros ->. simpl in Hdot. done. }
  assert (Hslash : SLASH ∉ c :: n).
  { intros Hin. rewrite forallb_forall in Hclass.
    apply list_elem_of_In, Hclass in Hin. done. }
  repeat split; try done.
  - by intros [= -> _].
  - by intros [= -> _].
  - unfold Path.dotdot. cbn [JS.startsWith].
    apply andb_false_intro1, N.eqb_neq. congruence.
Qed.

Lemma validate_bad_candidate candidate :
  bad_candidate candidate → validateUploadFilename candidate ≠ None.
Proof.
  intros Hbad (Hnil & Hspace & Hdot & Hclass & Hext)%validate_none_inv.
  destruct Hbad as [(c & Hin & Hc)|[(rest & ->)|[(c & Hin & Hc)|Hbad]]].
  - assert (existsb JS.is_space candidate = true); [|congruence].
    apply existsb_exists. exists c. by rewrite <- list_elem_of_In.
  - simpl in Hdot. done.
  - rewrite forallb_forall in Hclass.
    apply list_elem_of_In, Hclass, is_filename_unit_allowed in Hin. done.
  - by apply bool_decide_eq_true in Hext.
Qed.

End UploadFacts.

(** C6.  Every candidate file name that contains white space, starts
    with a dot, contains a character outside [[A-Za-z0-9._-]], or whose
    extension is not an allowed image extension is refused by
    [validateUploadFilename] with a reason; and an upload whose
    sanitized [name] parameter is such a candidate ends in an error
    without any write stream being opened in the destination
    directory. *)
Theorem upload_filename_rejected (P : Process) (H : Host)
    (candidate : jsstring) :
  bad_candidate candidate →
  (∃ reason, validateUploadFilename candidate = Some reason)
  ∧ ∀ query raw now,
      getSingleQueryValue query = Some raw →
      sanitizeUploadFilename raw now = candidate →
      ∃ reason,
        diskStorage_handleFile P H query now
        = (Err reason, [Mkdir (CLIPBOARD_DIRECTORY_PATH P)]).
Proof.
  intros Hbad%validate_bad_candidate.
  destruct (validateUploadFilename candidate) as [reason|] eqn:Hval; [|done].
  split; [by exists reason|].
  intros query raw now Hquery Hsan. unfold diskStorage_handleFile.
  destruct (storage_destination P H) as [destination|e]; [|by exists e].
  unfold storage_filename. rewrite Hquery.
  destruct destination as [|d destination]; [by eexists|].
  destruct raw as [|r raw]; [by eexists|].
  cbn [JS.truthy_opt JS.truthy negb]. simpl default.
  rewrite Hsan, Hval. by exists reason.
Qed.

Lemma upload_filename_rejected_witness :
  bad_candidate (js "a b.png")
  ∧ (∃ reason, validateUploadFilename (js "a b.png") = Some reason)
  ∧ ∃ reason,
      diskStorage_handleFile demo_process demo_host
        (Some (QString (js "dir/a b.png"))) 1700000000000
      = (Err reason, [Mkdir (CLIPBOARD_DIRECTORY_PATH demo_process)]).
Proof.
  assert (Hbad : bad_candidate (js "a b.png")).
  { left. exists 32%N. split; [|reflexivity].
    by_evaluation. }
  destruct (upload_filename_rejected demo_process demo_host _ Hbad)
    as [Hval Hwrite].
  split; [exact Hbad|]. split; [exact Hval|].
  apply (Hwrite _ (js "dir/a b.png")); reflexivity.
Defined.

(** The scenarios the specification names. *)
Example validateUploadFilename_scenarios :
  validateUploadFilename (js "a b.png")
  = Some "Filename cannot contain spaces"%string
  ∧ validateUploadFilename (js "x.exe")
    = Some "Filename must use an allowed image extension"%string
  ∧ validateUploadFilename (js ".hidden.png")
    = Some "Filename is invalid"%string
  ∧ validateUploadFilename (js "shot-01.PNG") = None
  ∧ sanitizeUploadFilename (js "../../etc/a.png") 5 = js "a.png"
  ∧ sanitizeUploadFilename (js "..") 5 = js "upload-5".
Proof. repeat split; vm_compute; reflexivity. Qed.

(** C10.  Whatever the base directory and the requested name, a name
    that passes validation after sanitizing resolves to the entry of
    that name directly inside the (resolved) base directory, so the
    "Path escapes target directory" branch of [resolveNamedImagePath] is
    never taken. *)
Theorem resolveNamedImagePath_contained (P : Process)
    (base requested : jsstring) (now : Z) :
  Path.isAbsolute (cwd P) = true →
  resolveNamedImagePath P base requested now
  ≠ Err "Path escapes target directory"
  ∧ (validateUploadFilename (sanitizeUploadFilename requested now) = None →
     ∃ r, resolveNamedImagePath P base requested now = Ok r
          ∧ image_name r = sanitizeUploadFilename requested now
          ∧ within (Path.resolve (cwd P) [base]) (image_path r)
          ∧ Path.comps (image_path r)
            = Path.comps (Path.resolve (cwd P) [base]) ++ [image_name r]).
Proof.
  intros Hcwd. unfold resolveNamedImagePath.
  set (safeName := sanitizeUploadFilename requested now).
  destruct (validateUploadFilename safeName) as [msg|] eqn:Hval.
  { split; [|done]. intros [= Hmsg]. by apply validate_message in Hval. }
  destruct (validated_comp_ok _ Hval) as [Hok Hdots].
  destruct (resolve_abs_form (cwd P) [base]) as (D & HD & HeqD).
  { apply resolve_join_abs. by left. }
  rewrite HeqD, resolve_child by done.
  assert (Hrel : Path.relative (cwd P) (abs_path D) (abs_path (D ++ [safeName]))
                 = [] ∨
                 Path.relative (cwd P) (abs_path D) (abs_path (D ++ [safeName]))
                 = safeName).
  { unfold Path.relative.
    destruct (decide (abs_path D = abs_path (D ++ [safeName]))); [by left|].
    rewrite !resolve_abs_path by (try apply Forall_app; auto).
    destruct (decide (abs_path D = abs_path (D ++ [safeName]))); [by left|].
    rewrite !comps_abs_path by (try apply Forall_app; auto).
    rewrite strip_common_extend. by right. }
  assert (Hpass : JS.startsWith
                    (Path.relative (cwd P) (abs_path D)
                       (abs_path (D ++ [safeName]))) Path.dotdot
                  || Path.isAbsolute
                       (Path.relative (cwd P) (abs_path D)
                          (abs_path (D ++ [safeName]))) = false).
  { destruct Hrel as [->| ->]; [done|].
    rewrite Hdots. by destruct (comp_ok_relative _ Hok) as [_ ->]. }
  rewrite Hpass. split; [done|]. intros _. eexists. split; [done|].
  cbn [image_name image_path]. split; [done|].
  assert (Hall : Forall comp_ok (D ++ [safeName])) by (apply Forall_app; auto).
  unfold within. rewrite !comps_abs_path by done.
  split; [by apply prefix_app_r | done].
Qed.

Lemma resolveNamedImagePath_contained_witness :
  resolveNamedImagePath demo_process (js "/repo/.clipboard")
    (js "../../etc/shot.png") 0
  = Ok {| image_path := js "/repo/.clipboard/shot.png";
          image_name := js "shot.png" |}
  ∧ resolveNamedImagePath demo_process (js "/repo/.clipboard")
      (js "../../etc/shot.png") 0
    ≠ Err "Path escapes target directory".
Proof.
  split; [vm_compute; reflexivity|].
  apply (resolveNamedImagePath_contained demo_process). reflexivity.
Defined.


(** ** Visibility filter *)

Section VisibilityFacts.

Lemma startsWith_dot seg :
  JS.startsWith seg [DOT] = true ↔ ∃ rest, seg = DOT :: rest.
Proof.
  rewrite startsWith_prefix. split.
  - intros [rest ->]. by exists rest.
  - intros [rest ->]. by exists rest.
Qed.

Lemma isHidden_segments p :
  isHiddenRepoRelativePath p = true ↔ has_dot_segment p.
Proof.
  unfold isHiddenRepoRelativePath, has_dot_segment.
  destruct p as [|c p].
  - simpl. split; [done|]. intros (seg & rest & Hin & ->).
    apply list_elem_of_singleton in Hin. done.
  - cbn [JS.truthy negb]. rewrite existsb_exists. split.
    + intros (seg & Hin & [rest ->]%startsWith_dot).
      exists (DOT :: rest), rest. by rewrite list_elem_of_In.
    + intros (seg & rest & Hin & ->). exists (DOT :: rest).
      split; [by apply list_elem_of_In | done].
Qed.

Lemma parseGitIgnoredStdout_silent stdout :
  stdout = None ∨ stdout = Some [] → parseGitIgnoredStdout stdout = ∅.
Proof. by intros [-> | ->]. Qed.

Lemma getGitIgnoredPathSet_silent P H paths :
  (∀ args, no_output (execFile_git H args)) →
  getGitIgnoredPathSet P H paths = ∅.
Proof.
  intros Hsilent. unfold getGitIgnoredPathSet.
  destruct (uniq [] (List.filter JS.truthy paths)) as [|x xs] eqn:Hpaths;
    [done|].
  by destruct (Hsilent ([js "-C"; REPO_ROOT P; js "check-ignore"; js "--"]
                        ++ x :: xs)) as [-> | ->].
Qed.

End VisibilityFacts.

(** C5.  A repo-relative path is classified hidden exactly when one of
    its segments starts with a dot; the access check refuses it as
    hidden exactly when, in addition, the call site did not pass
    [allowHidden]; the empty (root) path is never hidden. *)
Theorem hidden_path_rule (p : jsstring) :
  (isBlockedHiddenRepoRelativePath p = true ↔ has_dot_segment p)
  ∧ (∀ P H absPath options,
       toRepoRelativePath P absPath = p →
       (assertPathAccessible P H absPath options
        = Err "Hidden paths are not accessible"
        ↔ allowHidden options = false ∧ has_dot_segment p))
  ∧ isBlockedHiddenRepoRelativePath [] = false.
Proof.
  split; [apply isHidden_segments|]. split; [|done].
  intros P H absPath options Hrel. unfold assertPathAccessible.
  rewrite Hrel, <- isHidden_segments.
  unfold isBlockedHiddenRepoRelativePath.
  destruct (allowHidden options), (isHiddenRepoRelativePath p); cbn;
    try (split; [|by intros []]);
    case_conditions; try done; by intros [].
Qed.

Lemma hidden_path_rule_witness :
  toRepoRelativePath demo_process (js "/repo/src/.env") = js "src/.env"
  ∧ assertPathAccessible demo_process demo_host (js "/repo/src/.env")
      defaultOptions
    = Err "Hidden paths are not accessible"
  ∧ assertPathAccessible demo_process demo_host (js "/repo/src/.env")
      {| allowHidden := true; allowGitIgnored := false |}
    ≠ Err "Hidden paths are not accessible".
Proof.
  destruct (hidden_path_rule (js "src/.env")) as (Hseg & Hcheck & _).
  split; [vm_compute; reflexivity|]. split.
  - apply (Hcheck demo_process demo_host); [vm_compute; reflexivity|].
    split; [reflexivity|]. apply Hseg. vm_compute. reflexivity.
  - intros Herr.
    apply (Hcheck demo_process demo_host) in Herr as [Hallow _];
      [discriminate | vm_compute; reflexivity].
Defined.



(** What the oracle's output is turned into when there is some. *)
Example parseGitIgnoredStdout_lines :
  parseGitIgnoredStdout
    (Some (js "node_modules" ++ [13%N; 10%N] ++ js " dist " ++ [10%N]))
  = {[ js "node_modules"; js "dist" ]}.
Proof. vm_compute. reflexivity. Qed.


(** ** Conditional cache responder *)

Section CacheFacts.
Context (RT : Runtime).

Lemma includes_trimmed v x :
  JS.includes (map JS.trim (JS.split COMMA v)) x = true
  ↔ ∃ c, c ∈ JS.split COMMA v ∧ JS.trim c = x.
Proof.
  unfold JS.includes.
  rewrite bool_decide_eq_true, list_elem_of_In, in_map_iff.
  split; intros (c & H1 & H2); exists c.
  - by rewrite list_elem_of_In.
  - by rewrite <- list_elem_of_In.
Qed.

Lemma trim_nil : JS.trim [] = [].
Proof. done. Qed.

Lemma shouldRespondNotModified_spec req etag lastModifiedMillis :
  etag ≠ [] →
  shouldRespondNotModified RT req etag lastModifiedMillis = true
  ↔ (∃ v c, header req (js "if-none-match") = Some v
            ∧ c ∈ JS.split COMMA v
            ∧ (JS.trim c = js "*" ∨ JS.trim c = etag))
    ∨ (∃ s t, header req (js "if-modified-since") = Some s
              ∧ Date_parse RT s = Some t
              ∧ truncated_to_seconds lastModifiedMillis ≤ t).
Proof.
  intros Hetag. unfold shouldRespondNotModified.
  set (byTag := match header req (js "if-none-match") with
                | Some ((_ :: _) as v) => _
                | _ => false
                end).
  assert (HbyTag : byTag = true
                   ↔ ∃ v c, header req (js "if-none-match") = Some v
                            ∧ c ∈ JS.split COMMA v
                            ∧ (JS.trim c = js "*" ∨ JS.trim c = etag)).
  { subst byTag. destruct (header req (js "if-none-match")) as [[|x v]|].
    - split; [done|]. intros (v & c & [= <-] & Hin & Hc).
      apply list_elem_of_singleton in Hin as ->. rewrite trim_nil in Hc.
      destruct Hc as [Hc|Hc]; [discriminate | by symmetry in Hc].
    - rewrite orb_true_iff, !includes_trimmed. split.
      + intros [(c & Hin & Hc)|(c & Hin & Hc)]; exists (x :: v), c; auto.
      + intros (v' & c & [= <-] & Hin & [Hc|Hc]); [left|right]; by exists c.
    - split; [done|]. by intros (v & c & [=] & _). }
  destruct byTag; [split; [left; by apply HbyTag | done]|].
  assert (Hno : ¬ ∃ v c, header req (js "if-none-match") = Some v
                         ∧ c ∈ JS.split COMMA v
                         ∧ (JS.trim c = js "*" ∨ JS.trim c = etag)).
  { intros Hex. by apply HbyTag in Hex. }
  destruct (header req (js "if-modified-since")) as [[|x s]|] eqn:Hims.
  - split; [done|]. intros [Hex|(s & t & [= <-] & Hparse & _)]; [done|].
    by rewrite Date_parse_empty in Hparse.
  - destruct (Date_parse RT (x :: s)) as [t|] eqn:Hparse.
    + rewrite bool_decide_eq_true. split.
      * intros Hle. right. by exists (x :: s), t.
      * intros [Hex|(s' & t' & [= <-] & Hparse' & Hle)]; [done|].
        by simplify_eq.
    + split; [done|]. intros [Hex|(s' & t' & [= <-] & Hparse' & _)]; [done|].
      congruence.
  - split; [done|]. by intros [Hex|(s & t & [=] & _)].
Qed.

End CacheFacts.

(** C7.  The responder answers "not modified" (status 304) exactly
    when some comma-separated value of [If-None-Match] is [*] or equals
    the weak tag [W/"<size>-<floor(mtimeMs)>"], or else
    [If-Modified-Since] parses to a time at or after the modification
    time truncated to whole seconds; the tag it compares with is the one
    it sends as [ETag]. *)
Theorem not_modified_rule (RT : Runtime) (req : Request) (stats : Stats) :
  let tag :=
    js "W/" ++ [QUOTE] ++ JS.of_Z (size stats) ++ js "-"
      ++ JS.of_Z (Qround.Qfloor (mtimeMs stats)) ++ [QUOTE] in
  buildWeakETag stats = tag
  ∧ ((setImageCacheHeaders RT req stats).1 = true
     ↔ (∃ v c, header req (js "if-none-match") = Some v
               ∧ c ∈ JS.split COMMA v
               ∧ (JS.trim c = js "*" ∨ JS.trim c = tag))
       ∨ (∃ s t, header req (js "if-modified-since") = Some s
                 ∧ Date_parse RT s = Some t
                 ∧ truncated_to_seconds (mtimeMs stats) ≤ t)).
Proof.
  cbv zeta. split; [done|].
  unfold setImageCacheHeaders. cbn [fst].
  by apply shouldRespondNotModified_spec.
Qed.

(** The round trip of the specification: the tag of a file, sent back
    in [If-None-Match], gives 304; a stale tag with an
    [If-Modified-Since] one second too early does not. *)
Example not_modified_scenarios :
  buildWeakETag demo_stats
  = js "W/" ++ [QUOTE] ++ js "1024-1700000000123" ++ [QUOTE]
  ∧ (setImageCacheHeaders demo_runtime
       (demo_request (js "GET")
          [(js "if-none-match",
            js "W/" ++ [QUOTE] ++ js "7-1" ++ [QUOTE] ++ js " , W/" ++ [QUOTE]
              ++ js "1024-1700000000123" ++ [QUOTE])])
       demo_stats).1 = true
  ∧ (setImageCacheHeaders demo_runtime
       (demo_request (js "GET")
          [(js "if-modified-since", js "Tue, 14 Nov 2023 22:13:20 GMT")])
       demo_stats).1 = true
  ∧ (setImageCacheHeaders demo_runtime
       (demo_request (js "GET")
          [(js "if-none-match", js "W/" ++ [QUOTE] ++ js "7-1" ++ [QUOTE]);
           (js "if-modified-since", js "Tue, 14 Nov 2023 22:13:19 GMT")])
       demo_stats).1 = false.
Proof. repeat split; vm_compute; reflexivity. Qed.


(** ** Authentication gateway *)

Section GatewayFacts.
Context (RT : Runtime) (P : Process).
Hypothesis password_set : BASIC_AUTH_PASSWORD P ≠ [].

Lemma gateway_installed clock req st :
  gateway RT P clock req st
  = auth_middleware RT (BASIC_AUTH_PASSWORD P) clock req st.
Proof.
  unfold gateway. by destruct (BASIC_AUTH_PASSWORD P).
Qed.

Lemma ceil_seconds_pos ms : 0 < ms → 1 ≤ ceil_seconds ms.
Proof.
  intros Hms. unfold ceil_seconds.
  pose proof (Z.div_mod (- ms) 1000 ltac:(lia)) as Hdiv.
  pose proof (Z.mod_pos_bound (- ms) 1000 ltac:(lia)) as Hmod. lia.
Qed.

Lemma recordAuthFailure_other client now req st :
  clientIPAddress req ≠ client →
  (recordAuthFailure now req st).2 !! client = st !! client.
Proof.
  intros Hother. unfold recordAuthFailure.
  repeat (match goal with
          | |- context [match ?x with _ => _ end] => destruct x
          end); cbn [snd]; by rewrite lookup_insert_ne.
Qed.

(** A request leaves the records of the other clients alone. *)
Lemma gateway_other client clock req st :
  clientIPAddress req ≠ client →
  (gateway RT P clock req st).2 !! client = st !! client.
Proof.
  intros Hother. rewrite gateway_installed. unfold auth_middleware.
  destruct (blocked_at _ _); [done|].
  destruct (credentials_ok _ _ _).
  - destruct (_ && _); cbn [snd]; by rewrite lookup_delete_ne.
  - pose proof (recordAuthFailure_other client (t_failure clock) req st Hother)
      as Hrec.
    destruct (recordAuthFailure _ _ _) as [[until|] st'];
      [destruct (negb _)|]; done.
Qed.

(** A blocked client is answered 429 with a positive delay, whatever
    it sends, and its record stays. *)
Lemma gateway_blocked clock req st e :
  st !! clientIPAddress req = Some e →
  blockedUntil e ≠ 0 →
  t_entry clock < blockedUntil e →
  gateway RT P clock req st
  = (tooManyFailures (ceil_seconds (blockedUntil e - t_entry clock)), st)
  ∧ 1 ≤ ceil_seconds (blockedUntil e - t_entry clock).
Proof.
  intros Hrec Hset Hbefore. rewrite gateway_installed.
  unfold auth_middleware, blocked_at. rewrite Hrec.
  rewrite (proj2 (Z.eqb_neq _ _) Hset), (proj2 (Z.ltb_lt _ _) Hbefore).
  split; [done|]. apply ceil_seconds_pos. lia.
Qed.

(** A failed attempt that opens a window. *)
Lemma gateway_fail_fresh clock req st :
  credentials_ok RT (BASIC_AUTH_PASSWORD P) req = false →
  blocked_at (t_entry clock) (st !! clientIPAddress req) = None →
  (st !! clientIPAddress req = None
   ∨ ∃ e, st !! clientIPAddress req = Some e
          ∧ AUTH_WINDOW_MS ≤ t_failure clock - windowStartAt e) →
  gateway RT P clock req st
  = (authenticationRequired,
     <[clientIPAddress req :=
         {| windowStartAt := t_failure clock; failures := 1;
            blockedUntil := 0 |}]> st).
Proof.
  intros Hcred Hfree Hopen. rewrite gateway_installed.
  unfold auth_middleware. rewrite Hfree, Hcred. unfold recordAuthFailure.
  destruct Hopen as [-> | (e & -> & Hexpired)]; [done|].
  by rewrite bool_decide_eq_true_2.
Qed.

(** A failed attempt inside a running window. *)
Lemma gateway_fail_warm clock req st t1 k :
  credentials_ok RT (BASIC_AUTH_PASSWORD P) req = false →
  st !! clientIPAddress req
  = Some {| windowStartAt := t1; failures := k; blockedUntil := 0 |} →
  t_failure clock - t1 < AUTH_WINDOW_MS →
  gateway RT P clock req st
  = if bool_decide (AUTH_MAX_ATTEMPTS ≤ k + 1) then
      let until := t_failure clock + AUTH_BLOCK_MS in
      ((if negb (until =? 0)
        then tooManyFailures (ceil_seconds (until - t_reply clock))
        else authenticationRequired),
       <[clientIPAddress req :=
           {| windowStartAt := t_failure clock; failures := 0;
              blockedUntil := until |}]> st)
    else
      (authenticationRequired,
       <[clientIPAddress req :=
           {| windowStartAt := t1; failures := k + 1;
              blockedUntil := 0 |}]> st).
Proof.
  intros Hcred Hrec Hwindow. rewrite gateway_installed.
  unfold auth_middleware, blocked_at. rewrite Hrec. cbn.
  rewrite Hcred. unfold recordAuthFailure. rewrite Hrec. cbn.
  rewrite bool_decide_eq_false_2 by lia.
  destruct (bool_decide (AUTH_MAX_ATTEMPTS ≤ k + 1)); [|done].
  cbv zeta. by destruct (negb _).
Qed.

Lemma serve_app l1 l2 st :
  serve RT P (l1 ++ l2) st
  = ((serve RT P l1 st).1 ++ (serve RT P l2 (serve RT P l1 st).2).1,
     (serve RT P l2 (serve RT P l1 st).2).2).
Proof.
  revert st. induction l1 as [|[clock req] l1 IH]; intros st; simpl.
  - by destruct (serve RT P l2 st).
  - destruct (gateway RT P clock req st) as [o st1]. rewrite IH.
    by destruct (serve RT P l1 st1).
Qed.

Lemma serve_cons clock req rest st :
  serve RT P ((clock, req) :: rest) st
  = ((gateway RT P clock req st).1
       :: (serve RT P rest (gateway RT P clock req st).2).1,
     (serve RT P rest (gateway RT P clock req st).2).2).
Proof.
  simpl. destruct (gateway RT P clock req st) as [o st1]. cbn [fst snd].
  by destruct (serve RT P rest st1).
Qed.

Lemma count_from_cons client cr trace :
  count_from client (cr :: trace)
  = ((if decide (sent_by client cr) then 1 else 0) + count_from client trace)%nat.
Proof.
  unfold count_from. rewrite filter_cons. by destruct (decide _).
Qed.

(** While the count stays below the threshold, failures inside the
    window are answered 401 and only counted. *)
Lemma serve_warming client t1 trace :
  ∀ st k,
    st !! client
    = Some {| windowStartAt := t1; failures := k; blockedUntil := 0 |} →
    Forall (λ cr, sent_by client cr →
                  credentials_ok RT (BASIC_AUTH_PASSWORD P) cr.2 = false
                  ∧ t_failure cr.1 - t1 < AUTH_WINDOW_MS) trace →
    k + Z.of_nat (count_from client trace) < AUTH_MAX_ATTEMPTS →
    (serve RT P trace st).2 !! client
    = Some {| windowStartAt := t1;
              failures := k + Z.of_nat (count_from client trace);
              blockedUntil := 0 |}
    ∧ Forall2 (λ cr o, sent_by client cr → o = authenticationRequired)
        trace (serve RT P trace st).1.
Proof.
  induction trace as [|[clock req] trace IH]; intros st k Hrec Hall Hcount.
  - simpl. split; [|constructor]. rewrite Hrec. do 2 f_equal.
    unfold count_from. simpl. lia.
  - apply Forall_cons in Hall as [Hhead Hall].
    rewrite count_from_cons in Hcount |- *. rewrite serve_cons. cbn [fst snd].
    destruct (decide (sent_by client (clock, req))) as [Hsent|Hother].
    + destruct (Hhead Hsent) as [Hcred Hwindow].
      unfold sent_by in Hsent. cbn [snd fst] in *. subst client.
      rewrite (gateway_fail_warm clock req st t1 k) by done.
      rewrite bool_decide_eq_false_2 by lia. cbn [fst snd].
      destruct (IH (<[clientIPAddress req :=
                        {| windowStartAt := t1; failures := k + 1;
                           blockedUntil := 0 |}]> st) (k + 1))
        as [Hst Houts]; [by rewrite lookup_insert_eq | done | lia |].
      split; [|by constructor].
      rewrite Hst. do 2 f_equal. lia.
    + unfold sent_by in Hother. cbn [snd] in Hother.
      destruct (IH (gateway RT P clock req st).2 k) as [Hst Houts];
        [by rewrite gateway_other | done | lia |].
      split; [by rewrite Hst | constructor; [by intros ? | done]].
Qed.

(** Until the block runs out every request of the blocked client is
    answered 429 with a positive delay and its record is kept. *)
Lemma serve_blocked client e trace :
  blockedUntil e ≠ 0 →
  ∀ st,
    st !! client = Some e →
    Forall (λ cr, sent_by client cr → t_entry cr.1 < blockedUntil e) trace →
    (serve RT P trace st).2 !! client = Some e
    ∧ Forall2 (λ cr o, sent_by client cr →
                       ∃ n, 1 ≤ n ∧ o = tooManyFailures n)
        trace (serve RT P trace st).1.
Proof.
  intros Hset. induction trace as [|[clock req] trace IH]; intros st Hrec Hall.
  - simpl. split; [done | constructor].
  - apply Forall_cons in Hall as [Hhead Hall]. rewrite serve_cons.
    cbn [fst snd].
    destruct (decide (sent_by client (clock, req))) as [Hsent|Hother].
    + specialize (Hhead Hsent). unfold sent_by in Hsent.
      cbn [fst snd] in *. subst client.
      destruct (gateway_blocked clock req st e) as [Hgw Hpos]; [done..|].
      rewrite Hgw. cbn [fst snd].
      destruct (IH st) as [Hst Houts]; [done..|].
      split; [done|]. constructor; [|done]. intros _. by eexists.
    + unfold sent_by in Hother. cbn [snd] in Hother.
      destruct (IH (gateway RT P clock req st).2) as [Hst Houts];
        [by rewrite gateway_other | done |].
      split; [done|]. constructor; [by intros ? | done].
Qed.

Lemma normalizeAuthority_nonempty u : normalizeAuthority u ≠ [].
Proof.
  unfold normalizeAuthority. by destruct (JS.toLowerCase (URL_hostname u)).
Qed.

Lemma isSameOriginMutation_spec req :
  isSameOriginMutation RT req = true
  ↔ ∃ a, effective_origin RT req = Some a
         ∧ normalizeRequestAuthority RT req = Some a.
Proof.
  assert (Hne : ∀ a, normalizeRequestAuthority RT req = Some a → a ≠ []).
  { unfold normalizeRequestAuthority. intros a.
    repeat (match goal with
            | |- context [match ?x with _ => _ end] => destruct x
            end; try done);
      destruct (URL_parse RT _); intros [= <-];
      apply normalizeAuthority_nonempty. }
  unfold isSameOriginMutation, effective_origin.
  destruct (normalizeRequestAuthority RT req) as [[|x a]|].
  - by destruct (Hne [] eq_refl).
  - clear Hne.
    repeat (match goal with
            | |- context [match header ?r ?n with _ => _ end] =>
                destruct (header r n) as [[|? ?]|]
            | |- context [match URL_parse ?r ?n with _ => _ end] =>
                destruct (URL_parse r n)
            end); cbn [fmap option_fmap option_map];
      try (split; [done | by intros (? & [=] & _)]);
      (rewrite bool_decide_eq_true; split;
        [intros ->; by eexists | by intros (? & [= <-] & [= <-])]).
  - split; [done|]. by intros (a & _ & [=]).
Qed.

End GatewayFacts.



(** The same run, evaluated: nineteen answers 401, the twentieth and
    the credentialed follow-up 429; once the block has elapsed the right
    password is let through. *)
Example lockout_run :
  let attempts :=
    replicate 20 (tick 1000, wrong_password_request)
      ++ [(tick 500000, right_password_request);
          (tick 901000, right_password_request)] in
  (serve demo_runtime demo_process attempts ∅).1
  = replicate 19 authenticationRequired
      ++ [tooManyFailures 900; tooManyFailures 401; Next].
Proof. vm_compute. reflexivity. Qed.

(** C4.  A request with a mutating method that reaches and passes
    the credential check is answered 403 and not handed to the route
    handlers whenever its effective origin is missing or differs from
    the authority the request itself was addressed to. *)
Theorem cross_origin_mutation_rejected (RT : Runtime) (P : Process)
    (clock : Ticks) (req : Request) (st : gmap jsstring AuthFailure) :
  BASIC_AUTH_PASSWORD P ≠ [] →
  method req ∈ mutating_methods →
  blocked_at (t_entry clock) (st !! clientIPAddress req) = None →
  credentials_ok RT (BASIC_AUTH_PASSWORD P) req = true →
  (effective_origin RT req = None
   ∨ effective_origin RT req ≠ normalizeRequestAuthority RT req) →
  (gateway RT P clock req st).1 = Send 403 [] (js "Origin validation failed")
  ∧ (gateway RT P clock req st).1 ≠ Next.
Proof.
  intros Hpw Hmethod Hfree Hcred Horigin.
  assert (Hmut : is_mutating (method req) = true).
  { unfold is_mutating, mutating_methods in *.
    rewrite !orb_true_iff, !bool_decide_eq_true.
    repeat (apply elem_of_cons in Hmethod as [Hmethod|Hmethod]; [tauto|]).
    by apply elem_of_nil in Hmethod. }
  assert (Hcross : isSameOriginMutation RT req = false).
  { destruct (isSameOriginMutation RT req) eqn:Hsame; [|done].
    apply isSameOriginMutation_spec in Hsame as (a & Ha & Hb).
    destruct Horigin as [Hnone|Hdiff]; congruence. }
  rewrite gateway_installed by done. unfold auth_middleware.
  rewrite Hfree, Hcred, Hmut, Hcross. by split.
Qed.

Lemma cross_origin_mutation_rejected_witness :
  effective_origin demo_runtime cross_site_delete
  = Some (js "evil.example.net:443")
  ∧ normalizeRequestAuthority demo_runtime cross_site_delete
    = Some (js "files.example.com:443")
  ∧ (gateway demo_runtime demo_process (tick 1000) cross_site_delete ∅).1
    = Send 403 [] (js "Origin validation failed").
Proof.
  split; [vm_compute; reflexivity|]. split; [vm_compute; reflexivity|].
  apply (cross_origin_mutation_rejected demo_runtime demo_process).
  - discriminate.
  - by_evaluation.
  - vm_compute. reflexivity.
  - vm_compute. reflexivity.
  - right. vm_compute. discriminate.
Defined.

(** The counterpart: the same request carrying the application's own
    origin in [Referer], and a cross-site read, are handed on. *)
Example same_origin_scenarios :
  (gateway demo_runtime demo_process (tick 1000) same_site_delete ∅).1 = Next
  ∧ (gateway demo_runtime demo_process (tick 1000)
       (demo_request (js "GET")
          [(js "authorization", js "Basic user:hunter2");
           (js "host", js "files.example.com");
           (js "origin", js "https://evil.example.net")]) ∅).1 = Next
  ∧ (gateway demo_runtime demo_process (tick 1000)
       (demo_request (js "DELETE")
          [(js "authorization", js "Basic user:hunter2");
           (js "host", js "files.example.com")]) ∅).1
    = Send 403 [] (js "Origin validation failed").
Proof. repeat split; vm_compute; reflexivity. Qed.

(** * Further properties of the server *)

(** ** Path resolver: blank input, exact containment test, round trip *)

Section ResolverMore.
Context (P : Process).
Hypothesis cwd_absolute : Path.isAbsolute (cwd P) = true.

Lemma strip_common_refl F : Path.strip_common F F = ([], []).
Proof.
  pose proof (strip_common_extend F []) as Heq. by rewrite app_nil_r in Heq.
Qed.

(** [path.relative] between two normal absolute paths. *)
Lemma relative_abs_paths F T :
  Forall comp_ok F → Forall comp_ok T →
  Path.relative (cwd P) (abs_path F) (abs_path T)
  = JS.join [SLASH]
      (map (λ _, Path.dotdot) (Path.strip_common F T).1
         ++ (Path.strip_common F T).2).
Proof.
  intros HF HT. unfold Path.relative.
  destruct (decide (abs_path F = abs_path T)) as [Heq|_].
  { apply (f_equal Path.comps) in Heq. rewrite !comps_abs_path in Heq by done.
    subst T. by rewrite strip_common_refl. }
  rewrite !resolve_abs_path by done.
  destruct (decide (abs_path F = abs_path T)) as [Heq|_].
  { apply (f_equal Path.comps) in Heq. rewrite !comps_abs_path in Heq by done.
    subst T. by rewrite strip_common_refl. }
  rewrite !comps_abs_path by done. by destruct (Path.strip_common F T).
Qed.

Lemma join_comp_ok_head c rest :
  comp_ok c →
  JS.join [SLASH] (c :: rest) ≠ []
  ∧ Path.isAbsolute (JS.join [SLASH] (c :: rest)) = false
  ∧ JS.startsWith (JS.join [SLASH] (c :: rest)) Path.dotdot
    = JS.startsWith c Path.dotdot.
Proof.
  intros (Hnil & Hdot & Hdd & Hslash).
  destruct c as [|x c]; [done|].
  assert (Hx : x ≠ SLASH) by (intros ->; apply Hslash; by left).
  assert (Hjoin : ∃ tail, JS.join [SLASH] ((x :: c) :: rest) = x :: c ++ tail).
  { destruct rest; [exists []; by rewrite app_nil_r | by eexists]. }
  destruct Hjoin as [tail ->]. split; [done|]. split.
  - simpl. by apply N.eqb_neq.
  - unfold Path.dotdot. cbn [JS.startsWith].
    destruct (DOT =? x)%N eqn:Hd; [|done]. cbn [andb].
    apply N.eqb_eq in Hd as <-.
    destruct c as [|y c].
    + done.
    + done.
Qed.

(** [path.relative] in terms of the components of its resolved
    arguments. *)
Lemma relative_formula from to :
  Path.relative (cwd P) from to
  = JS.join [SLASH]
      (map (λ _, Path.dotdot)
         (Path.strip_common (Path.comps (Path.resolve (cwd P) [from]))
            (Path.comps (Path.resolve (cwd P) [to]))).1
       ++ (Path.strip_common (Path.comps (Path.resolve (cwd P) [from]))
             (Path.comps (Path.resolve (cwd P) [to]))).2).
Proof.
  unfold Path.relative.
  destruct (decide (from = to)) as [->|_]; [by rewrite strip_common_refl|].
  destruct (decide (Path.resolve (cwd P) [from] = Path.resolve (cwd P) [to]))
    as [->|_]; [by rewrite strip_common_refl|].
  by destruct (Path.strip_common _ _).
Qed.

Lemma resolve_form args :
  ∃ T, Forall comp_ok T ∧ Path.resolve (cwd P) args = abs_path T.
Proof. apply resolve_abs_form, resolve_join_abs. by left. Qed.

Lemma isWithinRepo_components absPath R T :
  Forall comp_ok R → Forall comp_ok T →
  REPO_ROOT P = abs_path R →
  Path.resolve (cwd P) [absPath] = abs_path T →
  isWithinRepo P absPath = true
  ↔ ∃ rest, T = R ++ rest
            ∧ JS.startsWith (default [] (head rest)) Path.dotdot = false.
Proof.
  intros HR HT HeqR HeqT. unfold isWithinRepo.
  rewrite relative_formula, HeqT, HeqR, resolve_abs_path by done.
  rewrite !comps_abs_path by done.
  destruct (Path.strip_common R T) as [up down] eqn:Hstrip. cbn [fst snd].
  pose proof (strip_common_spec _ _ _ _ Hstrip) as (common & -> & ->).
  apply Forall_app in HT as [_ Hdown].
  destruct up as [|u up].
  - rewrite app_nil_r in *. simpl map. cbn [app].
    destruct down as [|c down].
    + simpl. split; [|done]. intros _. exists []. by rewrite app_nil_r.
    + apply Forall_cons in Hdown as [Hc _].
      destruct (join_comp_ok_head c down Hc) as (Hne & Habs & Hstart).
      rewrite bool_decide_eq_false_2, Habs, Hstart by done.
      cbn [orb negb andb]. rewrite andb_true_r, negb_true_iff. split.
      * intros Hc'. by exists (c :: down).
      * intros (rest & Heq & Hrest). apply app_inv_head in Heq as <-. done.
  - cbn [map app].
    destruct (join_dotdot_head (map (λ _, Path.dotdot) up ++ down))
      as [Hstart Hne].
    rewrite bool_decide_eq_false_2, Hstart by done. cbn [orb negb andb].
    split; [done|]. intros (rest & Heq & _). exfalso.
    rewrite <- app_assoc in Heq. apply app_inv_head in Heq.
    assert (Hagain : Path.strip_common (common ++ u :: up)
                       (common ++ (u :: up) ++ rest) = ([], rest)).
    { rewrite app_assoc. apply strip_common_extend. }
    rewrite <- Heq in Hagain. rewrite Hstrip in Hagain. discriminate.
Qed.

Lemma resolveRepoPath_unfold relativePath :
  resolveRepoPath P relativePath
  = if JS.includes_unit (JS.trim (default [] relativePath)) 0
    then Err "Path contains null byte"
    else if negb (isWithinRepo P
                    (Path.resolve (cwd P)
                       [REPO_ROOT P; JS.trim (default [] relativePath)]))
    then Err "Path escapes repository root"
    else Ok (Path.resolve (cwd P)
               [REPO_ROOT P; JS.trim (default [] relativePath)]).
Proof. reflexivity. Qed.

Lemma resolve_root_blank :
  Path.resolve (cwd P) [REPO_ROOT P; []] = REPO_ROOT P.
Proof.
  destruct (REPO_ROOT_form P cwd_absolute) as (R & HR & HeqR).
  rewrite HeqR. rewrite <- (resolve_abs_path (cwd P) R HR) at 2.
  unfold Path.resolve. cbn [Path.resolve_join]. done.
Qed.

Lemma isWithinRepo_root : isWithinRepo P (REPO_ROOT P) = true.
Proof.
  unfold isWithinRepo, Path.relative. by rewrite decide_True.
Qed.

(** Membership of code units through joining and splitting. *)
Lemma elem_of_join sep cs x :
  x ∈ JS.join [sep] cs ↔ (x = sep ∧ 2 ≤ length cs)%nat ∨ ∃ c, c ∈ cs ∧ x ∈ c.
Proof.
  induction cs as [|c cs IH].
  - simpl. split; [by intros ?%elem_of_nil|].
    intros [[_ ?]|(c & ?%elem_of_nil & _)]; [simpl in *; lia | done].
  - destruct cs as [|c' cs].
    + simpl. split.
      * intros Hx. right. exists c. split; [by left | done].
      * intros [[_ ?]|(c0 & Hc0%list_elem_of_singleton & Hx)];
          [simpl in *; lia | by subst].
    + rewrite join_cons by done. rewrite !elem_of_app, list_elem_of_singleton, IH.
      split.
      * intros [Hx|[->|[[-> _]|(c0 & Hc0 & Hx)]]].
        -- right. exists c. split; [by left | done].
        -- left. split; [done | simpl; lia].
        -- left. split; [done | simpl; lia].
        -- right. exists c0. split; [by right | done].
      * intros [[-> _]|(c0 & Hc0 & Hx)]; [by right; left|].
        apply elem_of_cons in Hc0 as [->|Hc0]; [by left|].
        right. right. right. by exists c0.
Qed.

Lemma elem_of_split sep s c x : c ∈ JS.split sep s → x ∈ c → x ∈ s.
Proof.
  revert c. induction s as [|y s IH]; intros c; simpl.
  - by intros ->%list_elem_of_singleton.
  - destruct (y =? sep)%N.
    + intros [->|Hc]%elem_of_cons Hx; [by apply elem_of_nil in Hx|].
      right. by apply (IH c).
    + pose proof (split_not_nil sep s) as Hnil.
      destruct (JS.split sep s) as [|seg segs]; [done|].
      intros [->|Hc]%elem_of_cons Hx.
      * apply elem_of_cons in Hx as [->|Hx]; [by left|].
        right. apply (IH seg); [by left | done].
      * right. apply (IH c); [by right | done].
Qed.

Lemma elem_of_normalize_fold cs : ∀ stack c,
  c ∈ fold_left (Path.normalize_step false) cs stack → c ∈ stack ∨ c ∈ cs.
Proof.
  induction cs as [|c0 cs IH]; intros stack c; simpl; [by left|].
  intros [Hin|Hin]%IH; [|by right; right].
  unfold Path.normalize_step in Hin.
  destruct (decide (c0 = [] ∨ c0 = [DOT])); [by left|].
  destruct (decide (c0 = Path.dotdot)).
  - destruct stack as [|top below]; [by left|].
    destruct (decide (top = Path.dotdot)); [by left|]. left. by right.
  - apply elem_of_cons in Hin as [->|Hin]; [right; by left | by left].
Qed.

(** The code units of a resolved path come from the text it was
    normalized from. *)
Lemma elem_of_normalizeString joined x :
  x ∈ Path.normalizeString joined false → x = SLASH ∨ x ∈ joined.
Proof.
  unfold Path.normalizeString, Path.normalize_comps.
  intros [[-> _]|(c & Hc & Hx)]%elem_of_join; [by left|]. right.
  rewrite list_elem_of_In, <- in_rev, <- list_elem_of_In in Hc.
  apply elem_of_normalize_fold in Hc as [Hc|Hc];
    [by apply elem_of_nil in Hc|].
  by apply (elem_of_split SLASH joined c).
Qed.

Lemma elem_of_resolve_under_root input x :
  x ∈ Path.resolve (cwd P) [REPO_ROOT P; input] →
  x = SLASH ∨ x ∈ REPO_ROOT P ∨ x ∈ input.
Proof.
  destruct (REPO_ROOT_form P cwd_absolute) as (R & HR & HeqR).
  unfold Path.resolve. cbn [Path.resolve_join].
  rewrite HeqR.
  destruct input as [|i input].
  - rewrite abs_path_absolute. cbn [negb].
    intros [->|[->|Hx]%elem_of_normalizeString]%elem_of_cons; [by left..|].
    apply elem_of_app in Hx as [Hx|Hx%list_elem_of_singleton]; [|by left].
    right. by left.
  - destruct (Path.isAbsolute (i :: input)); cbn [negb].
    + intros [->|[->|Hx]%elem_of_normalizeString]%elem_of_cons; [by left..|].
      apply elem_of_app in Hx as [Hx|Hx%list_elem_of_singleton]; [|by left].
      right. by right.
    + rewrite abs_path_absolute. cbn [negb].
      intros [->|[->|Hx]%elem_of_normalizeString]%elem_of_cons; [by left..|].
      apply elem_of_app in Hx as [Hx|Hx]; [right; by left|].
      apply elem_of_cons in Hx as [->|Hx]; [by left|].
      apply elem_of_app in Hx as [Hx|Hx%list_elem_of_singleton]; [|by left].
      right. by right.
Qed.

Lemma join_snoc_nil rest :
  rest ≠ [] → JS.join [SLASH] (rest ++ [[]]) = JS.join [SLASH] rest ++ [SLASH].
Proof.
  induction rest as [|c rest IH]; [done|]. intros _.
  destruct rest as [|c' rest]; [done|].
  change ((c :: c' :: rest) ++ [[]]) with (c :: ((c' :: rest) ++ [[]])).
  rewrite !join_cons by (by destruct rest). rewrite IH by done.
  by rewrite <- !app_assoc.
Qed.

(** Resolving the relative text of a descendant of the root gives the
    descendant back. *)
Lemma resolve_descendant R rest :
  Forall comp_ok R → Forall comp_ok rest →
  REPO_ROOT P = abs_path R →
  Path.resolve (cwd P) [REPO_ROOT P; JS.join [SLASH] rest]
  = abs_path (R ++ rest).
Proof.
  intros HR Hrest HeqR. destruct rest as [|c rest].
  - simpl JS.join. rewrite resolve_root_blank, app_nil_r. done.
  - apply Forall_cons in Hrest as Hrest'. destruct Hrest' as [Hc _].
    destruct (join_comp_ok_head c rest Hc) as (Hne & Habs & _).
    unfold Path.resolve.
    assert (Hjoin : Path.resolve_join
                      [cwd P; REPO_ROOT P; JS.join [SLASH] (c :: rest)]
                    = (abs_path R ++ SLASH
                         :: JS.join [SLASH] ((c :: rest) ++ [[]]), true)).
    { cbn [Path.resolve_join].
      destruct (JS.join [SLASH] (c :: rest)) as [|j tl] eqn:Hj; [done|].
      rewrite Habs, HeqR, abs_path_absolute. rewrite <- Hj.
      by rewrite join_snoc_nil. }
    rewrite Hjoin. cbn [negb].
    assert (Hclean : Forall (λ c : jsstring, c = [] ∨ comp_ok c)
                       ((c :: rest) ++ [[]])).
    { apply Forall_app. split.
      - eapply Forall_impl; [exact Hrest|]. by right.
      - repeat constructor. }
    destruct (normalize_abs_path_app R _ HR Hclean) as [Hn|?];
      [|by destruct rest].
    rewrite Hn, filter_app, filter_comp_ok by done.
    rewrite filter_cons_False by naive_solver.
    by rewrite filter_nil, app_nil_r.
Qed.

End ResolverMore.

(** X1.  A missing, empty or all-blank [path] parameter resolves to the
    repository root itself. *)
Theorem resolveRepoPath_blank (P : Process) (relativePath : option jsstring) :
  Path.isAbsolute (cwd P) = true →
  JS.trim (default [] relativePath) = [] →
  resolveRepoPath P relativePath = Ok (REPO_ROOT P).
Proof.
  intros Hcwd Hblank. rewrite resolveRepoPath_unfold, Hblank.
  rewrite resolve_root_blank by done. by rewrite isWithinRepo_root.
Qed.

Lemma resolveRepoPath_blank_witness :
  resolveRepoPath demo_process (Some (js "  " ++ [9%N; 10%N]))
  = Ok (js "/repo").
Proof.
  apply (resolveRepoPath_blank demo_process (Some (js "  " ++ [9%N; 10%N])));
    reflexivity.
Defined.

(** X2.  [isWithinRepo] accepts a path exactly when, once normalized,
    it is the root or lies under it and the first component below the
    root does not start with two dots: an entry of the root that is
    merely named [..x] is refused although it lies inside. *)
Theorem isWithinRepo_exact (P : Process) (absPath : jsstring) :
  Path.isAbsolute (cwd P) = true →
  isWithinRepo P absPath = true
  ↔ ∃ rest,
      Path.comps (Path.resolve (cwd P) [absPath])
      = Path.comps (REPO_ROOT P) ++ rest
      ∧ JS.startsWith (default [] (head rest)) Path.dotdot = false.
Proof.
  intros Hcwd.
  destruct (REPO_ROOT_form P Hcwd) as (R & HR & HeqR).
  destruct (resolve_form P Hcwd [absPath]) as (T & HT & HeqT).
  rewrite (isWithinRepo_components P absPath R T) by done.
  by rewrite HeqT, HeqR, !comps_abs_path.
Qed.

Lemma isWithinRepo_exact_witness :
  isWithinRepo demo_process (js "/repo/src/../docs/..drafts") = true
  ∧ isWithinRepo demo_process (js "/repo/..drafts") = false
  ∧ isWithinRepo demo_process (js "/repository") = false.
Proof.
  split; [|split; vm_compute; reflexivity].
  apply (isWithinRepo_exact demo_process); [reflexivity|].
  exists [js "docs"; js "..drafts"]. split; vm_compute; reflexivity.
Defined.

(** X3.  The repo-relative path reported for a resolved location leads
    back to that location: when [resolveRepoPath] returned [p], it
    returns [p] again for [toRepoRelativePath p], provided that text
    has no white space at its ends (which the resolver would trim). *)
Theorem resolveRepoPath_round_trip (P : Process) (raw p : jsstring) :
  Path.isAbsolute (cwd P) = true →
  0%N ∉ REPO_ROOT P →
  resolveRepoPath P (Some raw) = Ok p →
  JS.trim (toRepoRelativePath P p) = toRepoRelativePath P p →
  resolveRepoPath P (Some (toRepoRelativePath P p)) = Ok p.
Proof.
  intros Hcwd Hroot Hres Htrim.
  rewrite resolveRepoPath_some in Hres.
  destruct (JS.includes_unit (JS.trim raw) 0) eqn:Hnul; [done|].
  destruct (isWithinRepo P _) eqn:Hin; [|done]. simpl in Hres.
  injection Hres as Hp.
  assert (Hclean : 0%N ∉ p).
  { rewrite <- Hp. intros [?|[?|Hx]]%elem_of_resolve_under_root; try done.
    apply includes_unit_elem in Hx. congruence. }
  rewrite Hp in Hin.
  destruct (REPO_ROOT_form P Hcwd) as (R & HR & HeqR).
  destruct (resolve_under_root_form P (JS.trim raw) Hcwd) as (T & HT & HeqT).
  rewrite Hp in HeqT. clear Hp Hnul raw.
  assert (Hcanon : Path.resolve (cwd P) [p] = abs_path T)
    by (by rewrite HeqT, resolve_abs_path).
  pose proof (proj1 (isWithinRepo_components P p R T HR HT HeqR Hcanon)
                Hin) as (rest & -> & Hhead).
  apply Forall_app in HT as HT'. destruct HT' as [_ Hrest].
  assert (Hrel : toRepoRelativePath P p = JS.join [SLASH] rest).
  { unfold toRepoRelativePath.
    rewrite relative_formula, Hcanon, HeqR, resolve_abs_path by done.
    rewrite !comps_abs_path, strip_common_extend by done. cbn [fst snd map app].
    rewrite join_split. by destruct (JS.join [SLASH] rest). }
  rewrite Hrel in *. rewrite resolveRepoPath_some, Htrim.
  rewrite (resolve_descendant P Hcwd R rest) by done. rewrite <- HeqT, Hin.
  destruct (JS.includes_unit (JS.join [SLASH] rest) 0) eqn:Hnul; [|done].
  exfalso. apply Hclean. apply includes_unit_elem in Hnul.
  apply elem_of_join in Hnul as [[Hz _]|(c & Hc & Hx)]; [done|].
  rewrite HeqT. right. apply elem_of_join. right.
  exists c. split; [|done]. apply elem_of_app. by right.
Qed.

Lemma resolveRepoPath_round_trip_witness :
  toRepoRelativePath demo_process (js "/repo/docs/a b.md") = js "docs/a b.md"
  ∧ resolveRepoPath demo_process (Some (js "docs/a b.md"))
    = Ok (js "/repo/docs/a b.md").
Proof.
  assert (Hrel : toRepoRelativePath demo_process (js "/repo/docs/a b.md")
                 = js "docs/a b.md") by (vm_compute; reflexivity).
  split; [exact Hrel|]. rewrite <- Hrel.
  apply (resolveRepoPath_round_trip demo_process (js " ./src/../docs//a b.md"));
    [reflexivity | by_evaluation | vm_compute; reflexivity
    | vm_compute; reflexivity].
Defined.

(** Where the round trip stops: an entry whose name begins with a blank
    is listed under a relative path that resolves elsewhere. *)
Example resolveRepoPath_blank_name :
  resolveRepoPath demo_process (Some (js "./ notes.md"))
  = Ok (js "/repo/ notes.md")
  ∧ toRepoRelativePath demo_process (js "/repo/ notes.md") = js " notes.md"
  ∧ resolveRepoPath demo_process (Some (js " notes.md"))
    = Ok (js "/repo/notes.md").
Proof. repeat split; vm_compute; reflexivity. Qed.

(** ** Visibility filter: the ignored outcome, and what a passed check
    guarantees *)

Section VisibilityMore.
Context (P : Process) (H : Host).

Lemma truthy_nonempty s : JS.truthy s = true ↔ s ≠ [].
Proof. by destruct s. Qed.

Lemma elem_of_parseGitIgnoredStdout stdout x :
  x ∈ parseGitIgnoredStdout stdout
  ↔ x ≠ [] ∧ ∃ s line, stdout = Some s ∧ line ∈ JS.split_lines s
                        ∧ JS.trim line = x.
Proof.
  unfold parseGitIgnoredStdout. destruct stdout as [[|c s]|].
  - split; [by intros ?%elem_of_empty|].
    intros (Hne & s & line & [= <-] & Hline & Htrim).
    apply list_elem_of_singleton in Hline as ->. by rewrite trim_nil in Htrim.
  - rewrite elem_of_list_to_set, list_elem_of_In, filter_In, in_map_iff.
    rewrite truthy_nonempty. split.
    + intros [(line & Htrim & Hline) Hne]. split; [done|].
      exists (c :: s), line. by rewrite list_elem_of_In.
    + intros (Hne & s' & line & [= <-] & Hline & Htrim). split; [|done].
      exists line. by rewrite <- list_elem_of_In.
  - split; [by intros ?%elem_of_empty|]. by intros (_ & s & line & [=] & _).
Qed.

Lemma ignored_single rel :
  rel ≠ [] →
  rel ∈ getGitIgnoredPathSet P H [rel] ↔ listed_by_oracle P H rel.
Proof.
  intros Hne. unfold getGitIgnoredPathSet, listed_by_oracle.
  destruct rel as [|c rel]; [done|]. cbn [List.filter JS.truthy uniq].
  rewrite decide_False by apply not_elem_of_nil. cbn [uniq app].
  destruct (execFile_git H _) as [stdout|stdout]; cbn [stdout_of];
    rewrite elem_of_parseGitIgnoredStdout; split.
  - intros (_ & s & line & [= <-] & ? & ?). by exists stdout, line.
  - intros (s & line & [= <-] & ? & ?). split; [done|]. by exists stdout, line.
  - intros (_ & s & line & -> & ? & ?). by exists s, line.
  - intros (s & line & -> & ? & ?). split; [done|]. by exists s, line.
Qed.

Lemma assertPathAccessible_cases absPath options :
  let rel := toRepoRelativePath P absPath in
  assertPathAccessible P H absPath options
  = if negb (allowHidden options) && isHiddenRepoRelativePath rel
    then Err "Hidden paths are not accessible"
    else if negb (allowGitIgnored options) && JS.truthy rel
            && bool_decide (rel ∈ getGitIgnoredPathSet P H [rel])
    then Err "Gitignored paths are not accessible"
    else Ok tt.
Proof.
  cbv zeta. unfold assertPathAccessible, isBlockedHiddenRepoRelativePath.
  destruct (allowHidden options), (isHiddenRepoRelativePath _),
    (allowGitIgnored options), (JS.truthy _); try reflexivity;
    by destruct (bool_decide _).
Qed.

End VisibilityMore.


Example ignored_path_scenarios :
  assertPathAccessible demo_process working_host (js "/repo/node_modules")
    defaultOptions
  = Err "Gitignored paths are not accessible"
  ∧ assertPathAccessible demo_process working_host (js "/repo/node_modules")
      {| allowHidden := false; allowGitIgnored := true |} = Ok tt
  ∧ assertPathAccessible demo_process working_host (js "/repo/src/index.ts")
      defaultOptions = Ok tt
  ∧ assertPathAccessible demo_process working_host (js "/repo") defaultOptions
    = Ok tt.
Proof. repeat split; vm_compute; reflexivity. Qed.


Example ensure_scenarios :
  ensureFile demo_process working_host (js "/repo/shortcut") defaultOptions
  = Err "Hidden paths are not accessible"
  ∧ ensureFile demo_process working_host (js "/repo/src/index.ts")
      defaultOptions = Ok tt
  ∧ ensureFile demo_process working_host (js "/repo/src") defaultOptions
    = Err "Target path is not a file"
  ∧ ensureDirectory demo_process working_host (js "/repo/node_modules")
      defaultOptions
    = Err "Gitignored paths are not accessible"
  ∧ ensureFile demo_process working_host (js "/repo/missing") defaultOptions
    = Err "ENOENT: no such file or directory".
Proof. repeat split; vm_compute; reflexivity. Qed.

(** ** Upload file names: exact acceptance, sanitizing, the write path *)

Section UploadMore.

Lemma forallb_false_elem {A} (f : A → bool) (l : list A) :
  forallb f l = false → ∃ x, x ∈ l ∧ f x = false.
Proof.
  induction l as [|a l IH]; simpl; [done|].
  destruct (f a) eqn:Ha.
  - intros (x & Hx & Hfx)%IH. exists x. split; [by right | done].
  - intros _. exists a. split; [by left | done].
Qed.

Lemma existsb_false_elem {A} (f : A → bool) (l : list A) x :
  existsb f l = false → x ∈ l → f x = false.
Proof.
  intros Hex Hx. destruct (f x) eqn:Hfx; [|done].
  rewrite <- Hex. symmetry. apply existsb_exists. exists x.
  by rewrite <- list_elem_of_In.
Qed.

Lemma allowed_not_space c : allowed_filename_char c → JS.is_space c = false.
Proof.
  unfold allowed_filename_char, JS.is_space. intros Hc.
  apply not_true_is_false.
  rewrite !orb_true_iff, !andb_true_iff, !N.leb_le, !N.eqb_eq. lia.
Qed.

Lemma allowed_not_control c : allowed_filename_char c → (c <=? 31)%N = false.
Proof.
  unfold allowed_filename_char. intros Hc. apply N.leb_gt. lia.
Qed.

Lemma validate_accepts n :
  n ≠ [] → JS.startsWith n [DOT] = false →
  Forall allowed_filename_char n →
  JS.toLowerCase (Path.extname n) ∈ ALLOWED_IMAGE_EXTENSIONS →
  validateUploadFilename n = None.
Proof.
  intros Hne Hdot Hclass Hext. unfold validateUploadFilename.
  destruct n as [|c n]; [done|]. cbn [JS.truthy negb].
  assert (Hspace : existsb JS.is_space (c :: n) = false).
  { apply not_true_is_false. intros (x & Hx & Hsp)%existsb_exists.
    apply list_elem_of_In in Hx. rewrite Forall_forall in Hclass.
    apply Hclass, allowed_not_space in Hx. congruence. }
  rewrite Hspace, Hdot.
  assert (Hone : bool_decide (c :: n = [DOT]) = false).
  { apply bool_decide_eq_false. intros [= -> ->]. by simpl in Hdot. }
  assert (Htwo : bool_decide (c :: n = Path.dotdot) = false).
  { apply bool_decide_eq_false. intros [= -> ->]. by simpl in Hdot. }
  rewrite Hone, Htwo. cbn [orb].
  assert (Hall : forallb is_filename_unit (c :: n) = true).
  { apply forallb_forall. intros x Hx%list_elem_of_In.
    rewrite Forall_forall in Hclass. by apply is_filename_unit_allowed, Hclass. }
  rewrite Hall. cbn [andb negb].
  assert (Hinc : JS.includes ALLOWED_IMAGE_EXTENSIONS
                   (JS.toLowerCase (Path.extname (c :: n))) = true)
    by (by apply bool_decide_eq_true).
  rewrite Hinc.
  destruct (JS.toLowerCase (Path.extname (c :: n))) as [|e ext] eqn:Hlow;
    [|done].
  exfalso. revert Hext. by_evaluation.
Qed.

End UploadMore.

(** X6.  [validateUploadFilename] accepts a name exactly when it is
    non-empty, does not start with a dot, consists of characters of
    [[A-Za-z0-9._-]] only, and its extension, lower-cased, is one of the
    allowed image extensions. *)
Theorem validateUploadFilename_exact (fileName : jsstring) :
  validateUploadFilename fileName = None
  ↔ (∃ c rest, fileName = c :: rest ∧ c ≠ DOT)
    ∧ Forall allowed_filename_char fileName
    ∧ JS.toLowerCase (Path.extname fileName) ∈ ALLOWED_IMAGE_EXTENSIONS.
Proof.
  split.
  - intros (Hnil & Hspace & Hdot & Hclass & Hext)%validate_none_inv.
    destruct fileName as [|c rest]; [done|]. split; [|split].
    + exists c, rest. split; [done|]. intros ->. by simpl in Hdot.
    + apply Forall_forall. intros x Hx. rewrite forallb_forall in Hclass.
      by apply is_filename_unit_allowed, Hclass, list_elem_of_In.
    + by apply bool_decide_eq_true in Hext.
  - intros ((c & rest & -> & Hc) & Hclass & Hext).
    apply validate_accepts; try done.
    cbn [JS.startsWith]. apply andb_false_intro1, N.eqb_neq. congruence.
Qed.

(** ** Trimming and decimal rendering *)

Section TrimFacts.

Lemma trimStart_head s c t : JS.trimStart s = c :: t → JS.is_space c = false.
Proof.
  induction s as [|x s IH]; simpl; [done|].
  destruct (JS.is_space x) eqn:Hx; [done|]. by intros [= <- _].
Qed.

Lemma trimStart_fixed s :
  (∀ c t, s = c :: t → JS.is_space c = false) → JS.trimStart s = s.
Proof.
  destruct s as [|x s]; [done|]. intros Hhead. simpl.
  by rewrite (Hhead x s eq_refl).
Qed.

Lemma trimStart_idem s : JS.trimStart (JS.trimStart s) = JS.trimStart s.
Proof. apply trimStart_fixed. intros c t. apply trimStart_head. Qed.

Lemma trimStart_suffix s : ∃ pre, s = pre ++ JS.trimStart s.
Proof.
  induction s as [|x s [pre IH]]; simpl; [by exists []|].
  destruct (JS.is_space x); [|by exists []].
  exists (x :: pre). by rewrite <- app_comm_cons, <- IH.
Qed.

Lemma trim_idem s : JS.trim (JS.trim s) = JS.trim s.
Proof.
  unfold JS.trim, JS.trimEnd.
  set (t1 := JS.trimStart s). set (t2 := JS.trimStart (rev t1)).
  assert (Hfront : JS.trimStart (rev t2) = rev t2).
  { apply trimStart_fixed. intros c t Hrev.
    destruct (trimStart_suffix (rev t1)) as [pre Hpre]. fold t2 in Hpre.
    apply (f_equal (@rev N)) in Hpre.
    rewrite rev_involutive, rev_app_distr, Hrev in Hpre.
    subst t1. by apply trimStart_head in Hpre. }
  rewrite Hfront, rev_involutive. subst t2. by rewrite trimStart_idem.
Qed.

Lemma trim_free s : Forall (λ c, JS.is_space c = false) s → JS.trim s = s.
Proof.
  intros Hs. unfold JS.trim, JS.trimEnd.
  rewrite (trimStart_fixed s).
  - rewrite trimStart_fixed; [apply rev_involutive|].
    intros c t Hrev. rewrite Forall_forall in Hs. apply Hs.
    rewrite list_elem_of_In, in_rev, Hrev. by left.
  - intros c t ->. by apply Forall_cons in Hs as [? _].
Qed.

(** The decimal rendering of an integer: digits, after an optional
    minus sign. *)
Lemma string_of_uint_digits d c :
  c ∈ JS.str (NilEmpty.string_of_uint d) → (48 ≤ c ≤ 57)%N.
Proof.
  induction d; simpl; try (by intros ?%elem_of_nil);
    (intros [->|Hc]%elem_of_cons; [by vm_compute | by apply IHd]).
Qed.

Lemma of_Z_chars z c : c ∈ JS.of_Z z → (48 ≤ c ≤ 57 ∨ c = 45)%N.
Proof.
  unfold JS.of_Z. destruct (Z.to_int z) as [d|d]; simpl.
  - intros Hc%string_of_uint_digits. by left.
  - intros [->|Hc%string_of_uint_digits]%elem_of_cons; [by right | by left].
Qed.

Lemma of_Z_nonneg_digits z c : 0 ≤ z → c ∈ JS.of_Z z → (48 ≤ c ≤ 57)%N.
Proof.
  intros Hz. unfold JS.of_Z. destruct z as [|p|p]; [| |lia]; simpl.
  - intros Hc%list_elem_of_singleton. subst. by vm_compute.
  - apply string_of_uint_digits.
Qed.

End TrimFacts.

Section SanitizeFacts.

Lemma basename_cases p :
  Path.basename p = [] ∨ (Path.basename p ≠ [] ∧ SLASH ∉ Path.basename p).
Proof.
  unfold Path.basename. destruct (last (Path.comps p)) as [b|] eqn:Hlast;
    [|by left].
  right. apply last_Some_elem_of in Hlast. unfold Path.comps in Hlast.
  apply list_elem_of_filter in Hlast as [Hne Hin]. split; [done|].
  pose proof (split_segments_free SLASH p) as Hfree.
  rewrite Forall_forall in Hfree. by apply Hfree.
Qed.

Lemma basename_component n : n ≠ [] → SLASH ∉ n → Path.basename n = n.
Proof.
  intros Hne Hslash. unfold Path.basename, Path.comps.
  rewrite split_free by done. by rewrite filter_cons_True, filter_nil.
Qed.

Lemma control_leb c : (c <=? 31)%N = is_control c.
Proof.
  unfold is_control. destruct (N.leb_spec c 31), (N.ltb_spec c 32); lia.
Qed.

Lemma filter_controls_clean s c :
  c ∈ List.filter (λ c, negb (c <=? 31)%N) s → is_control c = false ∧ c ∈ s.
Proof.
  rewrite list_elem_of_In, filter_In, <- list_elem_of_In, control_leb.
  intros [? ?%negb_true_iff]. done.
Qed.

Lemma filter_controls_fixed s :
  (∀ c, c ∈ s → is_control c = false) →
  List.filter (λ c, negb (c <=? 31)%N) s = s.
Proof.
  induction s as [|x s IH]; intros Hs; [done|]. simpl.
  rewrite control_leb, (Hs x) by (by left). cbn [negb].
  rewrite IH; [done|]. intros c Hc. apply Hs. by right.
Qed.

Lemma fallback_name_clean now : clean_name (js "upload-" ++ JS.of_Z now).
Proof.
  assert (Hchars : ∀ c, c ∈ js "upload-" ++ JS.of_Z now →
                        (97 ≤ c ≤ 122 ∨ 48 ≤ c ≤ 57 ∨ c = 45)%N).
  { intros c [Hc|Hc%of_Z_chars]%elem_of_app; [|lia].
    vm_compute in Hc. repeat (apply elem_of_cons in Hc as [->|Hc]; [lia|]).
    by apply elem_of_nil in Hc. }
  split; [|split].
  - repeat split; try discriminate.
    intros Hc%Hchars. unfold SLASH in Hc. lia.
  - intros c Hc%Hchars. unfold is_control. apply N.ltb_ge. lia.
  - apply trim_free, Forall_forall. intros c Hc%Hchars.
    apply allowed_not_space. unfold allowed_filename_char. lia.
Qed.

Lemma sanitize_clean originalName now :
  clean_name (sanitizeUploadFilename originalName now).
Proof.
  unfold sanitizeUploadFilename.
  set (stripped := List.filter _ (Path.basename originalName)).
  destruct (negb (JS.truthy (JS.trim stripped))
            || bool_decide (JS.trim stripped = [DOT])
            || bool_decide (JS.trim stripped = Path.dotdot)) eqn:Hfall;
    [apply fallback_name_clean|].
  apply orb_false_iff in Hfall as [[Hne Hdot]%orb_false_iff Hdd].
  apply negb_false_iff, truthy_nonempty in Hne.
  apply bool_decide_eq_false in Hdot, Hdd.
  assert (Hsub : ∀ c, c ∈ JS.trim stripped →
                      is_control c = false ∧ c ∈ Path.basename originalName).
  { intros c Hc%trim_subset. by apply filter_controls_clean. }
  split; [|split].
  - repeat split; try done. intros [_ Hin]%Hsub.
    destruct (basename_cases originalName) as [Hb|[_ Hb]]; [|done].
    rewrite Hb in Hin. by apply elem_of_nil in Hin.
  - intros c Hc. by apply Hsub.
  - apply trim_idem.
Qed.

Lemma sanitize_fixed n now :
  clean_name n → sanitizeUploadFilename n now = n.
Proof.
  intros ((Hne & Hdot & Hdd & Hslash) & Hctl & Htrim).
  unfold sanitizeUploadFilename.
  rewrite basename_component, filter_controls_fixed, Htrim by done.
  rewrite (proj2 (truthy_nonempty n) Hne).
  by rewrite !bool_decide_eq_false_2.
Qed.

Lemma validated_clean n : validateUploadFilename n = None → clean_name n.
Proof.
  intros Hval. destruct (validated_comp_ok n Hval) as [Hok _].
  apply validate_none_inv in Hval as (_ & _ & _ & Hclass & _).
  rewrite forallb_forall in Hclass.
  assert (Hall : ∀ c, c ∈ n → allowed_filename_char c).
  { intros c Hc. by apply is_filename_unit_allowed, Hclass, list_elem_of_In. }
  split; [done|]. split.
  - intros c Hc%Hall. rewrite <- control_leb. by apply allowed_not_control.
  - apply trim_free, Forall_forall. intros c Hc%Hall.
    by apply allowed_not_space.
Qed.

End SanitizeFacts.

(** X7.  Whatever name a client sends, the sanitized name is a single
    clean path component: not empty, not [.] or [..], without slash,
    control character or surrounding white space; resolved against a
    directory it names an entry directly inside that directory. *)
Theorem sanitizeUploadFilename_clean (originalName : jsstring) (now : Z) :
  clean_name (sanitizeUploadFilename originalName now)
  ∧ ∀ cwd D, Forall comp_ok D →
      Path.resolve cwd [abs_path D; sanitizeUploadFilename originalName now]
      = abs_path (D ++ [sanitizeUploadFilename originalName now]).
Proof.
  split; [apply sanitize_clean|]. intros cwd D HD.
  apply resolve_child; [done|]. apply sanitize_clean.
Qed.

(** X8.  Sanitizing is idempotent, and it leaves every name that
    passes validation unchanged: the name a client validated is the name
    under which the file is stored and later addressed. *)
Theorem sanitizeUploadFilename_idempotent (originalName : jsstring)
    (now now' : Z) :
  sanitizeUploadFilename (sanitizeUploadFilename originalName now) now'
  = sanitizeUploadFilename originalName now
  ∧ ∀ fileName, validateUploadFilename fileName = None →
                sanitizeUploadFilename fileName now = fileName.
Proof.
  split.
  - apply sanitize_fixed, sanitize_clean.
  - intros fileName Hval. by apply sanitize_fixed, validated_clean.
Qed.

Example sanitizeUploadFilename_scenarios :
  sanitizeUploadFilename (js "C:/tmp/../  my" ++ [7%N] ++ js " shot.png  ") 5
  = js "my shot.png"
  ∧ sanitizeUploadFilename (js "a/b/") 5 = js "b"
  ∧ sanitizeUploadFilename (js "///") 5 = js "upload-5"
  ∧ sanitizeUploadFilename (js " . ") (-3) = js "upload--3".
Proof. repeat split; vm_compute; reflexivity. Qed.

Section UploadPath.
Context (P : Process).
Hypothesis cwd_absolute : Path.isAbsolute (cwd P) = true.

Lemma join_snoc C name :
  C ≠ [] → JS.join [SLASH] (C ++ [name]) = JS.join [SLASH] C ++ SLASH :: name.
Proof.
  induction C as [|c C IH]; [done|]. intros _. destruct C as [|c' C]; [done|].
  change ((c :: c' :: C) ++ [name]) with (c :: ((c' :: C) ++ [name])).
  rewrite !join_cons by (by destruct C). rewrite IH by done.
  by rewrite <- !app_assoc.
Qed.

Lemma last_comp_not_slash p name c t :
  name = c :: t → SLASH ∉ name → last (p ++ SLASH :: name) ≠ Some SLASH.
Proof.
  intros -> Hslash Hlast. rewrite last_app, last_cons_cons in Hlast.
  destruct (proj2 (last_is_Some (c :: t))) as [z Hz]; [done|].
  rewrite Hz in Hlast. apply last_Some_elem_of in Hz. by simplify_eq.
Qed.

(** [path.join] of a normal directory and a clean name. *)
Lemma path_join_child D name :
  Forall comp_ok D → comp_ok name →
  Path.join [abs_path D; name] = abs_path (D ++ [name]).
Proof.
  intros HD Hname. pose proof Hname as (Hne & _ & _ & Hslash).
  unfold Path.join. rewrite filter_cons_True by done.
  rewrite filter_cons_True by done. rewrite filter_nil.
  cbn [JS.join]. unfold Path.normalize.
  change (abs_path D ++ [SLASH] ++ name) with (abs_path D ++ SLASH :: name).
  assert (Hclean : Forall (λ c : jsstring, c = [] ∨ comp_ok c) [name])
    by (constructor; [by right | constructor]).
  destruct (normalize_abs_path_app D [name] HD Hclean) as [Hn|?]; [|done].
  cbn [JS.join] in Hn. rewrite filter_cons_True, filter_nil in Hn by done.
  destruct name as [|c t] eqn:Hnm; [done|]. rewrite <- Hnm in *.
  assert (Habs : Path.isAbsolute (abs_path D ++ SLASH :: name) = true) by done.
  assert (Hlast : bool_decide (last (abs_path D ++ SLASH :: name) = Some SLASH)
                  = false).
  { apply bool_decide_eq_false.
    by eapply (last_comp_not_slash (abs_path D) name c t). }
  change (match abs_path D ++ SLASH :: name with [] => [DOT] | _ =>
            let abs := Path.isAbsolute (abs_path D ++ SLASH :: name) in
            let trailing :=
              bool_decide (last (abs_path D ++ SLASH :: name) = Some SLASH) in
            let n := Path.normalizeString (abs_path D ++ SLASH :: name)
                       (negb abs) in
            let n1 := match n with
                      | [] => if abs then []
                              else if trailing then [DOT; SLASH] else [DOT]
                      | _ => if trailing then n ++ [SLASH] else n
                      end in
            if abs then SLASH :: n1 else n1
          end = abs_path (D ++ [name])).
  cbv zeta. rewrite Habs, Hlast. cbn [negb]. rewrite Hn.
  unfold abs_path at 2. by destruct (JS.join [SLASH] (D ++ [name])).
Qed.

Lemma CLIPBOARD_form :
  ∃ C, Forall comp_ok C ∧ C ≠ []
       ∧ CLIPBOARD_DIRECTORY_PATH P = abs_path C.
Proof.
  destruct (REPO_ROOT_form P cwd_absolute) as (R & HR & HeqR).
  exists (R ++ [CLIPBOARD_DIRECTORY_NAME]).
  assert (Hname : comp_ok CLIPBOARD_DIRECTORY_NAME).
  { repeat split; try discriminate. by_evaluation. }
  split; [apply Forall_app; auto|]. split; [by destruct R|].
  unfold CLIPBOARD_DIRECTORY_PATH. rewrite HeqR. by apply resolve_child.
Qed.

(** A name that is valid once sanitized is resolved to the entry of
    that name in the directory. *)
Lemma resolveNamedImagePath_valid base requested now D :
  validateUploadFilename (sanitizeUploadFilename requested now) = None →
  Forall comp_ok D → Path.resolve (cwd P) [base] = abs_path D →
  resolveNamedImagePath P base requested now
  = Ok {| image_path := abs_path (D ++ [sanitizeUploadFilename requested now]);
          image_name := sanitizeUploadFilename requested now |}.
Proof.
  intros Hval HD HeqD. unfold resolveNamedImagePath. rewrite Hval, HeqD.
  destruct (validated_comp_ok _ Hval) as [Hok Hdots].
  rewrite resolve_child by done.
  assert (Hall : Forall comp_ok (D ++ [sanitizeUploadFilename requested now]))
    by (apply Forall_app; auto).
  rewrite (relative_abs_paths P D _ HD Hall), strip_common_extend.
  cbn [fst snd map app JS.join]. rewrite Hdots.
  by destruct (comp_ok_relative _ Hok) as [_ ->].
Qed.

End UploadPath.

(** X9.  When the storage engine accepts an upload, it opens exactly
    one write stream, on the entry of the validated name directly inside
    the clipboard directory, and only after finding no file there: an
    existing file is never written over.  The serve and delete
    endpoints, given that name, address the very same path. *)
Theorem upload_written_path (P : Process) (H : Host)
    (query : option QueryValue) (now : Z) (name : jsstring)
    (effects : list FsEffect) :
  Path.isAbsolute (cwd P) = true →
  diskStorage_handleFile P H query now = (Ok name, effects) →
  let target := CLIPBOARD_DIRECTORY_PATH P ++ SLASH :: name in
  validateUploadFilename name = None
  ∧ effects = [Mkdir (CLIPBOARD_DIRECTORY_PATH P); CreateWriteStream target]
  ∧ fs_existsSync H target = false
  ∧ Path.comps target = Path.comps (CLIPBOARD_DIRECTORY_PATH P) ++ [name]
  ∧ ∀ now', resolveNamedImagePath P (CLIPBOARD_DIRECTORY_PATH P) name now'
            = Ok {| image_path := target; image_name := name |}.
Proof.
  intros Hcwd Hrun. cbv zeta.
  destruct (CLIPBOARD_form P Hcwd) as (C & HC & HCne & HeqC).
  unfold diskStorage_handleFile in Hrun.
  destruct (storage_destination P H) as [destination|] eqn:Hdest; [|done].
  assert (destination = CLIPBOARD_DIRECTORY_PATH P) as ->.
  { unfold storage_destination in Hdest.
    destruct (ensureClipboardDirectoryReady P H); [|done].
    by injection Hdest. }
  destruct (storage_filename H _ query now) as [filename|] eqn:Hname;
    [|done].
  injection Hrun as -> <-.
  unfold storage_filename in Hname. rewrite HeqC in Hname.
  cbn [abs_path] in Hname.
  destruct (negb (JS.truthy_opt (getSingleQueryValue query))); [done|].
  destruct (validateUploadFilename _) eqn:Hval; [done|].
  destruct (fs_existsSync H _) eqn:Hexists; [done|].
  injection Hname as Hname. rewrite Hname in *. clear Hname.
  destruct (validated_comp_ok name Hval) as [Hok _].
  change (SLASH :: JS.join [SLASH] C) with (abs_path C) in Hexists.
  rewrite path_join_child in Hexists by done.
  assert (Htarget : abs_path (C ++ [name])
                    = CLIPBOARD_DIRECTORY_PATH P ++ SLASH :: name).
  { rewrite HeqC. unfold abs_path. by rewrite join_snoc. }
  assert (Hall : Forall comp_ok (C ++ [name])) by (apply Forall_app; auto).
  rewrite <- Htarget. split; [done|]. split.
  { rewrite HeqC, path_join_child by done. done. }
  split; [done|]. split.
  { rewrite HeqC, !comps_abs_path by done. done. }
  intros now'.
  pose proof (sanitize_fixed name now' (validated_clean name Hval)) as Hfix.
  rewrite (resolveNamedImagePath_valid P _ name now' C); rewrite ?Hfix;
    try done.
  by rewrite HeqC, resolve_abs_path.
Qed.

Lemma upload_written_path_witness :
  diskStorage_handleFile demo_process working_host
    (Some (QString (js "tmp/new-shot.PNG"))) 0
  = (Ok (js "new-shot.PNG"),
     [Mkdir (js "/repo/.clipboard");
      CreateWriteStream (js "/repo/.clipboard/new-shot.PNG")])
  ∧ fs_existsSync working_host (js "/repo/.clipboard/new-shot.PNG") = false
  ∧ diskStorage_handleFile demo_process working_host
      (Some (QString (js "shot.png"))) 0
    = (Err "Filename already exists", [Mkdir (js "/repo/.clipboard")]).
Proof.
  assert (Hrun : diskStorage_handleFile demo_process working_host
                   (Some (QString (js "tmp/new-shot.PNG"))) 0
                 = (Ok (js "new-shot.PNG"),
                    [Mkdir (js "/repo/.clipboard");
                     CreateWriteStream (js "/repo/.clipboard/new-shot.PNG")]))
    by (vm_compute; reflexivity).
  split; [exact Hrun|]. split; [|vm_compute; reflexivity].
  pose proof (upload_written_path demo_process working_host _ _ _ _
                eq_refl Hrun) as (_ & _ & Hfree & _).
  exact Hfree.
Defined.

(** ** Cache validators: injectivity of the tag, round trip, staleness *)

Section TagFacts.

Lemma str_inj s1 s2 : JS.str s1 = JS.str s2 → s1 = s2.
Proof.
  unfold JS.str. intros Heq.
  assert (Hlist : list_ascii_of_string s1 = list_ascii_of_string s2).
  { revert Heq. generalize (list_ascii_of_string s1) (list_ascii_of_string s2).
    induction l as [|a l IH]; intros [|b l']; simpl; try done.
    intros [= Hab Hl]. f_equal; [|by apply IH].
    by rewrite <- (ascii_N_embedding a), <- (ascii_N_embedding b), Hab. }
  rewrite <- (string_of_list_ascii_of_string s1),
          <- (string_of_list_ascii_of_string s2). by rewrite Hlist.
Qed.

Lemma string_of_int_inj d1 d2 :
  NilEmpty.string_of_int d1 = NilEmpty.string_of_int d2 → d1 = d2.
Proof.
  intros Heq. apply (f_equal NilEmpty.int_of_string) in Heq.
  rewrite !NilEmpty.isi in Heq. by injection Heq.
Qed.

Lemma of_Z_inj a b : JS.of_Z a = JS.of_Z b → a = b.
Proof.
  unfold JS.of_Z. intros Heq%str_inj%string_of_int_inj.
  by apply DecimalZ.to_int_inj.
Qed.

Lemma app_sep_inj {A} (x : A) l1 l2 r1 r2 :
  x ∉ l1 → x ∉ l2 → l1 ++ x :: r1 = l2 ++ x :: r2 → l1 = l2 ∧ r1 = r2.
Proof.
  revert l2. induction l1 as [|a l1 IH]; intros [|b l2] H1 H2 Heq;
    simpl in Heq.
  - by injection Heq.
  - injection Heq as <- _. exfalso. apply H2. by left.
  - injection Heq as -> _. exfalso. apply H1. by left.
  - injection Heq as -> Heq.
    apply not_elem_of_cons in H1 as [_ H1], H2 as [_ H2].
    destruct (IH l2 H1 H2 Heq) as [-> ->]. done.
Qed.

Lemma buildWeakETag_inj s1 s2 :
  0 ≤ size s1 → 0 ≤ size s2 →
  buildWeakETag s1 = buildWeakETag s2 →
  size s1 = size s2
  ∧ Qround.Qfloor (mtimeMs s1) = Qround.Qfloor (mtimeMs s2).
Proof.
  intros H1 H2. unfold buildWeakETag.
  intros Heq%app_inv_head%app_inv_head.
  change (js "-" ++ ?x) with (45%N :: x) in Heq.
  apply app_sep_inj in Heq as [Hsize Htime].
  - split; [by apply of_Z_inj|].
    apply app_inj_tail in Htime as [Htime _]. by apply of_Z_inj.
  - intros Hc%of_Z_nonneg_digits; [lia | done].
  - intros Hc%of_Z_nonneg_digits; [lia | done].
Qed.

Lemma buildWeakETag_chars stats c :
  c ∈ buildWeakETag stats →
  (c = 87 ∨ c = 47 ∨ c = 34 ∨ c = 45 ∨ 48 ≤ c ≤ 57)%N.
Proof.
  unfold buildWeakETag.
  rewrite !elem_of_app.
  intros [Hc|[Hc|[Hc|[Hc|[Hc|Hc]]]]];
    try (apply of_Z_chars in Hc; lia);
    vm_compute in Hc;
    repeat (apply elem_of_cons in Hc as [->|Hc]; [lia|]);
    by apply elem_of_nil in Hc.
Qed.

Lemma buildWeakETag_plain stats :
  (COMMA ∉ buildWeakETag stats)
  ∧ JS.trim (buildWeakETag stats) = buildWeakETag stats
  ∧ buildWeakETag stats ≠ js "*"
  ∧ buildWeakETag stats ≠ [].
Proof.
  split; [|split; [|split]].
  - intros Hc%buildWeakETag_chars. unfold COMMA in Hc. lia.
  - apply trim_free, Forall_forall. intros c Hc%buildWeakETag_chars.
    apply not_true_is_false. unfold JS.is_space.
    rewrite !orb_true_iff, !andb_true_iff, !N.leb_le, !N.eqb_eq. lia.
  - done.
  - done.
Qed.

End TagFacts.

(** X10.  The weak tag determines the byte size and the whole
    millisecond of the modification time: whenever either changes, so
    does the tag. *)
Theorem buildWeakETag_injective (s1 s2 : Stats) :
  0 ≤ size s1 → 0 ≤ size s2 →
  buildWeakETag s1 = buildWeakETag s2 →
  size s1 = size s2
  ∧ Qround.Qfloor (mtimeMs s1) = Qround.Qfloor (mtimeMs s2).
Proof. apply buildWeakETag_inj. Qed.

Lemma buildWeakETag_injective_witness :
  size demo_stats = size demo_file_stats
  ∧ Qround.Qfloor (mtimeMs demo_stats)
    = Qround.Qfloor (mtimeMs demo_file_stats).
Proof.
  apply (buildWeakETag_injective demo_stats demo_file_stats);
    [discriminate | discriminate | vm_compute; reflexivity].
Defined.

(** X11.  A client that sends back the tag it was given, alone or as
    one of several comma-separated values with optional blanks around
    them, is answered 304. *)
Theorem etag_round_trip (RT : Runtime) (req : Request) (stats : Stats) :
  (header req (js "if-none-match") = Some (buildWeakETag stats) →
   (setImageCacheHeaders RT req stats).1 = true)
  ∧ ∀ values,
      header req (js "if-none-match") = Some (JS.join [COMMA] values) →
      Forall (λ v, COMMA ∉ v) values →
      buildWeakETag stats ∈ map JS.trim values →
      (setImageCacheHeaders RT req stats).1 = true.
Proof.
  destruct (buildWeakETag_plain stats) as (Hcomma & Htrim & _ & Hne).
  assert (Hlist : ∀ values,
    header req (js "if-none-match") = Some (JS.join [COMMA] values) →
    Forall (λ v, COMMA ∉ v) values →
    buildWeakETag stats ∈ map JS.trim values →
    (setImageCacheHeaders RT req stats).1 = true).
  { intros values Hheader Hfree Hin. unfold setImageCacheHeaders. cbn [fst].
    apply shouldRespondNotModified_spec; [done|]. left.
    apply list_elem_of_In, in_map_iff in Hin as (e & He & Hin).
    exists (JS.join [COMMA] values), e. split; [done|].
    split; [|by right].
    rewrite split_join; [by apply list_elem_of_In | by destruct values | done]. }
  split; [|exact Hlist].
  intros Hheader. apply (Hlist [buildWeakETag stats]); [done|by constructor|].
  simpl. rewrite Htrim. by left.
Qed.

Lemma etag_round_trip_witness :
  (setImageCacheHeaders demo_runtime
     (demo_request (js "GET")
        [(js "if-none-match", buildWeakETag demo_stats)])
     demo_stats).1 = true.
Proof.
  apply (etag_round_trip demo_runtime). vm_compute. reflexivity.
Defined.

(** X12.  Once the size or the whole millisecond of the modification
    time has changed, the tag of the earlier state no longer gives 304:
    a request that carries only that tag is served the new content. *)
Theorem stale_etag_served (RT : Runtime) (req : Request) (old new : Stats) :
  0 ≤ size old → 0 ≤ size new →
  size old ≠ size new
  ∨ Qround.Qfloor (mtimeMs old) ≠ Qround.Qfloor (mtimeMs new) →
  header req (js "if-none-match") = Some (buildWeakETag old) →
  header req (js "if-modified-since") = None →
  (setImageCacheHeaders RT req new).1 = false.
Proof.
  intros Hold Hnew Hchanged Hinm Hims.
  destruct (buildWeakETag_plain old) as (Hcomma & Htrim & Hstar & _).
  destruct (buildWeakETag_plain new) as (_ & _ & _ & Hne).
  apply not_true_is_false. unfold setImageCacheHeaders. cbn [fst].
  rewrite shouldRespondNotModified_spec by done.
  intros [(v & c & Hv & Hc & Htag)|(s & t & Hs & _)]; [|congruence].
  rewrite Hinm in Hv. injection Hv as <-.
  rewrite split_free in Hc by done. apply list_elem_of_singleton in Hc as ->.
  rewrite Htrim in Htag. destruct Htag as [Htag|Htag]; [done|].
  apply buildWeakETag_inj in Htag as [? ?]; [|done..].
  destruct Hchanged; congruence.
Qed.

Lemma stale_etag_served_witness :
  let grown :=
    {| isFile := true; isDirectory := false; size := 2048;
       mtimeMs := mtimeMs demo_stats |} in
  (setImageCacheHeaders demo_runtime
     (demo_request (js "GET")
        [(js "if-none-match", buildWeakETag demo_stats)])
     grown).1 = false.
Proof.
  cbv zeta.
  apply (stale_etag_served demo_runtime _ demo_stats);
    [discriminate | discriminate | left; discriminate
    | vm_compute; reflexivity | vm_compute; reflexivity].
Defined.

(** ** Authentication gateway: isolation, resets, thresholds, delays *)

Section GatewayMore.
Context (RT : Runtime) (P : Process).

Lemma gateway_open clock req st :
  BASIC_AUTH_PASSWORD P = [] → gateway RT P clock req st = (Next, st).
Proof. intros Hpw. unfold gateway. by rewrite Hpw. Qed.

Lemma gateway_other_any client clock req st :
  clientIPAddress req ≠ client →
  (gateway RT P clock req st).2 !! client = st !! client.
Proof.
  intros Hother. destruct (BASIC_AUTH_PASSWORD P) as [|c pw] eqn:Hpw.
  - by rewrite gateway_open.
  - apply gateway_other; [by rewrite Hpw | done].
Qed.

Lemma serve_others client trace : ∀ st,
  Forall (λ cr, ¬ sent_by client cr) trace →
  (serve RT P trace st).2 !! client = st !! client.
Proof.
  induction trace as [|[clock req] trace IH]; intros st Hall; [done|].
  apply Forall_cons in Hall as [Hhead Hall].
  rewrite serve_cons. cbn [snd]. rewrite IH by done.
  by apply gateway_other_any.
Qed.

Hypothesis password_set : BASIC_AUTH_PASSWORD P ≠ [].

(** What one pass does when the entry check lets the request in. *)
Lemma gateway_admitted clock req st :
  blocked_at (t_entry clock) (st !! clientIPAddress req) = None →
  credentials_ok RT (BASIC_AUTH_PASSWORD P) req = true →
  gateway RT P clock req st
  = (if is_mutating (method req) && negb (isSameOriginMutation RT req)
     then Send 403 [] (js "Origin validation failed") else Next,
     delete (clientIPAddress req) st).
Proof.
  intros Hfree Hcred. rewrite gateway_installed by done.
  unfold auth_middleware. rewrite Hfree, Hcred. by destruct (_ && _).
Qed.

Lemma blocked_at_unset now e :
  blockedUntil e = 0 → blocked_at now (Some e) = None.
Proof. intros Hbu. unfold blocked_at. by rewrite Hbu. Qed.

Lemma blocked_at_elapsed now e :
  blockedUntil e ≤ now → blocked_at now (Some e) = None.
Proof.
  intros Hbu. unfold blocked_at.
  rewrite (proj2 (Z.ltb_ge _ _) Hbu). by rewrite andb_false_r.
Qed.

(** A failed attempt of a client that is not blocked: the record it
    leaves and the answer, by cases on the record found. *)
Lemma gateway_failure clock req st :
  blocked_at (t_entry clock) (st !! clientIPAddress req) = None →
  credentials_ok RT (BASIC_AUTH_PASSWORD P) req = false →
  gateway RT P clock req st
  = ((match (recordAuthFailure (t_failure clock) req st).1 with
      | Some until =>
          if negb (until =? 0)
          then tooManyFailures (ceil_seconds (until - t_reply clock))
          else authenticationRequired
      | None => authenticationRequired
      end),
     (recordAuthFailure (t_failure clock) req st).2).
Proof.
  intros Hfree Hcred. rewrite gateway_installed by done.
  unfold auth_middleware. rewrite Hfree, Hcred.
  destruct (recordAuthFailure _ _ _) as [[until|] st']; [|done].
  cbn [fst snd]. by destruct (negb _).
Qed.

End GatewayMore.

Section ThresholdFacts.
Context (RT : Runtime) (P : Process).
Hypothesis password_set : BASIC_AUTH_PASSWORD P ≠ [].

Lemma gateway_below_threshold clock req st k :
  0 ≤ k →
  at_most_failures k (st !! clientIPAddress req) →
  k + 1 < AUTH_MAX_ATTEMPTS →
  at_most_failures (k + 1)
    ((gateway RT P clock req st).2 !! clientIPAddress req)
  ∧ status_of (gateway RT P clock req st).1 ≠ Some 429.
Proof.
  intros Hpos Hinv Hk.
  assert (Hfree : blocked_at (t_entry clock) (st !! clientIPAddress req)
                  = None).
  { destruct (st !! clientIPAddress req) as [e|]; [|done].
    destruct Hinv as [Hbu _]. by apply blocked_at_unset. }
  destruct (credentials_ok RT (BASIC_AUTH_PASSWORD P) req) eqn:Hcred.
  - rewrite gateway_admitted by done. cbn [fst snd].
    rewrite lookup_delete_eq. split; [done|]. by destruct (_ && _).
  - rewrite gateway_failure by done. cbn [fst snd].
    unfold recordAuthFailure.
    destruct (st !! clientIPAddress req) as [e|] eqn:Hrec.
    + destruct Hinv as [Hbu Hcount].
      destruct (bool_decide (AUTH_WINDOW_MS ≤ _)); cbn [fst snd].
      * rewrite lookup_insert_eq. cbn. split; [split; [done|lia] | done].
      * rewrite bool_decide_eq_false_2 by lia. cbn [fst snd].
        rewrite lookup_insert_eq. cbn. split; [split; [done|lia] | done].
    + cbn [fst snd]. rewrite lookup_insert_eq. cbn.
      split; [split; [done|lia] | done].
Qed.

Lemma at_most_failures_mono k k' record :
  k ≤ k' → at_most_failures k record → at_most_failures k' record.
Proof. intros Hk. destruct record as [e|]; [|done]. intros [? ?]. split; [done|lia]. Qed.

Lemma serve_below_threshold client trace : ∀ st k,
  0 ≤ k →
  at_most_failures k (st !! client) →
  k + Z.of_nat (count_from client trace) < AUTH_MAX_ATTEMPTS →
  Forall2 (λ cr o, sent_by client cr → status_of o ≠ Some 429)
    trace (serve RT P trace st).1.
Proof.
  induction trace as [|[clock req] trace IH]; intros st k Hpos Hinv Hcount.
  - constructor.
  - rewrite count_from_cons in Hcount. rewrite serve_cons. cbn [fst snd].
    destruct (decide (sent_by client (clock, req))) as [Hsent|Hother].
    + unfold sent_by in Hsent. cbn [snd] in Hsent. subst client.
      destruct (gateway_below_threshold clock req st k) as [Hnext Hstatus];
        [done | done | lia |].
      constructor; [done|]. apply (IH _ (k + 1)); [lia | done | lia].
    + constructor; [by intros ?|].
      apply (IH _ k); [done | | lia].
      unfold sent_by in Hother. cbn [snd] in Hother.
      by rewrite gateway_other_any.
Qed.

End ThresholdFacts.

(** X13.  The records of a client are touched by its own requests
    only: a run of requests attributed to other clients leaves its
    record as it was, with or without a password configured. *)
Theorem gateway_isolation (RT : Runtime) (P : Process) (client : jsstring)
    (trace : list (Ticks * Request)) (st : gmap jsstring AuthFailure) :
  Forall (λ cr, ¬ sent_by client cr) trace →
  (serve RT P trace st).2 !! client = st !! client.
Proof. apply serve_others. Qed.

Lemma gateway_isolation_witness :
  let warmed :=
    (serve demo_runtime demo_process
       (replicate 19 (tick 1000, wrong_password_request)) ∅).2 in
  (serve demo_runtime demo_process
     (replicate 40 (tick 2000, other_client_request)) warmed).2
    !! js "203.0.113.7"
  = Some {| windowStartAt := 1000; failures := 19; blockedUntil := 0 |}.
Proof.
  cbv zeta.
  rewrite (gateway_isolation demo_runtime demo_process (js "203.0.113.7")).
  - vm_compute. reflexivity.
  - apply Forall_replicate. intros Hsent. vm_compute in Hsent. discriminate.
Defined.



(** X15.  From a state without record for a client, fewer than
    [AUTH_MAX_ATTEMPTS] requests of that client never draw a 429,
    whatever they carry and however the requests of other clients are
    interleaved: a client that changes the address it is attributed to
    often enough is never rate-limited. *)
Theorem below_threshold_never_limited (RT : Runtime) (P : Process)
    (client : jsstring) (trace : list (Ticks * Request))
    (st : gmap jsstring AuthFailure) :
  BASIC_AUTH_PASSWORD P ≠ [] →
  st !! client = None →
  Z.of_nat (count_from client trace) < AUTH_MAX_ATTEMPTS →
  Forall2 (λ cr o, sent_by client cr → status_of o ≠ Some 429)
    trace (serve RT P trace st).1.
Proof.
  intros Hpw Hclean Hcount.
  apply (serve_below_threshold RT P Hpw client trace st 0); [done | | lia].
  by rewrite Hclean.
Qed.

Lemma below_threshold_never_limited_witness :
  Forall2 (λ cr o, sent_by (js "203.0.113.7") cr → status_of o ≠ Some 429)
    (replicate 19 (tick 1000, wrong_password_request))
    (serve demo_runtime demo_process
       (replicate 19 (tick 1000, wrong_password_request)) ∅).1.
Proof.
  apply (below_threshold_never_limited demo_runtime demo_process);
    [discriminate | reflexivity | vm_compute; reflexivity].
Defined.

Section RecordFacts.
Context (RT : Runtime) (P : Process).

Lemma recordAuthFailure_record_ok now req st :
  map_Forall (λ _, record_ok) st →
  map_Forall (λ _, record_ok) (recordAuthFailure now req st).2.
Proof.
  intros Hst. unfold recordAuthFailure.
  destruct (st !! clientIPAddress req) as [e|] eqn:Hrec.
  - pose proof (Hst _ _ Hrec) as [Hcount Hblock].
    destruct (bool_decide (AUTH_WINDOW_MS ≤ _)); cbn [snd].
    + apply map_Forall_insert_2; [|done]. by split; [|left].
    + destruct (bool_decide (AUTH_MAX_ATTEMPTS ≤ _)) eqn:Hmax; cbn [snd].
      * apply map_Forall_insert_2; [|done]. by split; [|right].
      * apply bool_decide_eq_false in Hmax.
        apply map_Forall_insert_2; [|done]. split; [cbn; lia | done].
  - cbn [snd]. apply map_Forall_insert_2; [|done]. by split; [|left].
Qed.

Lemma gateway_record_ok clock req st :
  map_Forall (λ _, record_ok) st →
  map_Forall (λ _, record_ok) (gateway RT P clock req st).2.
Proof.
  intros Hst. unfold gateway, auth_middleware.
  destruct (0 <? _)%nat; [|done].
  destruct (blocked_at _ _); [done|].
  destruct (credentials_ok _ _ _).
  - destruct (_ && _); cbn [snd]; by apply map_Forall_delete.
  - pose proof (recordAuthFailure_record_ok (t_failure clock) req st Hst)
      as Hnext.
    destruct (recordAuthFailure _ _ _) as [[until|] st']; cbn [snd] in *;
      [by destruct (negb _) | done].
Qed.

Lemma ceil_seconds_bounds ms :
  1000 * (ceil_seconds ms - 1) < ms ≤ 1000 * ceil_seconds ms.
Proof.
  unfold ceil_seconds.
  pose proof (Z.div_mod (- ms) 1000 ltac:(lia)) as Hdiv.
  pose proof (Z.mod_pos_bound (- ms) 1000 ltac:(lia)) as Hmod. lia.
Qed.

Lemma slice_after_app c user rest :
  c ∉ user → slice_after c (user ++ c :: rest) = Some rest.
Proof.
  induction user as [|x user IH]; intros Hfree; cbn.
  - by rewrite N.eqb_refl.
  - apply not_elem_of_cons in Hfree as [Hx Huser].
    rewrite (proj2 (N.eqb_neq _ _)) by congruence. by apply IH.
Qed.

Lemma slice_after_none c s : c ∉ s → slice_after c s = None.
Proof.
  induction s as [|x s IH]; intros Hfree; cbn; [done|].
  apply not_elem_of_cons in Hfree as [Hx Hs].
  rewrite (proj2 (N.eqb_neq _ _)) by congruence. by apply IH.
Qed.

End RecordFacts.

(** X16.  Whatever requests arrive, with whatever clock readings, the
    records of the middleware keep their shape: the count of a record
    stays below [AUTH_MAX_ATTEMPTS] and a block, once set, ends
    [AUTH_BLOCK_MS] after the start of the window of its record. *)
Theorem records_well_formed (RT : Runtime) (P : Process)
    (trace : list (Ticks * Request)) (st : gmap jsstring AuthFailure) :
  map_Forall (λ _, record_ok) st →
  map_Forall (λ _, record_ok) (serve RT P trace st).2.
Proof.
  revert st. induction trace as [|[clock req] trace IH]; intros st Hst.
  - done.
  - rewrite serve_cons. cbn [snd]. apply IH. by apply gateway_record_ok.
Qed.

Lemma records_well_formed_witness :
  map_Forall (λ _, record_ok)
    (serve demo_runtime demo_process
       (replicate 20 (tick 1000, wrong_password_request)
        ++ [(tick 2000, other_client_request)]) ∅).2.
Proof.
  apply (records_well_formed demo_runtime demo_process). apply map_Forall_empty.
Defined.





(** X19.  With a password configured, a request is handed to the route
    handlers exactly when its client is not blocked on entry, it
    carries the configured password, and it is either not a mutation or
    a same-origin one; nothing else gets past the middleware. *)
Theorem passed_on_exactly (RT : Runtime) (P : Process) (clock : Ticks)
    (req : Request) (st : gmap jsstring AuthFailure) :
  BASIC_AUTH_PASSWORD P ≠ [] →
  (gateway RT P clock req st).1 = Next
  ↔ blocked_at (t_entry clock) (st !! clientIPAddress req) = None
    ∧ credentials_ok RT (BASIC_AUTH_PASSWORD P) req = true
    ∧ (is_mutating (method req) = true → isSameOriginMutation RT req = true).
Proof.
  intros Hpw.
  destruct (blocked_at (t_entry clock) (st !! clientIPAddress req))
    as [until|] eqn:Hblocked.
  - rewrite gateway_installed by done. unfold auth_middleware.
    rewrite Hblocked. cbn. split; [discriminate | by intros [? _]].
  - destruct (credentials_ok RT (BASIC_AUTH_PASSWORD P) req) eqn:Hcred.
    + rewrite gateway_admitted by done. cbn [fst].
      destruct (is_mutating _), (isSameOriginMutation _ _); cbn;
        intuition (first [discriminate | congruence]).
    + rewrite gateway_failure by done. cbn [fst].
      split; [|by intros (_ & ? & _)].
      destruct (recordAuthFailure _ _ _).1 as [until|];
        [by destruct (negb _) | done].
Qed.

Lemma passed_on_exactly_witness :
  (gateway demo_runtime demo_process (tick 1000) same_site_delete ∅).1 = Next
  ∧ (gateway demo_runtime demo_process (tick 1000) cross_site_delete ∅).1
    ≠ Next.
Proof.
  split.
  - apply (passed_on_exactly demo_runtime demo_process); [discriminate|].
    repeat split; vm_compute; reflexivity.
  - intros Hnext.
    apply (passed_on_exactly demo_runtime demo_process) in Hnext
      as (_ & _ & Horigin); [|discriminate].
    specialize (Horigin eq_refl). vm_compute in Horigin. discriminate.
Defined.

(** X20.  Only the part after the first colon of the decoded
    credentials counts: the user name is ignored, whatever it is, and
    the password is kept whole, further colons included; credentials
    without a colon are no credentials. *)
Theorem basic_auth_password_parsed (RT : Runtime) (req : Request)
    (encoded user decoded : jsstring) :
  header req (js "authorization") = Some (js "Basic " ++ encoded) →
  JS.trim encoded ≠ [] →
  (COLON ∉ user) →
  (∀ password,
     base64_to_utf8 RT (JS.trim encoded) = Some (user ++ COLON :: password) →
     parseBasicAuthPassword RT req = Some password)
  ∧ (base64_to_utf8 RT (JS.trim encoded) = Some decoded →
     (COLON ∉ decoded) → parseBasicAuthPassword RT req = None).
Proof.
  intros Hheader Hencoded Huser.
  assert (Hparse : parseBasicAuthPassword RT req
                   = decoded' ← base64_to_utf8 RT (JS.trim encoded);
                     slice_after COLON decoded').
  { unfold parseBasicAuthPassword. rewrite Hheader.
    change (drop 6 (js "Basic " ++ encoded)) with encoded.
    destruct (JS.trim encoded) as [|c tl] eqn:Htrim; [done|].
    replace (JS.startsWith (js "Basic " ++ encoded) (js "Basic "))
      with true by (by vm_compute).
    cbn. by destruct (base64_to_utf8 _ _). }
  rewrite Hparse. split.
  - intros password ->. cbn. by apply slice_after_app.
  - intros -> Hfree. cbn. by apply slice_after_none.
Qed.

Lemma basic_auth_password_parsed_witness :
  parseBasicAuthPassword demo_runtime
    (demo_request (js "GET") [(js "authorization", js "Basic  me:a:b ")])
  = Some (js "a:b").
Proof.
  destruct (basic_auth_password_parsed demo_runtime
              (demo_request (js "GET")
                 [(js "authorization", js "Basic  me:a:b ")])
              (js " me:a:b ") (js "me") [])
    as [Hsome _];
    [reflexivity | discriminate | by_evaluation |].
  apply Hsome. reflexivity.
Defined.

(** * The file tree *)

Section TreeFacts.

Lemma elem_of_flat_map {A B} (f : A → list B) (l : list A) (y : B) :
  y ∈ flat_map f l ↔ ∃ x, x ∈ l ∧ y ∈ f x.
Proof.
  rewrite list_elem_of_In, in_flat_map.
  by setoid_rewrite list_elem_of_In.
Qed.

Lemma prefixes_from_cons walked segment rest :
  prefixes_from walked (segment :: rest)
  = JS.join [SLASH] (walked ++ [segment])
    :: prefixes_from (walked ++ [segment]) rest.
Proof.
  unfold prefixes_from. cbn [length]. rewrite <- cons_seq. cbn [map take].
  f_equal. rewrite <- seq_shift, map_map. apply map_ext. intros i.
  cbn [take]. by rewrite <- app_assoc.
Qed.

Lemma insert_segments_name walked segments current :
  node_name (insert_segments walked segments current) = node_name current.
Proof. by destruct segments. Qed.

Lemma insert_segments_path walked segments current :
  node_path (insert_segments walked segments current) = node_path current.
Proof. by destruct segments. Qed.

Lemma insert_segments_children walked segments current :
  is_Some (children current) →
  is_Some (children (insert_segments walked segments current)).
Proof. by destruct segments. Qed.

Lemma placed_leaf walked segment :
  placed (walked ++ [segment])
    {| node_name := segment;
       node_path := JS.join [SLASH] (walked ++ [segment]);
       node_type := file_type; children := None |}.
Proof.
  constructor; cbn; [done | | constructor | constructor].
  split; [done | by intros [? ?]].
Qed.

Lemma placed_empty_directory walked name :
  placed walked
    {| node_name := name; node_path := JS.join [SLASH] walked;
       node_type := directory_type; children := Some [] |}.
Proof. constructor; cbn; [done | done | constructor | constructor]. Qed.

Lemma placed_insert segments : ∀ walked current,
  placed walked current → is_Some (children current) →
  placed walked (insert_segments walked segments current).
Proof.
  induction segments as [|segment rest IH]; intros walked current Hplaced Hkids;
    [done|].
  destruct Hplaced as [walked current Hpath Htype Hnames Hsub].
  destruct Hkids as [siblings Hsiblings].
  cbn [insert_segments]. rewrite Hsiblings in *.
  change (default [] (Some siblings)) with siblings in *.
  assert (Hdescend : ∀ existing,
    node_name existing = segment →
    placed (walked ++ [segment]) existing →
    (rest ≠ [] → is_Some (children existing)) →
    placed (walked ++ [segment])
      (if bool_decide (rest = []) then existing
       else insert_segments (walked ++ [segment]) rest existing)).
  { intros existing Hname Hexisting Hdir. case_bool_decide; [done|].
    by apply IH; [|apply Hdir]. }
  destruct (list_find _ siblings) as [[i existing]|] eqn:Hfind.
  - apply list_find_Some in Hfind as (Hi & Hname & _).
    pose proof (Forall_lookup_1 _ _ _ _ Hsub Hi) as Hexisting.
    cbn beta in Hexisting. rewrite Hname in Hexisting.
    set (existing' := if negb _ && negb _ then _ else existing).
    assert (Hname' : node_name existing' = segment)
      by (subst existing'; by destruct (negb _ && negb _)).
    assert (Hplaced' : placed (walked ++ [segment]) existing').
    { subst existing'. destruct (negb _ && negb _); [|done].
      destruct Hexisting as [? ? -> _ _ _]. apply placed_empty_directory. }
    assert (Hdir' : rest ≠ [] → is_Some (children existing')).
    { intros Hrest. subst existing'.
      rewrite (bool_decide_eq_false_2 _ Hrest).
      destruct (bool_decide (is_Some (children existing))) eqn:Hsome; cbn;
        [by apply bool_decide_eq_true in Hsome | by eexists]. }
    constructor; cbn [node_path node_type children];
      try change (default [] (Some ?l)) with l.
    + done.
    + split; [by eexists | intros _; apply Htype; by eexists].
    + change (map node_name ?l) with (node_name <$> l).
      rewrite list_fmap_insert. rewrite list_insert_id; [done|].
      rewrite list_lookup_fmap, Hi. cbn. f_equal.
      rewrite Hname. by case_bool_decide; rewrite ?insert_segments_name.
    + apply Forall_insert; [done|].
      replace (node_name _) with segment
        by (case_bool_decide; [done | by rewrite insert_segments_name]).
      by apply Hdescend.
  - apply list_find_None in Hfind.
    constructor; cbn [node_path node_type children];
      try change (default [] (Some ?l)) with l.
    + done.
    + split; [by eexists | intros _; apply Htype; by eexists].
    + rewrite map_app. apply NoDup_app. split; [done|]. split.
      * intros name Hin Hnew. cbn in Hnew.
        apply list_elem_of_singleton in Hnew.
        replace (node_name _) with segment in Hnew
          by (case_bool_decide; [done | by rewrite insert_segments_name]).
        subst name. change (map node_name siblings) with (node_name <$> siblings)
          in Hin.
        apply list_elem_of_fmap in Hin as (c & Hc & Hin).
        by apply (proj1 (Forall_forall _ _) Hfind c).
      * cbn. apply NoDup_singleton.
    + apply Forall_app. split; [done|]. constructor; [|constructor].
      replace (node_name _) with segment
        by (case_bool_decide; [done | by rewrite insert_segments_name]).
      apply Hdescend; [done | |].
      * case_bool_decide; [apply placed_leaf | apply placed_empty_directory].
      * intros Hrest. rewrite (bool_decide_eq_false_2 _ Hrest). by eexists.
Qed.

Lemma paths_of_unfold node :
  paths_of node
  = node_path node :: flat_map paths_of (default [] (children node)).
Proof. by destruct node as [? ? ? [?|]]. Qed.

Lemma paths_insert segments : ∀ walked current q,
  placed walked current → is_Some (children current) →
  q ∈ paths_of (insert_segments walked segments current)
  ↔ q ∈ paths_of current ∨ q ∈ prefixes_from walked segments.
Proof.
  induction segments as [|segment rest IH]; intros walked current q Hplaced Hkids.
  { cbn. rewrite elem_of_nil. tauto. }
  rewrite prefixes_from_cons.
  destruct Hplaced as [walked current Hpath Htype Hnames Hsub].
  destruct Hkids as [siblings Hsiblings].
  rewrite (paths_of_unfold current), (paths_of_unfold (insert_segments _ _ _)).
  cbn [insert_segments node_path children]. rewrite Hsiblings in *.
  change (default [] (Some siblings)) with siblings in *.
  change (default [] (Some ?l)) with l.
  assert (Hdescend : ∀ existing,
    placed (walked ++ [segment]) existing →
    (rest ≠ [] → is_Some (children existing)) →
    q ∈ paths_of (if bool_decide (rest = []) then existing
                  else insert_segments (walked ++ [segment]) rest existing)
    ↔ q ∈ paths_of existing ∨ q ∈ prefixes_from (walked ++ [segment]) rest).
  { intros existing Hexisting Hdir. case_bool_decide as Hrest.
    - subst rest. cbn. rewrite elem_of_nil. tauto.
    - by apply IH; [|apply Hdir]. }
  destruct (list_find _ siblings) as [[i existing]|] eqn:Hfind.
  - apply list_find_Some in Hfind as (Hi & Hname & _).
    pose proof (Forall_lookup_1 _ _ _ _ Hsub Hi) as Hexisting.
    cbn beta in Hexisting. rewrite Hname in Hexisting.
    set (existing' := if negb _ && negb _ then _ else existing).
    assert (Hplaced' : placed (walked ++ [segment]) existing').
    { subst existing'. destruct (negb _ && negb _); [|done].
      destruct Hexisting as [? ? -> _ _ _]. apply placed_empty_directory. }
    assert (Hdir' : rest ≠ [] → is_Some (children existing')).
    { intros Hrest. subst existing'.
      rewrite (bool_decide_eq_false_2 _ Hrest).
      destruct (bool_decide (is_Some (children existing))) eqn:Hsome; cbn;
        [by apply bool_decide_eq_true in Hsome | by eexists]. }
    assert (Hsame : paths_of existing' = paths_of existing).
    { subst existing'.
      destruct (bool_decide (is_Some (children existing))) eqn:Hsome;
        [by rewrite andb_false_r|].
      apply bool_decide_eq_false in Hsome.
      destruct (negb (bool_decide (rest = []))); [|done].
      destruct existing as [? ? ? [?|]]; [|done].
      exfalso. apply Hsome. by eexists. }
    assert (Hself : JS.join [SLASH] (walked ++ [segment])
                    ∈ paths_of existing).
    { destruct Hexisting as [? ? <- _ _ _]. rewrite paths_of_unfold.
      apply list_elem_of_here. }
    rewrite insert_take_drop by (by eapply lookup_lt_Some).
    rewrite <- (take_drop_middle _ _ _ Hi) at 3.
    rewrite !flat_map_app. cbn [flat_map].
    rewrite !elem_of_cons, !elem_of_app, ?elem_of_cons.
    rewrite (Hdescend existing' Hplaced' Hdir'), Hsame.
    split; [tauto|]. intros [?|[->|?]]; tauto.
  - rewrite flat_map_app. cbn [flat_map]. rewrite app_nil_r.
    rewrite !elem_of_cons, !elem_of_app, ?elem_of_cons.
    rewrite Hdescend.
    + assert (Hnew : ∀ (ty : NodeType) ch,
        (ch = None ∨ ch = Some []) →
        q ∈ paths_of {| node_name := segment;
                        node_path := JS.join [SLASH] (walked ++ [segment]);
                        node_type := ty; children := ch |}
        ↔ q = JS.join [SLASH] (walked ++ [segment])).
      { intros ty ch [-> | ->]; cbn; rewrite elem_of_cons, elem_of_nil; tauto. }
      rewrite Hnew by (case_bool_decide; auto). tauto.
    + case_bool_decide; [apply placed_leaf | apply placed_empty_directory].
    + intros Hrest. rewrite (bool_decide_eq_false_2 _ Hrest). by eexists.
Qed.

Lemma buildTreeFromPaths_fold filePaths : ∀ root,
  placed [] root → is_Some (children root) →
  let tree :=
    fold_left
      (λ root filePath, insert_segments [] (JS.split SLASH filePath) root)
      filePaths root in
  placed [] tree
  ∧ ∀ q, q ∈ paths_of tree
         ↔ q ∈ paths_of root ∨ ∃ p, p ∈ filePaths ∧ q ∈ ancestors_of p.
Proof.
  induction filePaths as [|p filePaths IH]; intros root Hplaced Hkids; cbn zeta.
  - split; [done|]. intros q. split; [by left|].
    intros [?|(p & Hp & _)]; [done | by apply elem_of_nil in Hp].
  - cbn [fold_left].
    destruct (IH (insert_segments [] (JS.split SLASH p) root)) as [Htree Hpaths].
    { by apply placed_insert. }
    { by apply insert_segments_children. }
    split; [done|]. intros q. rewrite Hpaths, paths_insert by done.
    unfold ancestors_of. split.
    + intros [[?|?]|(p' & Hp' & ?)]; [by left | right.. ].
      * exists p. split; [apply list_elem_of_here | done].
      * exists p'. split; [by apply list_elem_of_further | done].
    + intros [?|(p' & Hp' & ?)]; [by left; left|].
      apply elem_of_cons in Hp' as [-> | Hp']; [by left; right|].
      right. by exists p'.
Qed.

Lemma last_prefix walked segments :
  segments ≠ [] →
  JS.join [SLASH] (walked ++ segments) ∈ prefixes_from walked segments.
Proof.
  intros Hsegments. unfold prefixes_from.
  change (map ?f ?l) with (f <$> l). apply list_elem_of_fmap.
  exists (pred (length segments)). destruct segments as [|s segments]; [done|].
  cbn [length pred]. split.
  - by rewrite firstn_all2 by (cbn; lia).
  - apply list_elem_of_In, in_seq. lia.
Qed.

Lemma prefixes_from_take walked segments q :
  q ∈ prefixes_from walked segments →
  ∃ i, q = JS.join [SLASH] (walked ++ take (S i) segments).
Proof.
  unfold prefixes_from. change (map ?f ?l) with (f <$> l).
  intros (i & -> & _)%list_elem_of_fmap. by exists i.
Qed.

End TreeFacts.

Section TreeVisibility.

Lemma existsb_take {A} (f : A → bool) n l :
  existsb f l = false → existsb f (take n l) = false.
Proof.
  revert n. induction l as [|x l IH]; intros [|n]; cbn; try done.
  intros [Hx Hl]%orb_false_elim. rewrite Hx. by apply IH.
Qed.

Lemma ancestor_not_hidden p q :
  isHiddenRepoRelativePath p = false → q ∈ ancestors_of p →
  isHiddenRepoRelativePath q = false.
Proof.
  intros Hp (i & ->)%prefixes_from_take. rewrite app_nil_l.
  unfold isHiddenRepoRelativePath in *.
  assert (Hsegments : existsb (λ segment, JS.startsWith segment [DOT])
                        (JS.split SLASH p) = false).
  { destruct p as [|c' p]; [done|]. exact Hp. }
  clear Hp. destruct (negb (JS.truthy _)); [done|].
  rewrite split_join.
  - by apply existsb_take.
  - pose proof (split_not_nil SLASH p). by destruct (JS.split SLASH p).
  - apply Forall_take, split_segments_free.
Qed.

End TreeVisibility.

(** X21.  The nodes of the tree are the root and, for every file path
    given, one node for each of its prefixes
    [segments.slice(0, i + 1).join("/")]; no other node is made, however
    the paths overlap or repeat. *)
Theorem tree_node_paths (filePaths : list jsstring) (q : jsstring) :
  q ∈ paths_of (buildTreeFromPaths filePaths)
  ↔ q = [] ∨ ∃ p, p ∈ filePaths ∧ q ∈ ancestors_of p.
Proof.
  unfold buildTreeFromPaths.
  destruct (buildTreeFromPaths_fold filePaths
              {| node_name := []; node_path := []; node_type := directory_type;
                 children := Some [] |}) as [_ Hpaths].
  { apply (placed_empty_directory [] []). }
  { by eexists. }
  rewrite Hpaths. cbn. rewrite elem_of_cons, elem_of_nil. tauto.
Qed.

(** X22.  In the tree built from any list of file paths the [path] of
    every node spells the names from the root down to it, joined by
    slashes, no two children of a node bear the same name, the nodes of
    type directory are exactly those with [children], and every file
    path given has its node. *)
Theorem tree_well_placed (filePaths : list jsstring) :
  placed [] (buildTreeFromPaths filePaths)
  ∧ ∀ p, p ∈ filePaths → p ∈ paths_of (buildTreeFromPaths filePaths).
Proof.
  unfold buildTreeFromPaths.
  destruct (buildTreeFromPaths_fold filePaths
              {| node_name := []; node_path := []; node_type := directory_type;
                 children := Some [] |}) as [Hplaced Hpaths].
  { apply (placed_empty_directory [] []). }
  { by eexists. }
  split; [done|]. intros p Hp. apply Hpaths. right. exists p. split; [done|].
  unfold ancestors_of. rewrite <- (join_split SLASH p) at 1.
  apply (last_prefix []), split_not_nil.
Qed.

(** X23.  Whatever [git ls-files] prints, the tree that [/api/tree]
    builds from it holds no hidden path: neither a listed file nor any
    directory node made on the way to one has a segment that starts
    with a dot; and it is built from at most [MAX_TREE_ENTRIES] file
    paths. *)
Theorem tree_hides_dot_paths (MAX_TREE_ENTRIES : nat) (stdout q : jsstring) :
  (length (tree_paths MAX_TREE_ENTRIES stdout).1.1 ≤ MAX_TREE_ENTRIES)%nat
  ∧ (q ∈ paths_of (buildTreeFromPaths (tree_paths MAX_TREE_ENTRIES stdout).1.1)
     → isHiddenRepoRelativePath q = false).
Proof.
  unfold tree_paths. cbn [fst].
  set (visiblePaths := List.filter _ (List.filter _ _)).
  split.
  - destruct (Nat.ltb_spec MAX_TREE_ENTRIES (length visiblePaths)).
    + rewrite length_take. lia.
    + done.
  - unfold buildTreeFromPaths.
    destruct (buildTreeFromPaths_fold
                (if (MAX_TREE_ENTRIES <? length visiblePaths)%nat
                 then take MAX_TREE_ENTRIES visiblePaths else visiblePaths)
                {| node_name := []; node_path := [];
                   node_type := directory_type; children := Some [] |})
      as [_ Hpaths];
      [apply (placed_empty_directory [] []) | by eexists |].
    intros [Hroot | (p & Hp & Hq)]%Hpaths.
    { cbn in Hroot. by apply list_elem_of_singleton in Hroot as ->. }
    apply (ancestor_not_hidden p); [|done].
    assert (Hvisible : p ∈ visiblePaths).
    { destruct (_ <? _)%nat; [|done]. by eapply subseteq_take. }
    apply list_elem_of_In, filter_In in Hvisible as [_ Hvisible].
    by apply negb_true_iff.
Qed.

Example tree_scenarios :
  let stdout :=
    JS.join [10%N]
      [js "src/a.ts"; js "src/.env"; js "README.md"; js ".github/ci.yml";
       js "src/lib/b.ts"; []] in
  (tree_paths 5000 stdout).1.1
  = [js "src/a.ts"; js "README.md"; js "src/lib/b.ts"]
  ∧ paths_of (buildTreeFromPaths (tree_paths 5000 stdout).1.1)
    = [[]; js "src"; js "src/a.ts"; js "src/lib"; js "src/lib/b.ts";
       js "README.md"]
  ∧ (tree_paths 2 stdout).2 = true.
Proof. by vm_compute. Qed.

(** * The client's file names *)

Section ClientFacts.

Lemma last_occurrence (c : N) (s : jsstring) :
  c ∈ s → ∃ a b, s = a ++ c :: b ∧ c ∉ b.
Proof.
  induction s as [|x s IH]; [by intros ?%elem_of_nil|].
  intros Hin. destruct (decide (c ∈ s)) as [Hs|Hs].
  - destruct (IH Hs) as (a & b & -> & Hb). by exists (x :: a), b.
  - apply elem_of_cons in Hin as [-> | Hin]; [|done]. by exists [], s.
Qed.

Lemma lastIndexOf_absent c s : c ∉ s → Client.lastIndexOf c s = -1.
Proof.
  induction s as [|x s IH]; [done|].
  intros [Hx Hs]%not_elem_of_cons. cbn. rewrite (IH Hs). cbn.
  by rewrite (proj2 (N.eqb_neq x c)) by congruence.
Qed.

Lemma lastIndexOf_last c a b :
  c ∉ b → Client.lastIndexOf c (a ++ c :: b) = Z.of_nat (length a).
Proof.
  intros Hb. induction a as [|x a IH].
  - cbn. rewrite (lastIndexOf_absent c b Hb). cbn. by rewrite N.eqb_refl.
  - cbn [app Client.lastIndexOf length]. rewrite IH.
    rewrite (proj2 (Z.leb_le 0 _)) by lia. lia.
Qed.

Lemma slice_from_last c a b :
  c ∉ b →
  Client.slice_from (a ++ c :: b) (Client.lastIndexOf c (a ++ c :: b))
  = c :: b.
Proof.
  intros Hb. rewrite lastIndexOf_last by done.
  unfold Client.slice_from, Client.slice_index.
  rewrite (proj2 (Z.ltb_ge _ 0)) by lia.
  rewrite Z.min_l by (rewrite length_app; lia).
  by rewrite Nat2Z.id, drop_app_length.
Qed.

Lemma slice_to_last c a b :
  c ∉ b →
  Client.slice_to (a ++ c :: b) (Client.lastIndexOf c (a ++ c :: b)) = a.
Proof.
  intros Hb. rewrite lastIndexOf_last by done.
  unfold Client.slice_to, Client.slice_index.
  rewrite (proj2 (Z.ltb_ge _ 0)) by lia.
  rewrite Z.min_l by (rewrite length_app; lia).
  by rewrite Nat2Z.id, take_app_length.
Qed.

Lemma last_dot_suffix_absent s : DOT ∉ s → Path.last_dot_suffix s = None.
Proof.
  induction s as [|x s IH]; [done|].
  intros [Hx Hs]%not_elem_of_cons. cbn. rewrite (IH Hs).
  by rewrite (proj2 (N.eqb_neq x DOT)) by congruence.
Qed.

Lemma last_dot_suffix_last a b :
  DOT ∉ b → Path.last_dot_suffix (a ++ DOT :: b) = Some (DOT :: b).
Proof.
  intros Hb. induction a as [|x a IH].
  - cbn. by rewrite (last_dot_suffix_absent b Hb).
  - cbn [app Path.last_dot_suffix]. by rewrite IH.
Qed.

(** [path.extname] of a name that is one component and does not start
    with a dot. *)
Lemma extname_component c n :
  c ≠ DOT → SLASH ∉ c :: n →
  Path.extname (c :: n)
  = default [] (Path.last_dot_suffix n).
Proof.
  intros Hc Hslash. unfold Path.extname.
  rewrite basename_component by done.
  destruct (decide (c :: n = Path.dotdot)) as [[= -> _]|_]; [done|].
  by destruct (Path.last_dot_suffix n).
Qed.

Lemma allowed_extension_long e :
  e ∈ ALLOWED_IMAGE_EXTENSIONS → (4 ≤ length e)%nat.
Proof.
  unfold ALLOWED_IMAGE_EXTENSIONS. rewrite !elem_of_cons, elem_of_nil.
  intros Hin. repeat (destruct Hin as [-> | Hin]; [cbn; lia|]). done.
Qed.

(** The extension the client reads and the one the server reads are
    the same, or neither is an allowed one. *)
Lemma extension_agreement c n :
  c ≠ DOT → SLASH ∉ c :: n →
  JS.toLowerCase
    (Client.slice_from (c :: n) (Client.lastIndexOf DOT (c :: n)))
  ∈ ALLOWED_IMAGE_EXTENSIONS
  ↔ JS.toLowerCase (Path.extname (c :: n)) ∈ ALLOWED_IMAGE_EXTENSIONS.
Proof.
  intros Hc Hslash. rewrite extname_component by done.
  destruct (decide (DOT ∈ n)) as [Hdot|Hdot].
  - destruct (last_occurrence DOT n Hdot) as (a & b & -> & Hb).
    rewrite last_dot_suffix_last by done.
    change (c :: a ++ DOT :: b) with ((c :: a) ++ DOT :: b).
    by rewrite (slice_from_last DOT (c :: a) b Hb).
  - rewrite last_dot_suffix_absent by done.
    rewrite lastIndexOf_absent by (apply not_elem_of_cons; split; congruence).
    split; intros Hin%allowed_extension_long; [|cbn in Hin; lia].
    unfold JS.toLowerCase, Client.slice_from, Client.slice_index in Hin.
    rewrite length_map, length_drop in Hin. cbn in Hin. lia.
Qed.

End ClientFacts.

(** X24.  The client and the server agree on file names: the client's
    [validateUploadFilename] accepts a name exactly when the server's
    does, although the one reads the extension with [lastIndexOf] and
    [slice] and the other with [path.extname]. *)
Theorem validators_agree (fileName : jsstring) :
  Client.validateUploadFilename fileName = None
  ↔ validateUploadFilename fileName = None.
Proof.
  unfold Client.validateUploadFilename, validateUploadFilename.
  destruct fileName as [|c n]; [done|]. cbn [JS.truthy negb andb].
  destruct (existsb JS.is_space (c :: n)); [done|].
  destruct (bool_decide (c :: n = [DOT])); [done|].
  destruct (bool_decide (c :: n = Path.dotdot)); [done|].
  destruct (JS.startsWith (c :: n) [DOT]) eqn:Hdot; [done|]. cbn [orb].
  destruct (forallb is_filename_unit (c :: n)) eqn:Hclass; [|done].
  cbn [negb].
  assert (Hc : c ≠ DOT) by (intros ->; by cbn in Hdot).
  assert (Hslash : SLASH ∉ c :: n).
  { intros Hin. rewrite forallb_forall in Hclass.
    by apply list_elem_of_In, Hclass in Hin. }
  pose proof (extension_agreement c n Hc Hslash) as Hext.
  unfold JS.includes.
  change Client.ALLOWED_UPLOAD_EXTENSIONS with ALLOWED_IMAGE_EXTENSIONS.
  destruct (JS.toLowerCase (Path.extname (c :: n))) as [|d ext] eqn:Hserver.
  - cbn [JS.truthy negb orb]. case_bool_decide as Hclient; [|by cbn].
    apply Hext, allowed_extension_long in Hclient. cbn in Hclient. lia.
  - cbn [JS.truthy negb orb].
    do 2 case_bool_decide; cbn; intuition discriminate.
Qed.

Section SuggestionFacts.

Lemma elem_of_replace_runs_from class by_ in_run s c :
  c ∈ Client.replace_runs_from class by_ in_run s →
  c ∈ by_ ∨ (c ∈ s ∧ class c = false).
Proof.
  revert in_run. induction s as [|x s IH]; intros in_run; cbn.
  - by intros ?%elem_of_nil.
  - destruct (class x) eqn:Hx.
    + intros [Hin | Hin]%elem_of_app.
      * destruct in_run; [by apply elem_of_nil in Hin | by left].
      * destruct (IH _ Hin) as [?|[? ?]]; [by left|].
        right. split; [by apply list_elem_of_further | done].
    + intros [-> | Hin]%elem_of_cons.
      * right. split; [apply list_elem_of_here | done].
      * destruct (IH _ Hin) as [?|[? ?]]; [by left|].
        right. split; [by apply list_elem_of_further | done].
Qed.

Lemma elem_of_drop_dashes s c : c ∈ Client.drop_dashes s → c ∈ s.
Proof.
  induction s as [|x s IH]; cbn; [done|].
  destruct (x =? Client.DASH)%N; [|done].
  intros ?%IH. by apply list_elem_of_further.
Qed.

Lemma elem_of_strip_dashes s c : c ∈ Client.strip_dashes s → c ∈ s.
Proof.
  unfold Client.strip_dashes.
  intros Hin%list_elem_of_In%in_rev%list_elem_of_In%elem_of_drop_dashes.
  by apply list_elem_of_In, in_rev, list_elem_of_In, elem_of_drop_dashes in Hin.
Qed.

Lemma stem_unit_allowed c :
  Client.is_stem_unit c = true → allowed_filename_char c ∧ c ≠ DOT.
Proof.
  unfold Client.is_stem_unit, allowed_filename_char, DOT.
  rewrite !orb_true_iff, !andb_true_iff, !N.leb_le, !N.eqb_eq. lia.
Qed.

(** The stem of a suggested name is made of letters, digits,
    underscores and dashes. *)
Lemma safeStem_units rawStem c :
  c ∈ Client.strip_dashes
        (Client.replace_runs (λ c, (c =? Client.DASH)%N) [Client.DASH]
           (Client.replace_runs (λ c, negb (Client.is_stem_unit c))
              [Client.DASH]
              (Client.replace_runs JS.is_space [Client.DASH] rawStem))) →
  Client.is_stem_unit c = true.
Proof.
  intros Hin%elem_of_strip_dashes. unfold Client.replace_runs in Hin.
  apply elem_of_replace_runs_from in Hin
    as [->%list_elem_of_singleton | [Hin _]]; [done|].
  apply elem_of_replace_runs_from in Hin
    as [->%list_elem_of_singleton | [_ Hclass]]; [done|].
  by apply negb_false_iff in Hclass.
Qed.

Lemma allowed_extension_shape e :
  e ∈ ALLOWED_IMAGE_EXTENSIONS →
  ∃ letters, e = DOT :: letters ∧ (DOT ∉ letters)
             ∧ JS.toLowerCase e = e
             ∧ forallb is_filename_unit e = true.
Proof.
  unfold ALLOWED_IMAGE_EXTENSIONS. rewrite !elem_of_cons, elem_of_nil.
  intros Hin.
  repeat (destruct Hin as [-> | Hin];
          [eexists; split; [reflexivity|]; split;
           [apply (bool_decide_unpack _); vm_compute; exact I | by split]|]).
  done.
Qed.

(** A stem of that kind followed by an allowed extension passes the
    server's validation. *)
Lemma stem_extension_valid stem e :
  stem ≠ [] → (∀ c, c ∈ stem → Client.is_stem_unit c = true) →
  e ∈ ALLOWED_IMAGE_EXTENSIONS →
  validateUploadFilename (stem ++ e) = None.
Proof.
  intros Hne Hstem He.
  destruct (allowed_extension_shape e He)
    as (letters & -> & Hletters & Hlower & Hclass).
  destruct stem as [|c stem]; [done|].
  destruct (stem_unit_allowed c) as [_ Hc];
    [apply Hstem, list_elem_of_here|].
  assert (Hall : Forall allowed_filename_char ((c :: stem) ++ DOT :: letters)).
  { apply Forall_app. split.
    - apply Forall_forall. intros x Hx. by apply stem_unit_allowed, Hstem.
    - apply Forall_forall. intros x Hx. apply is_filename_unit_allowed.
      rewrite forallb_forall in Hclass. by apply Hclass, list_elem_of_In. }
  apply validate_accepts; [done | | done |].
  - rewrite <- app_comm_cons. cbn [JS.startsWith].
    by rewrite (proj2 (N.eqb_neq DOT c)) by congruence.
  - rewrite <- app_comm_cons. rewrite extname_component; [| done |].
    + rewrite last_dot_suffix_last by done.
      change (default [] (Some ?x)) with x. by rewrite Hlower.
    + intros Hslash. rewrite Forall_forall in Hall.
      apply Hall in Hslash. unfold allowed_filename_char, SLASH in Hslash. lia.
Qed.

End SuggestionFacts.

(** X25.  The file name the client suggests for an upload is always
    one the server accepts, whatever the name of the chosen file; and
    the server stores the upload under exactly that name, sanitizing
    leaving it as it is. *)
Theorem suggested_name_accepted (originalName : jsstring) (now : Z) :
  let suggested := Client.normalizeSuggestedFilename originalName in
  validateUploadFilename suggested = None
  ∧ sanitizeUploadFilename suggested now = suggested.
Proof.
  cbv zeta.
  assert (Hvalid : validateUploadFilename
                     (Client.normalizeSuggestedFilename originalName) = None).
  { unfold Client.normalizeSuggestedFilename.
    set (trimmed := JS.trim originalName).
    set (extension := if 0 <? _ then _ else []).
    set (safeStem := Client.strip_dashes _).
    apply stem_extension_valid.
    - destruct safeStem; by cbn.
    - destruct (JS.truthy safeStem) eqn:Hstem.
      + intros c Hc. by apply safeStem_units in Hc.
      + intros c Hc. revert c Hc. apply Forall_forall.
        by repeat constructor.
    - change Client.ALLOWED_UPLOAD_EXTENSIONS with ALLOWED_IMAGE_EXTENSIONS.
      unfold JS.includes. case_bool_decide; [done|].
      apply (bool_decide_unpack _). by vm_compute. }
  split; [done|]. by apply sanitize_fixed, validated_clean.
Qed.

Example suggested_name_scenarios :
  Client.normalizeSuggestedFilename (js "  My photo (1).JPG ")
  = js "My-photo-1.jpg"
  ∧ Client.normalizeSuggestedFilename (js ".hidden") = js "hidden.png"
  ∧ Client.normalizeSuggestedFilename (js "notes.txt") = js "notes.png"
  ∧ Client.normalizeSuggestedFilename (js "---.gif") = js "image.gif"
  ∧ Client.normalizeSuggestedFilename [] = js "image.png".
Proof. by vm_compute. Qed.

Section EscapeFacts.

Lemma replaceAll_flat_map {A} pattern replacement (f : A → jsstring) s :
  Client.replaceAll pattern replacement (flat_map f s)
  = flat_map (λ c, Client.replaceAll pattern replacement (f c)) s.
Proof.
  unfold Client.replaceAll. induction s as [|x s IH]; [done|].
  cbn [flat_map]. by rewrite flat_map_app, IH.
Qed.

Lemma escape_unit c :
  Client.replaceAll 39 (js "&#39;")
    (Client.replaceAll 34 (js "&quot;")
       (Client.replaceAll 62 (js "&gt;")
          (Client.replaceAll 60 (js "&lt;")
             (if (c =? 38)%N then js "&amp;" else [c]))))
  = character_reference c.
Proof.
  unfold character_reference.
  destruct (N.eqb_spec c 38) as [->|H38]; [done|].
  unfold Client.replaceAll at 4. cbn [flat_map]. rewrite app_nil_r.
  destruct (N.eqb_spec c 60) as [->|H60]; [done|].
  unfold Client.replaceAll at 3. cbn [flat_map]. rewrite app_nil_r.
  destruct (N.eqb_spec c 62) as [->|H62]; [done|].
  unfold Client.replaceAll at 2. cbn [flat_map]. rewrite app_nil_r.
  destruct (N.eqb_spec c 34) as [->|H34]; [done|].
  unfold Client.replaceAll. cbn [flat_map]. rewrite app_nil_r.
  by destruct (N.eqb_spec c 39) as [->|H39].
Qed.

Lemma escapeHtml_units value :
  Client.escapeHtml value = flat_map character_reference value.
Proof.
  unfold Client.escapeHtml.
  unfold Client.replaceAll at 5. rewrite !replaceAll_flat_map.
  apply flat_map_ext. intros c. apply escape_unit.
Qed.

Lemma character_reference_cases c :
  (c = 38%N ∨ c = 60%N ∨ c = 62%N ∨ c = 34%N ∨ c = 39%N)
  ∨ (c ≠ 38%N ∧ c ≠ 60%N ∧ c ≠ 62%N ∧ c ≠ 34%N ∧ c ≠ 39%N
     ∧ character_reference c = [c]).
Proof.
  unfold character_reference.
  destruct (N.eqb_spec c 38); [tauto|]. destruct (N.eqb_spec c 60); [tauto|].
  destruct (N.eqb_spec c 62); [tauto|]. destruct (N.eqb_spec c 34); [tauto|].
  destruct (N.eqb_spec c 39); tauto.
Qed.

(** No reference is the beginning of another text of references: the
    first character written determines the character read. *)
Lemma character_reference_prefix_free x y rest rest' :
  character_reference x ++ rest = character_reference y ++ rest' →
  x = y ∧ rest = rest'.
Proof.
  destruct (character_reference_cases x)
    as [Hx | (Hx1 & Hx2 & Hx3 & Hx4 & Hx5 & ->)],
     (character_reference_cases y)
    as [Hy | (Hy1 & Hy2 & Hy3 & Hy4 & Hy5 & ->)].
  - destruct Hx as [-> | [-> | [-> | [-> | ->]]]], Hy as [-> | [-> | [-> | [-> | ->]]]];
      cbn; intros Heq; first [discriminate Heq | by simplify_eq].
  - destruct Hx as [-> | [-> | [-> | [-> | ->]]]]; cbn; intros [= <- _]; done.
  - destruct Hy as [-> | [-> | [-> | [-> | ->]]]]; cbn; intros [= -> _]; done.
  - cbn. by intros [= -> ->].
Qed.

End EscapeFacts.

(** X26.  [escapeHtml] writes, for each character of its argument and
    in order, the reference of that character or the character itself:
    the five passes never escape what an earlier pass wrote.  Its
    result holds no angle bracket and no quote, and it tells the
    arguments apart: different texts are escaped differently. *)
Theorem escapeHtml_faithful (value : jsstring) :
  Client.escapeHtml value = flat_map character_reference value
  ∧ (∀ c, c ∈ Client.escapeHtml value →
          c ≠ 60%N ∧ c ≠ 62%N ∧ c ≠ 34%N ∧ c ≠ 39%N)
  ∧ ∀ other, Client.escapeHtml other = Client.escapeHtml value →
             other = value.
Proof.
  split; [apply escapeHtml_units|]. split.
  - intros c. rewrite escapeHtml_units.
    intros (x & _ & Hc)%elem_of_flat_map.
    destruct (character_reference_cases x)
      as [Hx | (? & ? & ? & ? & ? & Hplain)].
    + destruct Hx as [-> | [-> | [-> | [-> | ->]]]]; cbn in Hc;
        repeat (apply elem_of_cons in Hc as [-> | Hc]; [done|]);
        by apply elem_of_nil in Hc.
    + rewrite Hplain in Hc. by apply list_elem_of_singleton in Hc as ->.
  - intros other. rewrite !escapeHtml_units. revert other.
    induction value as [|y value IH]; intros [|x other]; cbn [flat_map].
    + done.
    + destruct (character_reference_cases x)
        as [[-> | [-> | [-> | [-> | ->]]]] | (_ & _ & _ & _ & _ & ->)]; done.
    + destruct (character_reference_cases y)
        as [[-> | [-> | [-> | [-> | ->]]]] | (_ & _ & _ & _ & _ & ->)]; done.
    + intros [-> Hrest]%character_reference_prefix_free.
      by rewrite (IH _ Hrest).
Qed.

Example escapeHtml_scenarios :
  Client.escapeHtml (js "<a href='x'>R&amp;D</a>")
  = js "&lt;a href=&#39;x&#39;&gt;R&amp;amp;D&lt;/a&gt;".
Proof. by vm_compute. Qed.

(** * The launcher's option values *)

Section LauncherFacts.

Lemma elem_of_uniq seen xs x : x ∈ uniq seen xs ↔ x ∈ xs ∧ x ∉ seen.
Proof.
  revert seen. induction xs as [|y xs IH]; intros seen; cbn.
  - rewrite elem_of_nil. tauto.
  - destruct (decide (y ∈ seen)) as [Hy|Hy].
    + rewrite IH, elem_of_cons. split; [tauto|].
      intros [[-> | ?] ?]; tauto.
    + rewrite !elem_of_cons, IH, not_elem_of_cons. split.
      * intros [-> | (? & ? & ?)]; tauto.
      * intros [[-> | ?] ?]; [by left|].
        destruct (decide (x = y)) as [->|]; [by left | by right].
Qed.

Lemma NoDup_uniq seen xs : NoDup (uniq seen xs).
Proof.
  revert seen. induction xs as [|y xs IH]; intros seen; cbn; [constructor|].
  destruct (decide (y ∈ seen)); [done|]. constructor; [|done].
  rewrite elem_of_uniq, not_elem_of_cons. tauto.
Qed.

Lemma uniq_fixed seen xs :
  NoDup xs → (∀ x, x ∈ xs → x ∉ seen) → uniq seen xs = xs.
Proof.
  intros Hxs. revert seen. induction Hxs as [|y xs Hy Hxs IH]; intros seen Hseen;
    cbn; [done|].
  rewrite decide_False by apply Hseen, list_elem_of_here.
  f_equal. apply IH. intros x Hx. apply not_elem_of_cons. split.
  - by intros ->.
  - by apply Hseen, list_elem_of_further.
Qed.

Lemma uniq_nonempty xs : xs ≠ [] → uniq [] xs ≠ [].
Proof.
  destruct xs as [|x xs]; [done|]. intros _. cbn.
  by rewrite decide_False by apply not_elem_of_nil.
Qed.

Lemma map_fixed {A} (f : A → A) l : Forall (λ x, f x = x) l → map f l = l.
Proof. induction 1 as [|x l Hx _ IH]; cbn; [done|]. by rewrite Hx, IH. Qed.

Lemma filter_fixed {A} (f : A → bool) l :
  Forall (λ x, f x = true) l → List.filter f l = l.
Proof. induction 1 as [|x l Hx _ IH]; cbn; [done|]. by rewrite Hx, IH. Qed.

Lemma find_absent {A} (f : A → bool) l :
  Forall (λ x, f x = false) l → List.find f l = None.
Proof. induction 1 as [|x l Hx _ IH]; cbn; [done|]. by rewrite Hx. Qed.

Lemma has_separator_false segment :
  Launcher.has_separator segment = false
  ↔ (SLASH ∉ segment) ∧ (Launcher.BACKSLASH ∉ segment) ∧ (0%N ∉ segment).
Proof.
  unfold Launcher.has_separator.
  rewrite !orb_false_iff, <- !not_true_iff_false, !includes_unit_elem. tauto.
Qed.

(** What a list of segments must be for [parseAlwaysHiddenCsv] to
    return its join unchanged. *)
Lemma parseAlwaysHiddenCsv_join segments label :
  segments ≠ [] → NoDup segments →
  Forall (λ s, s ≠ [] ∧ JS.trim s = s ∧ (COMMA ∉ s)
               ∧ Launcher.has_separator s = false) segments →
  Launcher.parseAlwaysHiddenCsv (JS.join [COMMA] segments) label
  = Launcher.Returned (JS.join [COMMA] segments).
Proof.
  intros Hne Hnodup Hall. unfold Launcher.parseAlwaysHiddenCsv.
  rewrite split_join;
    [| done | by eapply Forall_impl; [exact Hall | intros ? (? & ? & ? & ?)]].
  rewrite map_fixed
    by (by eapply Forall_impl; [exact Hall | intros ? (? & ? & ? & ?)]).
  rewrite filter_fixed
    by (eapply Forall_impl; [exact Hall | intros [|? ?] (? & ? & ? & ?)]; done).
  rewrite bool_decide_eq_false_2 by done.
  rewrite find_absent
    by (by eapply Forall_impl; [exact Hall | intros ? (? & ? & ? & ?)]).
  rewrite uniq_fixed; [done | done |]. intros ? _. apply not_elem_of_nil.
Qed.

End LauncherFacts.

(** X27.  A value that [parseAlwaysHiddenCsv] returns is in normal
    form: its comma-separated segments are the distinct non-empty
    trimmed segments of the raw value, none holds a slash, a backslash
    or a null byte, and parsing the returned value again -- as the
    server side would, under any label -- returns it unchanged. *)
Theorem parseAlwaysHiddenCsv_normal_form
    (rawValue sourceLabel value : jsstring) :
  Launcher.parseAlwaysHiddenCsv rawValue sourceLabel
  = Launcher.Returned value →
  let segments := JS.split COMMA value in
  NoDup segments
  ∧ (∀ s, s ∈ segments
          ↔ s ≠ [] ∧ s ∈ map JS.trim (JS.split COMMA rawValue))
  ∧ Forall (λ s, (SLASH ∉ s) ∧ (Launcher.BACKSLASH ∉ s) ∧ (0%N ∉ s))
           segments
  ∧ ∀ label, Launcher.parseAlwaysHiddenCsv value label
             = Launcher.Returned value.
Proof.
  intros Hparse. unfold Launcher.parseAlwaysHiddenCsv in Hparse.
  set (trimmed := map JS.trim (JS.split COMMA rawValue)) in *.
  set (kept := List.filter JS.truthy trimmed) in *.
  case_bool_decide as Hkept; [done|].
  destruct (List.find Launcher.has_separator kept) eqn:Hfind; [done|].
  injection Hparse as <-. cbv zeta.
  assert (Hall : Forall (λ s, s ≠ [] ∧ JS.trim s = s ∧ (COMMA ∉ s)
                              ∧ Launcher.has_separator s = false)
                        (uniq [] kept)).
  { apply Forall_forall. intros s [Hs _]%elem_of_uniq.
    pose proof (find_none _ _ Hfind s (proj1 (list_elem_of_In _ _) Hs)) as Hsep.
    apply list_elem_of_In, filter_In in Hs as [Hs Htruthy].
    apply list_elem_of_In, list_elem_of_fmap in Hs as (raw & -> & Hraw).
    repeat split; [by destruct (JS.trim raw) | apply trim_idem | | done].
    intros Hcomma%trim_subset.
    pose proof (split_segments_free COMMA rawValue) as Hfree.
    rewrite Forall_forall in Hfree. by apply (Hfree raw). }
  assert (Hsplit : JS.split COMMA (JS.join [COMMA] (uniq [] kept))
                   = uniq [] kept).
  { apply split_join; [by apply uniq_nonempty|].
    by eapply Forall_impl; [exact Hall | intros ? (? & ? & ? & ?)]. }
  rewrite Hsplit. split; [apply NoDup_uniq|]. split; [|split].
  - intros s. rewrite elem_of_uniq. subst kept.
    rewrite list_elem_of_In, filter_In, <- list_elem_of_In.
    pose proof (not_elem_of_nil s). destruct s; cbn; intuition congruence.
  - eapply Forall_impl; [exact Hall|].
    by intros s (_ & _ & _ & Hsep%has_separator_false).
  - intros label. apply parseAlwaysHiddenCsv_join;
      [by apply uniq_nonempty | apply NoDup_uniq | done].
Qed.

Lemma parseAlwaysHiddenCsv_normal_form_witness :
  Launcher.parseAlwaysHiddenCsv (js " .env , secrets,,.env ,node_modules")
    (js "--always-hidden")
  = Launcher.Returned (js ".env,secrets,node_modules")
  ∧ Launcher.parseAlwaysHiddenCsv (js ".env,secrets,node_modules")
      (js "REMOTE_WS_ALWAYS_HIDDEN")
    = Launcher.Returned (js ".env,secrets,node_modules").
Proof.
  split; [reflexivity|].
  apply (parseAlwaysHiddenCsv_normal_form
           (js " .env , secrets,,.env ,node_modules") (js "--always-hidden")).
  reflexivity.
Defined.

Section RelativeNormalization.

(** The stack of [normalizeString] with [allowAboveRoot]: clean
    segments above a run of [..]. *)
Lemma normalize_step_above stack c :
  (∃ k S, stack = S ++ replicate k Path.dotdot ∧ Forall comp_ok S) →
  (SLASH ∉ c) →
  ∃ k S, Path.normalize_step true stack c = S ++ replicate k Path.dotdot
         ∧ Forall comp_ok S.
Proof.
  intros (k & S & -> & HS) Hc. unfold Path.normalize_step.
  destruct (decide (c = [] ∨ c = [DOT])) as [|Hplain]; [by exists k, S|].
  destruct (decide (c = Path.dotdot)) as [->|Hdd].
  - destruct S as [|top S].
    + exists (Datatypes.S k), []. split; [|done]. cbn [app].
      destruct k as [|k]; [done|]. cbn [replicate].
      by rewrite decide_True by done.
    + apply Forall_cons in HS as [(_ & _ & Htop & _) HS]. cbn [app].
      rewrite decide_False by done. by exists k, S.
  - exists k, (c :: S). split; [done|]. constructor; [|done].
    repeat split; try done; intros ->; apply Hplain; auto.
Qed.

Lemma fold_normalize_above cs : ∀ stack,
  (∃ k S, stack = S ++ replicate k Path.dotdot ∧ Forall comp_ok S) →
  Forall (λ c, SLASH ∉ c) cs →
  ∃ k S, fold_left (Path.normalize_step true) cs stack
         = S ++ replicate k Path.dotdot
         ∧ Forall comp_ok S.
Proof.
  induction cs as [|c cs IH]; intros stack Hstack Hcs; [done|].
  apply Forall_cons in Hcs as [Hc Hcs]. cbn [fold_left].
  apply IH; [|done]. by apply normalize_step_above.
Qed.

Lemma normalizeString_above p :
  ∃ k C, Path.normalizeString p true
         = JS.join [SLASH] (replicate k Path.dotdot ++ C)
         ∧ Forall comp_ok C.
Proof.
  unfold Path.normalizeString, Path.normalize_comps.
  destruct (fold_normalize_above (JS.split SLASH p) [])
    as (k & S & -> & HS);
    [by exists 0%nat, [] | apply split_segments_free |].
  exists k, (rev S). split.
  - rewrite rev_app_distr. f_equal. f_equal.
    clear. induction k as [|k IH]; [done|]. cbn [replicate rev].
    rewrite IH. clear IH. induction k as [|k IH]; [done|].
    cbn [replicate app]. by rewrite IH.
  - apply Forall_forall. intros c Hc.
    apply list_elem_of_In, in_rev, list_elem_of_In in Hc.
    by apply (proj1 (Forall_forall _ _) HS).
Qed.

Lemma startsWith_app s tail p :
  JS.startsWith s p = true → JS.startsWith (s ++ tail) p = true.
Proof.
  rewrite !startsWith_prefix. intros [rest ->].
  exists (rest ++ tail). by rewrite app_assoc.
Qed.

(** The text of a path that begins with [..] is [..] itself or begins
    with [../]. *)
Lemma join_dotdot_text rest :
  JS.join [SLASH] (Path.dotdot :: rest) = Path.dotdot
  ∨ JS.startsWith (JS.join [SLASH] (Path.dotdot :: rest))
      (Path.dotdot ++ [SLASH]) = true.
Proof. destruct rest; [by left | by right]. Qed.

(** The text of a clean relative path does not begin with [./]. *)
Lemma join_comp_ok_plain c rest tail :
  comp_ok c →
  JS.startsWith (JS.join [SLASH] (c :: rest) ++ tail) [DOT; SLASH] = false.
Proof.
  intros (Hnil & Hdot & _ & Hslash).
  assert (Hjoin : ∃ more, JS.join [SLASH] (c :: rest) ++ tail = c ++ more).
  { destruct rest.
    - by exists tail.
    - rewrite join_cons by done. rewrite <- app_assoc. by eexists. }
  destruct Hjoin as [more ->].
  destruct c as [|x [|y c]]; [done | |].
  - cbn [app JS.startsWith].
    destruct (N.eqb_spec DOT x) as [<-|]; [by destruct Hdot | done].
  - cbn [app JS.startsWith]. destruct (N.eqb_spec DOT x); [|done].
    destruct (N.eqb_spec SLASH y) as [<-|]; [|done].
    exfalso. apply Hslash. right. by left.
Qed.

(** The three shapes of [path.normalize] of a non-empty text. *)
Lemma normalize_shapes p :
  p ≠ [] →
  Path.isAbsolute (Path.normalize p) = true
  ∨ (Path.normalize p = [DOT] ∨ Path.normalize p = [DOT; SLASH])
  ∨ ∃ cs, cs ≠ []
          ∧ Forall (λ c, c = Path.dotdot ∨ comp_ok c) cs
          ∧ (head cs = Some Path.dotdot ∨ Forall comp_ok cs)
          ∧ (Path.normalize p = JS.join [SLASH] cs
             ∨ Path.normalize p = JS.join [SLASH] cs ++ [SLASH]).
Proof.
  intros Hp. unfold Path.normalize. destruct p as [|x p]; [done|].
  destruct (Path.isAbsolute (x :: p)); [by left|]. right. cbn [negb].
  destruct (normalizeString_above (x :: p)) as (k & C & -> & HC).
  destruct (replicate k Path.dotdot ++ C) as [|c cs] eqn:Hcs.
  - left. cbn. by destruct (bool_decide _); [right | left].
  - right. exists (c :: cs). split; [done|]. rewrite <- Hcs. split; [|split].
    + apply Forall_app. split.
      * apply Forall_forall. intros d ->%elem_of_replicate_inv. by left.
      * eapply Forall_impl; [exact HC | by right].
    + destruct k as [|k]; [by right | by left].
    + rewrite Hcs.
      assert (Hne : JS.join [SLASH] (c :: cs) ≠ []).
      { assert (Hc : c ≠ []).
        { assert (Hin : c ∈ replicate k Path.dotdot ++ C)
            by (rewrite Hcs; apply list_elem_of_here).
          apply elem_of_app in Hin as [->%elem_of_replicate_inv | Hin]; [done|].
          by apply (proj1 (Forall_forall _ _) HC) in Hin as (? & _). }
        destruct c as [|y c]; [done|]. by destruct cs. }
      destruct (JS.join [SLASH] (c :: cs)) as [|y n]; [done|].
      by destruct (bool_decide _); [right | left].
Qed.

End RelativeNormalization.

(** X28.  A path that [normalizeRepoRelativePath] returns is empty or
    names a place inside the repository: it is the slash-join of clean
    segments -- none empty, [.] or [..], none [.git] -- with at most one
    slash after them; paths that lead out of the repository, absolute
    paths and paths through [.git] end the launcher instead. *)
Theorem normalizeRepoRelativePath_inside
    (rawValue sourceLabel normalized : jsstring) :
  Launcher.normalizeRepoRelativePath rawValue sourceLabel
  = Launcher.Returned normalized →
  normalized ≠ [] →
  ∃ segments,
    segments ≠ [] ∧ Forall comp_ok segments ∧ (js ".git" ∉ segments)
    ∧ (normalized = JS.join [SLASH] segments
       ∨ normalized = JS.join [SLASH] segments ++ [SLASH]).
Proof.
  unfold Launcher.normalizeRepoRelativePath.
  destruct (JS.trim rawValue) as [|x trimmed] eqn:Htrim;
    [by intros [= <-]|].
  cbn [JS.truthy negb].
  destruct (JS.includes_unit (x :: trimmed) 0); [done|].
  set (p := map _ (x :: trimmed)).
  destruct (normalize_shapes p ltac:(done))
    as [Habs | [[Hn | Hn] | (cs & Hne & Hcs & Hhead & Hn)]].
  - (* an absolute path *)
    destruct (Path.normalize p) as [|y n] eqn:Hnorm; [done|].
    cbn in Habs. apply N.eqb_eq in Habs as ->.
    unfold Launcher.drop_dot_slash. cbn [JS.startsWith].
    change (DOT =? SLASH)%N with false. cbn [andb JS.truthy negb orb].
    rewrite bool_decide_eq_false_2 by done.
    rewrite bool_decide_eq_false_2 by done.
    cbn. done.
  - rewrite Hn. by intros [= <-].
  - rewrite Hn. by intros [= <-].
  - assert (Hplain : Launcher.drop_dot_slash (Path.normalize p)
                     = Path.normalize p).
    { unfold Launcher.drop_dot_slash.
      destruct cs as [|c cs]; [done|].
      apply Forall_cons in Hcs as [[-> | Hc] _].
      - by destruct Hn as [-> | ->], cs.
      - replace (JS.startsWith (Path.normalize p) [DOT; SLASH]) with false;
          [done|].
        destruct Hn as [-> | ->].
        + symmetry. rewrite <- (app_nil_r (JS.join _ _)).
          by apply join_comp_ok_plain.
        + symmetry. by apply join_comp_ok_plain. }
    rewrite Hplain.
    destruct (negb (JS.truthy (Path.normalize p))
              || bool_decide (Path.normalize p = [DOT])); [by intros [= <-]|].
    destruct Hhead as [Hhead | Hclean].
    + (* the path leads out *)
      destruct cs as [|c cs]; [done|]. injection Hhead as ->.
      replace (bool_decide (Path.normalize p = Path.dotdot)
               || JS.startsWith (Path.normalize p) (Path.dotdot ++ [SLASH]))
        with true; [done|].
      symmetry. apply orb_true_iff.
      destruct (join_dotdot_text cs) as [Hdd | Hdd], Hn as [-> | ->].
      * left. by apply bool_decide_eq_true.
      * right. by rewrite Hdd.
      * by right.
      * right. by apply startsWith_app.
    + destruct (bool_decide _ || JS.startsWith _ _); [done|].
      destruct (Path.isAbsolute _); [done|].
      destruct (JS.includes _ _) eqn:Hgit; [done|]. intros [= <-] _.
      exists cs. split; [done|]. split; [done|]. split; [|done].
      intros Hin. apply not_true_iff_false in Hgit. apply Hgit.
      unfold JS.includes. apply bool_decide_eq_true.
      assert (Hfree : Forall (λ c, SLASH ∉ c) cs)
        by (eapply Forall_impl; [exact Hclean | by intros ? (_ & _ & _ & ?)]).
      destruct Hn as [-> | ->].
      * by rewrite split_join.
      * rewrite <- join_snoc_nil by done.
        rewrite split_join; [by apply elem_of_app; left | by destruct cs |].
        apply Forall_app. split; [done|]. repeat constructor.
        apply not_elem_of_nil.
Qed.

Lemma normalizeRepoRelativePath_inside_witness :
  ∃ segments,
    segments ≠ [] ∧ Forall comp_ok segments ∧ (js ".git" ∉ segments)
    ∧ (js ".playwright-mcp/shots/" = JS.join [SLASH] segments
       ∨ js ".playwright-mcp/shots/" = JS.join [SLASH] segments ++ [SLASH]).
Proof.
  apply (normalizeRepoRelativePath_inside
           (js " ./assets\..\.playwright-mcp//shots/ ") (js "--image-dirs"));
    [reflexivity | discriminate].
Defined.

Example normalizeRepoRelativePath_scenarios :
  Launcher.normalizeRepoRelativePath (js "a/../..") (js "--image-dirs")
  = Launcher.Failed
      (js "Invalid --image-dirs path " ++ [QUOTE] ++ js "a/../.." ++ [QUOTE]
       ++ js ": path must stay inside repository.")
  ∧ Launcher.normalizeRepoRelativePath (js "docs/.git/hooks") (js "--image-dirs")
    = Launcher.Failed
        (js "Invalid --image-dirs path " ++ [QUOTE] ++ js "docs/.git/hooks"
         ++ [QUOTE] ++ js ": .git cannot be exposed.")
  ∧ Launcher.normalizeRepoRelativePath (js "\tmp") (js "--image-dirs")
    = Launcher.Failed
        (js "Invalid --image-dirs path " ++ [QUOTE] ++ js "\tmp" ++ [QUOTE]
         ++ js ": path must be repo-relative.")
  ∧ Launcher.normalizeRepoRelativePath (js "a/..") (js "--image-dirs")
    = Launcher.Returned []
  ∧ Launcher.parseImageDirsCsv (js ".clipboard, ./shots/ ,,.clipboard")
      (js "--image-dirs")
    = Launcher.Returned (js ".clipboard,shots/").
Proof. by vm_compute. Qed.

(** * Directory listings *)

Section ListingFacts.
Context (P : Process) (H : Host).
Hypothesis cwd_absolute : Path.isAbsolute (cwd P) = true.

Lemma toRepoRelativePath_descendant R rest :
  Forall comp_ok R → Forall comp_ok rest → REPO_ROOT P = abs_path R →
  toRepoRelativePath P (abs_path (R ++ rest)) = JS.join [SLASH] rest.
Proof.
  intros HR Hrest HeqR.
  assert (HT : Forall comp_ok (R ++ rest)) by (by apply Forall_app).
  unfold toRepoRelativePath.
  rewrite relative_formula, HeqR, !resolve_abs_path by done.
  rewrite !comps_abs_path, strip_common_extend by done. cbn [fst snd map app].
  rewrite join_split. by destruct (JS.join [SLASH] rest).
Qed.

Lemma resolveRepoPath_form relativePath p :
  resolveRepoPath P relativePath = Ok p →
  ∃ R rest, Forall comp_ok R ∧ Forall comp_ok rest
            ∧ REPO_ROOT P = abs_path R ∧ p = abs_path (R ++ rest).
Proof.
  rewrite resolveRepoPath_unfold.
  destruct (JS.includes_unit _ 0); [done|].
  destruct (isWithinRepo P _) eqn:Hin; [|done]. cbn [negb]. intros [= Hp].
  destruct (REPO_ROOT_form P cwd_absolute) as (R & HR & HeqR).
  destruct (resolve_under_root_form P
              (JS.trim (default [] relativePath)) cwd_absolute)
    as (T & HT & HeqT).
  rewrite Hp in HeqT, Hin.
  assert (Hcanon : Path.resolve (cwd P) [p] = abs_path T)
    by (by rewrite HeqT, resolve_abs_path).
  pose proof (proj1 (isWithinRepo_components P p R T HR HT HeqR Hcanon) Hin)
    as (rest & -> & _).
  apply Forall_app in HT as HT'. destruct HT' as [_ Hrest].
  by exists R, rest.
Qed.

Lemma isHidden_join rest :
  rest ≠ [] → Forall comp_ok rest →
  isHiddenRepoRelativePath (JS.join [SLASH] rest)
  = existsb (λ segment, JS.startsWith segment [DOT]) rest.
Proof.
  intros Hne Hrest. unfold isHiddenRepoRelativePath.
  destruct rest as [|c rest]; [done|].
  apply Forall_cons in Hrest as Hrest'. destruct Hrest' as [Hc _].
  destruct (join_comp_ok_head c rest Hc) as (Hjoin & _ & _).
  destruct (JS.join [SLASH] (c :: rest)) as [|x n] eqn:Heq; [done|].
  cbn [JS.truthy negb]. rewrite <- Heq. rewrite split_join; [done | done |].
  by eapply Forall_impl; [exact Hrest | intros ? (_ & _ & _ & ?)].
Qed.

End ListingFacts.

Section ListingLoops.
Context (P : Process) (H : Host).
Context (R D : list jsstring).
Hypothesis cwd_absolute : Path.isAbsolute (cwd P) = true.
Hypothesis R_clean : Forall comp_ok R.
Hypothesis D_clean : Forall comp_ok D.
Hypothesis root_form : REPO_ROOT P = abs_path R.

Lemma scan_entry_placed state dirEntry :
  comp_ok (Dirent.name dirEntry) →
  Forall (candidate_placed D) state.1.1 →
  Forall (candidate_placed D)
    (scan_entry P (abs_path (R ++ D)) state dirEntry).1.1
  ∧ (length (scan_entry P (abs_path (R ++ D)) state dirEntry).1.1
     + (scan_entry P (abs_path (R ++ D)) state dirEntry).1.2
     + (scan_entry P (abs_path (R ++ D)) state dirEntry).2
     = S (length state.1.1 + state.1.2 + state.2)
     ∨ scan_entry P (abs_path (R ++ D)) state dirEntry = state)%nat.
Proof.
  intros Hname Hstate. destruct state as [[candidates symlinks] hidden].
  cbn [fst snd] in *. unfold scan_entry.
  destruct (Dirent.isSymbolicLink dirEntry); cbn [fst snd];
    [split; [done | left; lia]|].
  rewrite path_join_child by (by try apply Forall_app).
  rewrite <- app_assoc.
  rewrite (toRepoRelativePath_descendant P R (D ++ [Dirent.name dirEntry]))
    by (by try (apply Forall_app; split; [|constructor])).
  unfold isBlockedHiddenRepoRelativePath.
  destruct (isHiddenRepoRelativePath _) eqn:Hhidden; cbn [fst snd];
    [split; [done | left; lia]|].
  destruct (negb _ && negb _); cbn [fst snd]; [split; [done | by right]|].
  split; [|left; rewrite length_app; cbn; lia].
  apply Forall_app. split; [done|]. constructor; [|constructor].
  by split; [|split].
Qed.

Lemma scan_placed dirEntries : ∀ state,
  Forall (λ d, comp_ok (Dirent.name d)) dirEntries →
  Forall (candidate_placed D) state.1.1 →
  let final := fold_left (scan_entry P (abs_path (R ++ D))) dirEntries state in
  Forall (candidate_placed D) final.1.1
  ∧ (length final.1.1 + final.1.2 + final.2
     ≤ length state.1.1 + state.1.2 + state.2 + length dirEntries)%nat.
Proof.
  induction dirEntries as [|d dirEntries IH]; intros state Hnames Hstate;
    cbn zeta.
  - split; [done | cbn; lia].
  - apply Forall_cons in Hnames as [Hd Hnames]. cbn [fold_left].
    destruct (scan_entry_placed state d Hd Hstate) as [Hnext Hcount].
    destruct (IH _ Hnames Hnext) as [Hfinal Hbound].
    split; [done|]. cbn [length]. destruct Hcount as [Hcount | Hcount].
    + lia.
    + rewrite Hcount in Hbound |- *. lia.
Qed.

Lemma list_candidate_placed (paths : list jsstring)
    (ignoredPathSet : gset jsstring) state c :
  candidate_placed D c → childRepoRelativePath c ∈ paths →
  Forall (λ e, entry_placed D e ∧ entry_path e ∈ paths
               ∧ entry_path e ∉ ignoredPathSet) state.1 →
  Forall (λ e, entry_placed D e ∧ entry_path e ∈ paths
               ∧ entry_path e ∉ ignoredPathSet)
    (list_candidate H ignoredPathSet state c).1
  ∧ (length (list_candidate H ignoredPathSet state c).1
     + (list_candidate H ignoredPathSet state c).2
     ≤ S (length state.1 + state.2))%nat.
Proof.
  intros (Hname & Hpath & Hhidden) Hlisted Hstate.
  destruct state as [entries ignored]. cbn [fst snd] in *.
  unfold list_candidate. case_bool_decide as Hignored; cbn [fst snd].
  - split; [done | lia].
  - destruct (fs_stat H (childPath c)) as [childStats|message]; cbn [fst snd].
    + split; [|rewrite length_app; cbn; lia].
      apply Forall_app. split; [done|]. constructor; [|constructor].
      by split; [split; [|split]|].
    + split; [done | lia].
Qed.

Lemma list_placed (paths : list jsstring) (ignoredPathSet : gset jsstring)
    candidates : ∀ state,
  Forall (candidate_placed D) candidates →
  Forall (λ c, childRepoRelativePath c ∈ paths) candidates →
  Forall (λ e, entry_placed D e ∧ entry_path e ∈ paths
               ∧ entry_path e ∉ ignoredPathSet) state.1 →
  let final := fold_left (list_candidate H ignoredPathSet) candidates state in
  Forall (λ e, entry_placed D e ∧ entry_path e ∈ paths
               ∧ entry_path e ∉ ignoredPathSet) final.1
  ∧ (length final.1 + final.2
     ≤ length state.1 + state.2 + length candidates)%nat.
Proof.
  induction candidates as [|c candidates IH];
    intros state Hcands Hlisted Hstate; cbn zeta.
  - split; [done | cbn; lia].
  - apply Forall_cons in Hcands as [Hc Hcands].
    apply Forall_cons in Hlisted as [Hin Hlisted]. cbn [fold_left].
    destruct (list_candidate_placed paths ignoredPathSet state c Hc Hin Hstate)
      as [Hnext Hcount].
    destruct (IH _ Hcands Hlisted Hnext) as [Hfinal Hbound].
    split; [done|]. cbn [length]. lia.
Qed.

Lemma entry_placed_visible L e :
  currentPath L = JS.join [SLASH] D → entry_placed D e → entry_visible L e.
Proof.
  intros Hcurrent (Hname & Hpath & Hhidden). unfold entry_visible.
  pose proof Hhidden as Hvisible. rewrite Hpath in Hhidden.
  rewrite isHidden_join in Hhidden
    by (by try (apply Forall_app; split; [|constructor]); destruct D).
  rewrite existsb_app in Hhidden. apply orb_false_iff in Hhidden as [_ Hdot].
  cbn [existsb] in Hdot. rewrite orb_false_r in Hdot.
  split; [done|]. split; [done|]. split; [done|].
  rewrite Hpath, Hcurrent. clear Hpath Hcurrent Hvisible.
  destruct D as [|d D']; [done|].
  apply Forall_cons in D_clean as [Hd _].
  destruct (join_comp_ok_head d D' Hd) as (Hjoin & _ & _).
  destruct (JS.join [SLASH] (d :: D')) as [|x n] eqn:Heq; [done|].
  cbn [JS.truthy]. rewrite <- Heq. by apply join_snoc.
Qed.

End ListingLoops.



Example api_list_scenarios :
  (L ← api_list demo_process working_host demo_readdir
         (Some (QString (js "src")));
   Ok (currentPath L, map entry_path (entries L)))
  = Ok (js "src", [js "src/index.ts"])
  ∧ api_list demo_process working_host demo_readdir
      (Some (QString (js "node_modules")))
    = Err "Gitignored paths are not accessible"
  ∧ api_list demo_process working_host demo_readdir
      (Some (QString (js "../etc")))
    = Err "Path escapes repository root".
Proof. by vm_compute. Qed.

(** * Port numbers *)

Section PortFacts.

Lemma parseInt_digits_positive d : ∀ acc,
  fold_left (λ value c, 10 * value + (Z.of_N c - 48))
    (JS.str (NilEmpty.string_of_uint d)) (Z.pos acc)
  = Z.pos (Pos.of_uint_acc d acc).
Proof.
  induction d; intros acc; cbn [NilEmpty.string_of_uint Pos.of_uint_acc];
    try done;
    change (JS.str (String ?c ?s)) with (N_of_ascii c :: JS.str s);
    cbn [fold_left]; rewrite <- IHd; f_equal; vm_compute N_of_ascii; lia.
Qed.

Lemma parseInt_digits_uint d :
  Launcher.parseInt_digits (JS.str (NilEmpty.string_of_uint d))
  = Z.of_N (Pos.of_uint d).
Proof.
  unfold Launcher.parseInt_digits.
  induction d; cbn [NilEmpty.string_of_uint Pos.of_uint]; try done;
    change (JS.str (String ?c ?s)) with (N_of_ascii c :: JS.str s);
    cbn [fold_left]; try apply IHd;
    vm_compute N_of_ascii;
    match goal with
    | |- fold_left _ _ ?start = _ =>
        let p := eval vm_compute in (Z.to_pos start) in
        change start with (Z.pos p)
    end;
    by rewrite parseInt_digits_positive.
Qed.

Lemma parseInt_digits_of_Z n :
  0 < n → Launcher.parseInt_digits (JS.of_Z n) = n.
Proof.
  intros Hn. destruct n as [|p|p]; [lia | | lia]. unfold JS.of_Z.
  cbn [Z.to_int NilEmpty.string_of_int]. rewrite parseInt_digits_uint.
  by rewrite DecimalPos.Unsigned.of_to.
Qed.

Lemma all_digits_of_Z n : 0 < n → Launcher.all_digits (JS.of_Z n) = true.
Proof.
  intros Hn. unfold Launcher.all_digits. apply andb_true_iff. split.
  - pose proof (parseInt_digits_of_Z n Hn) as Hvalue.
    destruct (JS.of_Z n); [cbn in Hvalue; lia | done].
  - apply forallb_forall. intros c Hc%list_elem_of_In.
    apply of_Z_nonneg_digits in Hc; [|lia].
    apply andb_true_iff. rewrite !N.leb_le. lia.
Qed.

Lemma leading_zeros k s :
  Launcher.parseInt_digits (replicate k 48%N ++ s)
  = Launcher.parseInt_digits s
  ∧ (Launcher.all_digits s = true →
     Launcher.all_digits (replicate k 48%N ++ s) = true).
Proof.
  unfold Launcher.parseInt_digits, Launcher.all_digits.
  induction k as [|k [IHvalue IHdigits]]; [done|]. split.
  - cbn [replicate app fold_left]. exact IHvalue.
  - intros Hs. specialize (IHdigits Hs).
    apply andb_true_iff in IHdigits as [_ IHdigits].
    cbn [replicate app JS.truthy forallb]. by rewrite IHdigits.
Qed.

End PortFacts.

(** X30.  Every port number from 1 to 65535, written in decimal with
    any number of leading zeros, is accepted by [parsePort] and read
    back as itself. *)
Theorem parsePort_round_trip (zeros : nat) (port : Z) :
  1 ≤ port ≤ 65535 →
  Launcher.parsePort (replicate zeros 48%N ++ JS.of_Z port)
  = Launcher.Returned port.
Proof.
  intros Hport. unfold Launcher.parsePort.
  destruct (leading_zeros zeros (JS.of_Z port)) as [-> Hdigits].
  rewrite Hdigits by (apply all_digits_of_Z; lia).
  rewrite parseInt_digits_of_Z by lia. cbn [negb].
  rewrite (proj2 (Z.ltb_ge port 1)) by lia.
  by rewrite (proj2 (Z.ltb_ge 65535 port)) by lia.
Qed.

Lemma parsePort_round_trip_witness :
  Launcher.parsePort (js "0018080") = Launcher.Returned 18080.
Proof. apply (parsePort_round_trip 2 18080). lia. Defined.

Example parsePort_scenarios :
  Launcher.parsePort (js "0")
  = Launcher.Failed (js "Invalid --port value: 0 (must be 1-65535).")
  ∧ Launcher.parsePort (js "65536")
    = Launcher.Failed (js "Invalid --port value: 65536 (must be 1-65535).")
  ∧ Launcher.parsePort (js "80 ")
    = Launcher.Failed (js "Invalid --port value: 80  (must be numeric).")
  ∧ Launcher.parsePort (js "+80")
    = Launcher.Failed (js "Invalid --port value: +80 (must be numeric).")
  ∧ Launcher.parsePort []
    = Launcher.Failed (js "Invalid --port value:  (must be numeric).").
Proof. by vm_compute. Qed.
